(** * Duplex-sequencing consensus caller: a shallow embedding of [bin/parse_ssc.py]

    The development follows the [ParseSSC] class: the reading of the two BAM
    files ([parse_bam], [parse_read], [parse_variants]), the forward/reverse
    merge of each strand ([merge_read_pair]), the positive/negative merge
    ([merge_strands]), the threshold filter of [write_output], the counting
    loop of [format_summary], the adduct list of [write_adducts_gtf] and the
    dictionary of [write_total_json].  The label table of
    [collapse_complementary_changes] in [bin/make_plots.py] closes the model.

    Modelling conventions:
    - Python [int] is [Z]; a Python [str] is a [list ascii] (the program only
      handles ASCII nucleotide letters);
    - dictionaries keyed by reference position, contig or family are [gmap]s;
      a loop over [d.items()] is a fold over [map_to_list d].  The order of
      [map_to_list] is not Python's insertion order; no property below depends
      on that order;
    - the two-key dictionary [strand_reads] is an association list, because
      the order of its items decides which read overwrites the other;
    - a value that may be [None] is an [option]; an uncaught exception is
      [Raise e] in the [result] monad.  No exception is ever caught by the
      program, so a raised exception ends the run;
    - a method that fills an entry of [self.ssc_info] or [self.dsc_info]
      field by field returns the finished entry here; the fields written
      before an exception are never read, because the exception ends the run;
    - an aligned record of the BAM library is the record [AlignedRead] of
      the attributes and method results that [parse_read] and
      [parse_variants] read; the read dictionaries and the reference cache
      they produce are the inputs of [parse_ssc]. *)

From Stdlib Require Import Ascii.
From stdpp Require Import gmap strings list fin_maps.

Local Open Scope Z_scope.
Local Open Scope char_scope.

(** ** Exceptions and the result monad *)

Inductive exn : Type :=
  | KeyError_strand_reads   (* strand_reads[orient]: key absent *)
  | KeyError_read_field     (* read[field] on an empty read dictionary *)
  | KeyError_refseq         (* self.refseq[ref_name][refpos] *)
  | KeyError_complement     (* complement(base) outside A/T/C/G *)
  | KeyError_covered        (* covered_bases[orient] *)
  | TypeError               (* arithmetic, max, min or len on None *)
  | AssertionError.

Inductive result (A : Type) : Type :=
  | Ok (a : A)
  | Raise (e : exn).
Arguments Ok {A} a.
Arguments Raise {A} e.

#[global] Instance result_ret : MRet result := λ A a, Ok a.
#[global] Instance result_bind : MBind result := λ A B f r,
  match r with
  | Ok a => f a
  | Raise e => Raise e
  end.

(** [for x in l: st = body(x, st)] with exceptions propagating. *)
Fixpoint for_each {A S : Type} (body : A → S → result S) (l : list A) (st : S)
  : result S :=
  match l with
  | [] => Ok st
  | x :: l' => st' ← body x st; for_each body l' st'
  end.

(** Subscripting a value that may be absent. *)
Definition item {A : Type} (e : exn) (o : option A) : result A :=
  match o with
  | Some a => Ok a
  | None => Raise e
  end.

(** ** Python built-ins used by the program *)

Abbreviation str := (list ascii).

(** [max(a, b)] and [min(a, b)] on values that may be [None]. *)
Definition py_max (a b : option Z) : result Z :=
  match a, b with
  | Some x, Some y => Ok (Z.max x y)
  | _, _ => Raise TypeError
  end.

Definition py_min (a b : option Z) : result Z :=
  match a, b with
  | Some x, Some y => Ok (Z.min x y)
  | _, _ => Raise TypeError
  end.

(** Normalisation of one bound of a slice: a negative bound counts from the
    end of the sequence, and bounds are clipped to [0, len]. *)
Definition slice_index (len i : Z) : Z :=
  if bool_decide (i < 0) then Z.max (i + len) 0 else Z.min i len.

(** [l[lo:hi]] *)
Definition py_slice {A : Type} (l : list A) (lo hi : Z) : list A :=
  let n := Z.of_nat (length l) in
  let lo' := slice_index n lo in
  let hi' := slice_index n hi in
  take (Z.to_nat (hi' - lo')) (drop (Z.to_nat lo') l).

(** [c.upper()] on an ASCII character. *)
Definition upper_char (c : ascii) : ascii :=
  let n := N_of_ascii c in
  if bool_decide (97 ≤ n ∧ n ≤ 122)%N then ascii_of_N (n - 32) else c.

Definition upper (s : str) : str := upper_char <$> s.

(** [range(lo, hi)] *)
Definition range (lo hi : Z) : list Z := seqZ lo (hi - lo).

(** [zip(a, b, c)] stops at the shortest of the three. *)
Definition zip3 {A B C : Type} (a : list A) (b : list B) (c : list C)
  : list (A * B * C) :=
  zip (zip a b) c.

(** [d[k] += n] on a [defaultdict(int)]. *)
Definition add_to `{Countable K} (k : K) (n : Z) (d : gmap K Z) : gmap K Z :=
  <[k := default 0 (d !! k) + n]> d.

Definition incr `{Countable K} (k : K) (d : gmap K Z) : gmap K Z :=
  add_to k 1 d.

(** [d[k1][k2] += n] on a [defaultdict] of [defaultdict(int)]. *)
Definition add_to2 `{Countable K1, Countable K2} (k1 : K1) (k2 : K2) (n : Z)
    (d : gmap K1 (gmap K2 Z)) : gmap K1 (gmap K2 Z) :=
  <[k1 := add_to k2 n (default ∅ (d !! k1))]> d.

(** Reading a counter: an absent key counts as 0. *)
Definition count_of `{Countable K} (k : K) (d : gmap K Z) : Z :=
  default 0 (d !! k).

(** ** Module-level functions *)

Definition allowed_nucs : list ascii := ["A"; "T"; "C"; "G"].

Definition complement (base : ascii) : result ascii :=
  if bool_decide (base = "A") then Ok "T"
  else if bool_decide (base = "T") then Ok "A"
  else if bool_decide (base = "C") then Ok "G"
  else if bool_decide (base = "G") then Ok "C"
  else Raise KeyError_complement.

(** An insertion-ordered dictionary with few keys: [get] is [d.get(k)], and
    [set] is [d[k] = v], which keeps the position of a key already present. *)
Module Dict.
Section dict.
Context {K V : Type} `{EqDecision K}.

Fixpoint get (k : K) (d : list (K * V)) : option V :=
  match d with
  | [] => None
  | (k', v) :: d' => if decide (k = k') then Some v else get k d'
  end.

Fixpoint set (k : K) (v : V) (d : list (K * V)) : list (K * V) :=
  match d with
  | [] => [(k, v)]
  | (k', v') :: d' =>
      if decide (k = k') then (k, v) :: d' else (k', v') :: set k v d'
  end.

Definition keys (d : list (K * V)) : list K := fst <$> d.

End dict.
End Dict.

Definition iupac_table : list (ascii * list (ascii * ascii)) :=
  [ ("A", [("A", "A"); ("T", "W"); ("C", "M"); ("G", "R")]);
    ("T", [("A", "W"); ("T", "T"); ("C", "Y"); ("G", "K")]);
    ("C", [("A", "M"); ("T", "Y"); ("C", "C"); ("G", "S")]);
    ("G", [("A", "R"); ("T", "K"); ("C", "S"); ("G", "G")]) ].

Definition iupac (base1 base2 : ascii) : ascii :=
  default "N" (Dict.get base2 (default [] (Dict.get base1 iupac_table))).

(** ** Data model *)

Inductive Strand := pos | neg.
Inductive Orient := fwd | rev.

#[global] Instance Strand_eq_dec : EqDecision Strand.
Proof. solve_decision. Defined.
#[global] Instance Orient_eq_dec : EqDecision Orient.
Proof. solve_decision. Defined.

(** [self.refseq]: contig -> position -> upper-case reference base.  It is a
    [defaultdict] of dictionaries: an unknown contig reads as the empty
    dictionary.  (Reading an unknown contig also stores that empty dictionary,
    which changes no later lookup and is not modelled.) *)
Abbreviation Refseq := (gmap string (gmap Z ascii)).

Definition refseq_contig (refseq : Refseq) (ref_name : option string)
  : gmap Z ascii :=
  match ref_name with
  | Some c => default ∅ (refseq !! c)
  | None => ∅
  end.

(** The dictionary built by [parse_read] for one aligned read. *)
Record ReadRecord := {
  r_ref_name : string;
  r_start : Z;
  r_end : Z;
  r_variants : gmap Z ascii
}.

(** A value of [read_info[family][strand][orient]]: [None] is the empty
    dictionary put there by the default factory, [Some r] a parsed read. *)
Abbreviation read_dict := (option ReadRecord).
Abbreviation strand_reads_t := (list (Orient * read_dict)).

Record FamilyReads := {
  fr_pos : strand_reads_t;
  fr_neg : strand_reads_t
}.

(** One entry of [ssc_info[family][strand]["variants"]]. *)
Record SscVariant := {
  sv_readpos : Z;
  sv_var : ascii;
  sv_ref : ascii
}.

(** [ssc_info[family][strand]]; the default factory fills it with [None]. *)
Record Ssc := {
  ssc_ref_name : option string;
  ssc_start : option Z;
  ssc_end : option Z;
  ssc_cons : option str;
  ssc_variants : gmap Z SscVariant
}.

Record FamilyStrands := {
  fs_pos : Ssc;
  fs_neg : Ssc
}.

Record Variant := {
  v_var : ascii;
  v_ref : ascii
}.

Record Adduct := {
  a_strand : Strand;
  a_var : ascii;
  a_ref : ascii
}.

(** [dsc_info[family]].  The [None] placeholders that the default factory puts
    in [start], [end] and [cons] are overwritten before [merge_strands]
    returns, so a finished record carries definite values; [ref_name] copies
    the positive strand's, which may be [None]. *)
Record Dsc := {
  dsc_ref_name : option string;
  dsc_start : Z;
  dsc_end : Z;
  dsc_cons : str;
  dsc_nbases : Z;
  dsc_adducts : gmap Z Adduct;
  dsc_variants : gmap Z Variant;
  dsc_total_variants_and_adducts : Z;
  dsc_total_variants : Z
}.

(** [self.base_positions] *)
Record BasePositions := {
  bp_adducts : gmap Z Z;
  bp_variants : gmap Z Z;
  bp_nreads : gmap Z Z
}.

Definition base_positions_init : BasePositions :=
  {| bp_adducts := ∅; bp_variants := ∅; bp_nreads := ∅ |}.

#[global] Instance Variant_eq_dec : EqDecision Variant.
Proof. solve_decision. Defined.
#[global] Instance Adduct_eq_dec : EqDecision Adduct.
Proof. solve_decision. Defined.
#[global] Instance SscVariant_eq_dec : EqDecision SscVariant.
Proof. solve_decision. Defined.

(** ** DuplexMerger: [merge_strands] *)

(** What the loop of [merge_strands] has written so far. *)
Record MergeState := {
  ms_cons_list : list ascii;
  ms_nbases : Z;
  ms_adducts : gmap Z Adduct;
  ms_variants : gmap Z Variant;
  ms_tva : Z;
  ms_tv : Z;
  ms_bp : BasePositions
}.

Definition merge_state_init (bp : BasePositions) : MergeState :=
  {| ms_cons_list := []; ms_nbases := 0; ms_adducts := ∅; ms_variants := ∅;
     ms_tva := 0; ms_tv := 0; ms_bp := bp |}.

(** The trimmed consensus of one strand:
    [cons[start - start_pos : len(cons) - (end - end_pos)].upper()] *)
Definition trim_cons (start_pos end_pos : Z) (strand_dict : Ssc) : result str :=
  cons ← item TypeError (ssc_cons strand_dict);
  s ← item TypeError (ssc_start strand_dict);
  e ← item TypeError (ssc_end strand_dict);
  Ok (upper (py_slice cons (s - start_pos)
                      (Z.of_nat (length cons) - (e - end_pos)))).

(** The body of the loop over [zip(range(start_pos, end_pos + 1), pos, neg)]. *)
Definition merge_position (contig : gmap Z ascii) (start_pos end_pos : Z)
    (x : Z * ascii * ascii) (st : MergeState) : result MergeState :=
  let '(refpos, pos_base, neg_base) := x in
  if bool_decide (pos_base ∉ allowed_nucs ∨ neg_base ∉ allowed_nucs) then
    Ok {| ms_cons_list := ms_cons_list st ++ ["N"];
          ms_nbases := ms_nbases st; ms_adducts := ms_adducts st;
          ms_variants := ms_variants st; ms_tva := ms_tva st;
          ms_tv := ms_tv st; ms_bp := ms_bp st |}
  else
    refbase ← item KeyError_refseq (contig !! refpos);
    let readpos := Z.min (refpos - start_pos) (end_pos - refpos) + 1 in
    if bool_decide (¬ readpos > 0) then Raise AssertionError else
    let nbases := ms_nbases st + 1 in
    let bp := ms_bp st in
    let nreads := incr readpos (bp_nreads bp) in
    let cons_list := ms_cons_list st ++ [iupac pos_base neg_base] in
    if bool_decide (refbase ∉ allowed_nucs) then
      Ok {| ms_cons_list := cons_list; ms_nbases := nbases;
            ms_adducts := ms_adducts st; ms_variants := ms_variants st;
            ms_tva := ms_tva st; ms_tv := ms_tv st;
            ms_bp := {| bp_adducts := bp_adducts bp;
                        bp_variants := bp_variants bp;
                        bp_nreads := nreads |} |}
    else if bool_decide (pos_base ≠ refbase ∧ neg_base ≠ refbase) then
      if bool_decide (pos_base = neg_base) then
        Ok {| ms_cons_list := cons_list; ms_nbases := nbases;
              ms_adducts := ms_adducts st;
              ms_variants :=
                <[refpos := {| v_var := pos_base; v_ref := refbase |}]>
                  (ms_variants st);
              ms_tva := ms_tva st + 1; ms_tv := ms_tv st + 1;
              ms_bp := {| bp_adducts := bp_adducts bp;
                          bp_variants := incr readpos (bp_variants bp);
                          bp_nreads := nreads |} |}
      else
        var ← complement neg_base;
        ref ← complement refbase;
        Ok {| ms_cons_list := cons_list; ms_nbases := nbases;
              ms_adducts :=
                <[refpos := {| a_strand := neg; a_var := var; a_ref := ref |}]>
                  (ms_adducts st);
              ms_variants :=
                <[refpos := {| v_var := pos_base; v_ref := refbase |}]>
                  (ms_variants st);
              ms_tva := ms_tva st + 1; ms_tv := ms_tv st + 1;
              ms_bp := {| bp_adducts := incr readpos (bp_adducts bp);
                          bp_variants := incr readpos (bp_variants bp);
                          bp_nreads := nreads |} |}
    else if bool_decide (pos_base ≠ refbase) then
      Ok {| ms_cons_list := cons_list; ms_nbases := nbases;
            ms_adducts :=
              <[refpos := {| a_strand := pos; a_var := pos_base;
                             a_ref := refbase |}]> (ms_adducts st);
            ms_variants := ms_variants st;
            ms_tva := ms_tva st + 1; ms_tv := ms_tv st;
            ms_bp := {| bp_adducts := incr readpos (bp_adducts bp);
                        bp_variants := bp_variants bp;
                        bp_nreads := nreads |} |}
    else if bool_decide (neg_base ≠ refbase) then
      var ← complement neg_base;
      ref ← complement refbase;
      Ok {| ms_cons_list := cons_list; ms_nbases := nbases;
            ms_adducts :=
              <[refpos := {| a_strand := neg; a_var := var; a_ref := ref |}]>
                (ms_adducts st);
            ms_variants := ms_variants st;
            ms_tva := ms_tva st + 1; ms_tv := ms_tv st;
            ms_bp := {| bp_adducts := incr readpos (bp_adducts bp);
                        bp_variants := bp_variants bp;
                        bp_nreads := nreads |} |}
    else
      Ok {| ms_cons_list := cons_list; ms_nbases := nbases;
            ms_adducts := ms_adducts st; ms_variants := ms_variants st;
            ms_tva := ms_tva st; ms_tv := ms_tv st;
            ms_bp := {| bp_adducts := bp_adducts bp;
                        bp_variants := bp_variants bp;
                        bp_nreads := nreads |} |}.

(** The triples the loop of [merge_strands] visits. *)
Definition merge_positions (start_pos end_pos : Z) (pos_cons neg_cons : str)
  : list (Z * ascii * ascii) :=
  zip3 (range start_pos (end_pos + 1)) pos_cons neg_cons.

(** [merge_strands(family_id, family_strands)]: the record written to
    [dsc_info[family_id]] and the updated read-position counters. *)
Definition merge_strands (refseq : Refseq) (bp : BasePositions)
    (family_strands : FamilyStrands) : result (Dsc * BasePositions) :=
  let p := fs_pos family_strands in
  let n := fs_neg family_strands in
  start_pos ← py_max (ssc_start p) (ssc_start n);
  end_pos ← py_min (ssc_end p) (ssc_end n);
  pos_cons ← trim_cons start_pos end_pos p;
  neg_cons ← trim_cons start_pos end_pos n;
  let ref_name := ssc_ref_name p in
  st ← for_each (merge_position (refseq_contig refseq ref_name) start_pos end_pos)
                (merge_positions start_pos end_pos pos_cons neg_cons)
                (merge_state_init bp);
  Ok ({| dsc_ref_name := ref_name; dsc_start := start_pos; dsc_end := end_pos;
         dsc_cons := ms_cons_list st; dsc_nbases := ms_nbases st;
         dsc_adducts := ms_adducts st; dsc_variants := ms_variants st;
         dsc_total_variants_and_adducts := ms_tva st;
         dsc_total_variants := ms_tv st |}, ms_bp st).

(** ** StrandMerger: [merge_read_pair] and [merge_fwd_rev_per_strand] *)

(** Messages sent to [logger.info] when a family-strand is dropped. *)
Inductive LogEntry :=
  | Log_no_fwd_rev
  | Log_different_references (family_id : string) (strand : Strand)
  | Log_not_inwards (family_id : string) (strand : Strand)
  | Log_dump (strand_reads : strand_reads_t).

(** The default factories of [read_info], [ssc_info]. *)
Definition read_info_default : FamilyReads :=
  {| fr_pos := [(fwd, None); (rev, None)];
     fr_neg := [(fwd, None); (rev, None)] |}.

Definition ssc_default : Ssc :=
  {| ssc_ref_name := None; ssc_start := None; ssc_end := None;
     ssc_cons := None; ssc_variants := ∅ |}.

Definition ssc_info_default : FamilyStrands :=
  {| fs_pos := ssc_default; fs_neg := ssc_default |}.

Definition fr_get (strand : Strand) (f : FamilyReads) : strand_reads_t :=
  match strand with pos => fr_pos f | neg => fr_neg f end.

Definition fr_set (strand : Strand) (sr : strand_reads_t) (f : FamilyReads)
  : FamilyReads :=
  match strand with
  | pos => {| fr_pos := sr; fr_neg := fr_neg f |}
  | neg => {| fr_pos := fr_pos f; fr_neg := sr |}
  end.

Definition fs_get (strand : Strand) (f : FamilyStrands) : Ssc :=
  match strand with pos => fs_pos f | neg => fs_neg f end.

Definition fs_set (strand : Strand) (s : Ssc) (f : FamilyStrands)
  : FamilyStrands :=
  match strand with
  | pos => {| fs_pos := s; fs_neg := fs_neg f |}
  | neg => {| fs_pos := fs_pos f; fs_neg := s |}
  end.

(** [self.ssc_info] together with the log. *)
Record SscState := {
  ssc_info : gmap string FamilyStrands;
  log : list LogEntry
}.

(** [strand_reads[orient][field]] *)
Definition read_field {A : Type} (field : ReadRecord → A)
    (orient : Orient) (strand_reads : strand_reads_t) : result A :=
  d ← item KeyError_strand_reads (Dict.get orient strand_reads);
  r ← item KeyError_read_field d;
  Ok (field r).

(** [strand_info[field]] *)
Definition info_field {A : Type} (field : ReadRecord → A)
    (strand_info : read_dict) : result A :=
  r ← item KeyError_read_field strand_info;
  Ok (field r).

(** The body of [for refpos, variant_base in strand_info["variants"].items()]:
    one assignment to [ssc_info[family_id][strand]["variants"][refpos]]. *)
Definition add_variant (contig : gmap Z ascii) (fwd_rev : Orient)
    (strand_info : read_dict) (x : Z * ascii)
    (variants : gmap Z SscVariant) : result (gmap Z SscVariant) :=
  let '(refpos, variant_base) := x in
  readpos ←
    (if decide (fwd_rev = fwd)
     then s ← info_field r_start strand_info; Ok ((refpos - s) + 1)
     else e ← info_field r_end strand_info; Ok ((e - refpos) + 1));
  ref ← item KeyError_refseq (contig !! refpos);
  Ok (<[refpos := {| sv_readpos := readpos; sv_var := variant_base;
                     sv_ref := ref |}]> variants).

(** The body of [for fwd_rev, strand_info in strand_reads.items()]. *)
Definition add_read (contig : gmap Z ascii) (x : Orient * read_dict)
    (st : list (Orient * gset Z) * gmap Z SscVariant)
  : result (list (Orient * gset Z) * gmap Z SscVariant) :=
  let '(fwd_rev, strand_info) := x in
  let '(covered_bases, variants) := st in
  s ← info_field r_start strand_info;
  e ← info_field r_end strand_info;
  let covered_bases' :=
    Dict.set fwd_rev (list_to_set (range s (e + 1)) : gset Z) covered_bases in
  vs ← info_field r_variants strand_info;
  variants' ← for_each (add_variant contig fwd_rev strand_info)
                       (map_to_list vs) variants;
  Ok (covered_bases', variants').

(** One base of the strand consensus. *)
Definition cons_base (contig : gmap Z ascii) (covered_bases : gset Z)
    (variants : gmap Z SscVariant) (p : Z) : ascii :=
  if bool_decide (p ∈ covered_bases) then
    match variants !! p with
    | Some v => sv_var v
    | None => default "N" (contig !! p)
    end
  else "N".

Definition drop_strand (msg : LogEntry) (strand_reads : strand_reads_t)
    (st : SscState) : SscState :=
  {| ssc_info := ssc_info st;
     log := log st ++ [msg; Log_dump strand_reads] |}.

Definition merge_read_pair (refseq : Refseq) (family_id : string)
    (strand : Strand) (strand_reads : strand_reads_t) (st : SscState)
  : result SscState :=
  if bool_decide (fwd ∉ Dict.keys strand_reads ∨ rev ∉ Dict.keys strand_reads)
  then Ok (drop_strand Log_no_fwd_rev strand_reads st)
  else
    ref_name ← read_field r_ref_name fwd strand_reads;
    rev_read ← item KeyError_strand_reads (Dict.get rev strand_reads);
    if bool_decide (Some ref_name ≠ (r_ref_name <$> rev_read))
    then Ok (drop_strand (Log_different_references family_id strand)
                         strand_reads st)
    else
      fwd_start ← read_field r_start fwd strand_reads;
      rev_end ← read_field r_end rev strand_reads;
      if bool_decide (fwd_start >= rev_end)
      then Ok (drop_strand (Log_not_inwards family_id strand) strand_reads st)
      else
        let family := default ssc_info_default (ssc_info st !! family_id) in
        let contig := refseq_contig refseq (Some ref_name) in
        '(covered, variants) ←
          for_each (add_read contig) strand_reads
                   ([], ssc_variants (fs_get strand family));
        cov_fwd ← item KeyError_covered (Dict.get fwd covered);
        cov_rev ← item KeyError_covered (Dict.get rev covered);
        let covered_bases := cov_fwd ∪ cov_rev in
        let cons :=
          cons_base contig covered_bases variants
            <$> range fwd_start (rev_end + 1) in
        let ssc := {| ssc_ref_name := Some ref_name;
                      ssc_start := Some fwd_start;
                      ssc_end := Some rev_end;
                      ssc_cons := Some cons;
                      ssc_variants := variants |} in
        Ok {| ssc_info := <[family_id := fs_set strand ssc family]> (ssc_info st);
              log := log st |}.

Definition merge_fwd_rev_per_strand (refseq : Refseq)
    (read_info : gmap string FamilyReads) : result SscState :=
  for_each
    (λ '(family_id, family_reads) st,
       st1 ← merge_read_pair refseq family_id pos (fr_pos family_reads) st;
       merge_read_pair refseq family_id neg (fr_neg family_reads) st1)
    (map_to_list read_info)
    {| ssc_info := ∅; log := [] |}.

(** ** [merge_pos_neg_strands] and the constructor of [ParseSSC] *)

Definition merge_pos_neg_strands (refseq : Refseq) (bp : BasePositions)
    (ssc : gmap string FamilyStrands)
  : result (gmap string Dsc * BasePositions) :=
  for_each
    (λ '(family_id, family_strands) '(dsc_info, bp),
       '(dsc, bp') ← merge_strands refseq bp family_strands;
       Ok (<[family_id := dsc]> dsc_info, bp'))
    (map_to_list ssc)
    (∅, bp).

(** What [parse_read] returns for one record of a BAM file. *)
Abbreviation ParsedRead := (string * Orient * ReadRecord)%type.

(** [parse_bam]: every read is stored at
    [read_info[family_id][strand][orientation]]. *)
Definition parse_bam (strand : Strand) (reads : list ParsedRead)
    (read_info : gmap string FamilyReads) : gmap string FamilyReads :=
  foldl
    (λ ri '(family_id, orientation, read_stats),
       let family := default read_info_default (ri !! family_id) in
       <[family_id :=
           fr_set strand
             (Dict.set orientation (Some read_stats) (fr_get strand family))
             family]> ri)
    read_info reads.

(** The run of [ParseSSC.__init__] up to the completed [dsc_info].  The
    reference cache and the read dictionaries are what [parse_read] produced
    from the two BAM files. *)
Record ParseSSC := {
  ps_ssc_info : gmap string FamilyStrands;
  ps_log : list LogEntry;
  ps_dsc_info : gmap string Dsc;
  ps_base_positions : BasePositions
}.

Definition parse_ssc (refseq : Refseq) (pos_reads neg_reads : list ParsedRead)
  : result ParseSSC :=
  let read_info := parse_bam neg neg_reads (parse_bam pos pos_reads ∅) in
  st ← merge_fwd_rev_per_strand refseq read_info;
  '(dsc_info, bp) ←
    merge_pos_neg_strands refseq base_positions_init (ssc_info st);
  Ok {| ps_ssc_info := ssc_info st; ps_log := log st;
        ps_dsc_info := dsc_info; ps_base_positions := bp |}.

(** ** ThresholdEmitter: the filter of [write_output] *)

Inductive FilterOn := total_variants | total_variants_and_adducts.

(** [dsc[self.filter_on]] *)
Definition dsc_metric (filter_on : FilterOn) (dsc : Dsc) : Z :=
  match filter_on with
  | total_variants => dsc_total_variants dsc
  | total_variants_and_adducts => dsc_total_variants_and_adducts dsc
  end.

(** [max_vars is None or dsc[self.filter_on] <= max_vars] *)
Definition within_filter (filter_on : FilterOn) (max_vars : option Z)
    (dsc : Dsc) : bool :=
  match max_vars with
  | None => true
  | Some m => bool_decide (dsc_metric filter_on dsc ≤ m)
  end.

Definition keep_families (filter_on : FilterOn) (dsc_info : gmap string Dsc)
    (max_vars : option Z) : gset string :=
  list_to_set
    (fst <$> filter (λ x, within_filter filter_on max_vars x.2)
                    (map_to_list dsc_info)).

(** The thresholds for which the constructor writes a folder
    [max_variants_k]. *)
Definition thresholds (filter_on : FilterOn) (filter_max : Z)
    (dsc_info : gmap string Dsc) : list Z :=
  filter (λ max_vars, ¬ max_vars > filter_max)
    (elements (list_to_set (dsc_metric filter_on ∘ snd <$> map_to_list dsc_info)
                 : gset Z)).

(** ** SummaryFormatter: the counting loop of [format_summary] *)

Record Summary := {
  total_counts : gmap string Z;
  chr_counts : gmap (option string) (gmap string Z);
  variant_base_changes : gmap ascii (gmap ascii Z);
  adduct_base_changes : gmap ascii (gmap ascii Z)
}.

Definition summary_init : Summary :=
  {| total_counts := ∅; chr_counts := ∅;
     variant_base_changes := ∅; adduct_base_changes := ∅ |}.

(** The body of [for variant_info in dsc['variants'].values()]. *)
Definition count_variant (ref_name : option string) (s : Summary)
    (variant_info : Variant) : Summary :=
  {| total_counts := add_to "variants"%string 1 (total_counts s);
     chr_counts := add_to2 ref_name "variants"%string 1 (chr_counts s);
     variant_base_changes :=
       add_to2 (v_var variant_info) (v_ref variant_info) 1
               (variant_base_changes s);
     adduct_base_changes := adduct_base_changes s |}.

(** The body of [for adduct_info in dsc['adducts'].values()]. *)
Definition count_adduct (ref_name : option string) (s : Summary)
    (adduct_info : Adduct) : Summary :=
  {| total_counts := add_to "adducts"%string 1 (total_counts s);
     chr_counts := add_to2 ref_name "adducts"%string 1 (chr_counts s);
     variant_base_changes := variant_base_changes s;
     adduct_base_changes :=
       add_to2 (a_var adduct_info) (a_ref adduct_info) 1
               (adduct_base_changes s) |}.

(** The body of [for family_id, dsc in self.dsc_info.items()]. *)
Definition count_family (keep : gset string) (s : Summary)
    (x : string * Dsc) : Summary :=
  let '(family_id, dsc) := x in
  if bool_decide (family_id ∉ keep) then s
  else
    let c := dsc_ref_name dsc in
    let n_adducts := Z.of_nat (size (dsc_adducts dsc)) in
    let s1 :=
      {| total_counts :=
           add_to "adducts"%string n_adducts
             (add_to "bases"%string (dsc_nbases dsc)
                (add_to "ssc"%string 1 (total_counts s)));
         chr_counts :=
           add_to2 c "adducts"%string n_adducts
             (add_to2 c "bases"%string (dsc_nbases dsc)
                (add_to2 c "families"%string 1 (chr_counts s)));
         variant_base_changes := variant_base_changes s;
         adduct_base_changes := adduct_base_changes s |} in
    let s2 := foldl (count_variant c) s1 (snd <$> map_to_list (dsc_variants dsc)) in
    foldl (count_adduct c) s2 (snd <$> map_to_list (dsc_adducts dsc)).

(** The counters of [format_summary] before they are turned into data
    frames. *)
Definition format_summary (dsc_info : gmap string Dsc) (keep : gset string)
  : Summary :=
  foldl (count_family keep) summary_init (map_to_list dsc_info).

(** ** ReadParser: [parse_variants], [parse_read] and the loop of [parse_bam]

    The aligned record of the BAM library is a record of the attributes and
    method results that the program reads.  Indexing a string out of range
    raises [IndexError], which is [None] in the functions of this part. *)

Record AlignedRead := {
  query_name : string;
  is_reverse : bool;
  reference_name : string;
  reference_start : Z;
  reference_end : Z;
  query_sequence : str;
  get_reference_sequence : str;
  get_aligned_pairs : list (option Z * option Z)
}.

(** [l[i]]: a negative index counts from the end. *)
Definition py_index {A : Type} (l : list A) (i : Z) : option A :=
  let n := Z.of_nat (length l) in
  if bool_decide (0 ≤ i < n) then l !! Z.to_nat i
  else if bool_decide (- n ≤ i < 0) then l !! Z.to_nat (i + n)
  else None.

(** The loop [for x in l] of a function that may raise [IndexError]. *)
Fixpoint for_each_opt {A S : Type} (body : A → S → option S) (l : list A)
    (st : S) : option S :=
  match l with
  | [] => Some st
  | x :: l' => st' ← body x st; for_each_opt body l' st'
  end.

(** [self.refseq[name][rpos] = rbase] *)
Definition cache_base (name : string) (rpos : Z) (rbase : ascii)
    (refseq : Refseq) : Refseq :=
  <[name := <[rpos := rbase]> (default ∅ (refseq !! name))]> refseq.

(** The body of [for qpos, rpos in read.get_aligned_pairs()]. *)
Definition parse_pair (read : AlignedRead) (pair : option Z * option Z)
    (st : Refseq * gmap Z ascii) : option (Refseq * gmap Z ascii) :=
  let '(refseq, variants) := st in
  match pair with
  | (Some qpos, Some rpos) =>
      qbase ← upper_char <$> py_index (query_sequence read) qpos;
      rbase ← upper_char <$>
        py_index (get_reference_sequence read) (rpos - reference_start read);
      let refseq' := cache_base (reference_name read) rpos rbase refseq in
      if bool_decide (rbase ∉ allowed_nucs ∨ qbase ∉ allowed_nucs)
      then Some (refseq', variants)
      else if bool_decide (qbase = rbase) then Some (refseq', variants)
      else Some (refseq', <[rpos := qbase]> variants)
  | _ => Some (refseq, variants)
  end.

Definition parse_variants (read : AlignedRead) (refseq : Refseq)
  : option (Refseq * gmap Z ascii) :=
  for_each_opt (parse_pair read) (get_aligned_pairs read) (refseq, ∅).

Definition parse_read (read : AlignedRead) (refseq : Refseq)
  : option (Refseq * ParsedRead) :=
  '(refseq', variants) ← parse_variants read refseq;
  Some (refseq',
        (query_name read,
         if is_reverse read then rev else fwd,
         {| r_ref_name := reference_name read;
            r_start := reference_start read;
            r_end := reference_end read;
            r_variants := variants |})).

(** [self.read_info[family_id][strand][orientation] = read_stats] *)
Definition store_read (strand : Strand) (read_info : gmap string FamilyReads)
    (x : ParsedRead) : gmap string FamilyReads :=
  let '(family_id, orientation, read_stats) := x in
  let family := default read_info_default (read_info !! family_id) in
  <[family_id :=
      fr_set strand
        (Dict.set orientation (Some read_stats) (fr_get strand family))
        family]> read_info.

(** [parse_bam] on the records of one BAM file. *)
Definition parse_bam_file (strand : Strand) (bam : list AlignedRead)
    (st : Refseq * gmap string FamilyReads)
  : option (Refseq * gmap string FamilyReads) :=
  for_each_opt
    (λ read '(refseq, read_info),
       '(refseq', parsed) ← parse_read read refseq;
       Some (refseq', store_read strand read_info parsed))
    bam st.

(** The two calls of [parse_bam] in the constructor: the reference cache and
    [read_info] after both files were read. *)
Definition load_bams (pos_bam neg_bam : list AlignedRead)
  : option (Refseq * gmap string FamilyReads) :=
  st ← parse_bam_file pos pos_bam (∅, ∅);
  parse_bam_file neg neg_bam st.

(** ** The adduct list of [write_adducts_gtf] *)

Record GtfRow := {
  seqname : option string;
  gtf_start : Z;
  gtf_end : Z;
  gtf_strand : string;
  attribute : string
}.

Definition double_quote : string := String "034" EmptyString.

Definition char_str (c : ascii) : string := String c EmptyString.

(** ['adduct "%s"; read_as "%s";' % (ref, var)] *)
Definition adduct_attribute (ref var : ascii) : string :=
  ("adduct " +:+ double_quote +:+ char_str ref +:+ double_quote
   +:+ "; read_as " +:+ double_quote +:+ char_str var +:+ double_quote
   +:+ ";")%string.

Definition adduct_row (dsc : Dsc) (x : Z * Adduct) : GtfRow :=
  let '(adduct_pos, adduct_info) := x in
  {| seqname := dsc_ref_name dsc;
     gtf_start := adduct_pos + 1;
     gtf_end := adduct_pos + 1;
     gtf_strand :=
       if decide (a_strand adduct_info = pos) then "+"%string else "-"%string;
     attribute :=
       adduct_attribute (a_ref adduct_info) (a_var adduct_info) |}.

(** The list comprehension that collects one row per adduct of every kept
    family. *)
Definition adduct_rows (dsc_info : gmap string Dsc) (keep : gset string)
  : list GtfRow :=
  x ← filter (λ x, x.1 ∈ keep) (map_to_list dsc_info);
  adduct_row x.2 <$> map_to_list (dsc_adducts x.2).

(** [write_adducts_gtf] up to the data frame: [None] when there is no adduct
    and the method returns without writing a file. *)
Definition gtf_adducts (dsc_info : gmap string Dsc) (keep : gset string)
  : option (list GtfRow) :=
  let adducts := adduct_rows dsc_info keep in
  if bool_decide (length adducts = 0%nat) then None else Some adducts.

(** ** The dictionary written by [write_total_json] *)

Definition total_json (dsc_info : gmap string Dsc) (keep : gset string)
  : gmap string Dsc :=
  list_to_map (filter (λ x, x.1 ∈ keep) (map_to_list dsc_info)).

(** ** [bin/make_plots.py]: the labels of [collapse_complementary_changes] *)

(** The dictionary [complementary_changes]. *)
Definition complementary_changes : list (string * string) :=
  [ ("A -> T", "A:T -> T:A"); ("T -> A", "A:T -> T:A");
    ("A -> C", "A:T -> C:G"); ("T -> G", "A:T -> C:G");
    ("A -> G", "A:T -> G:C"); ("T -> C", "A:T -> G:C");
    ("C -> A", "C:G -> A:T"); ("G -> T", "C:G -> A:T");
    ("C -> T", "C:G -> T:A"); ("G -> A", "C:G -> T:A");
    ("C -> G", "C:G -> G:C"); ("G -> C", "C:G -> G:C") ]%string.

(** The index label that [plot_heatmap] gives a row of the base-change
    table: [f"{r['base']} -> {r['variable']}"]. *)
Definition base_change (base variable : ascii) : string :=
  (char_str base +:+ " -> " +:+ char_str variable)%string.

(** [list(map(complementary_changes.get, df.index.values))] *)
Definition base_pair_change (index : list string) : list (option string) :=
  (λ k, Dict.get k complementary_changes) <$> index.

(** * Vocabulary of the statements *)

(** The total map of the spec: A<->T, C<->G. *)
Definition complement_base (b : ascii) : ascii :=
  if decide (b = "A") then "T"
  else if decide (b = "T") then "A"
  else if decide (b = "C") then "G"
  else if decide (b = "G") then "C"
  else b.

(** The classification table of the spec (cases 3 to 7), for bases [P], [N_]
    and [R] that are all nucleotides: the variant and the adduct recorded. *)
Definition table_variant (P N_ R : ascii) : option Variant :=
  if decide (P ≠ R ∧ N_ ≠ R) then Some {| v_var := P; v_ref := R |} else None.

Definition table_adduct (P N_ R : ascii) : option Adduct :=
  if decide (P ≠ R ∧ N_ ≠ R) then
    if decide (P = N_) then None
    else Some {| a_strand := neg; a_var := complement_base N_;
                 a_ref := complement_base R |}
  else if decide (P ≠ R) then
    Some {| a_strand := pos; a_var := P; a_ref := R |}
  else if decide (N_ ≠ R) then
    Some {| a_strand := neg; a_var := complement_base N_;
            a_ref := complement_base R |}
  else None.

(** The bases compared at a visited position: defined when both strand bases
    and the cached reference base are nucleotides (cases 3 to 7). *)
Definition called (contig : gmap Z ascii) (x : Z * ascii * ascii)
  : option (ascii * ascii * ascii) :=
  if decide (x.1.2 ∈ allowed_nucs ∧ x.2 ∈ allowed_nucs) then
    R ← contig !! x.1.1;
    if decide (R ∈ allowed_nucs) then Some (x.1.2, x.2, R) else None
  else None.

Definition variant_at (contig : gmap Z ascii) (x : Z * ascii * ascii)
  : option Variant :=
  c ← called contig x; table_variant c.1.1 c.1.2 c.2.

Definition adduct_at (contig : gmap Z ascii) (x : Z * ascii * ascii)
  : option Adduct :=
  c ← called contig x; table_adduct c.1.1 c.1.2 c.2.

Definition insert_opt {V : Type} (k : Z) (o : option V) (m : gmap Z V)
  : gmap Z V :=
  match o with
  | Some v => <[k := v]> m
  | None => m
  end.

(** Whether something was recorded, as a boolean. *)
Definition has {V : Type} (o : option V) : bool :=
  match o with
  | Some _ => true
  | None => false
  end.

Abbreviation Visit := (Z * ascii * ascii)%type.

Definition refpos_of (x : Visit) : Z := x.1.1.

(** The dictionary obtained by recording [f x] at the position of every
    visited [x], in order. *)
Definition record_all {V : Type} (f : Visit → option V) (l : list Visit)
    (m : gmap Z V) : gmap Z V :=
  foldl (λ m x, insert_opt (refpos_of x) (f x) m) m l.

(** The number of visited positions at which [f] holds. *)
Definition count_visits (f : Visit → bool) (l : list Visit) : Z :=
  Z.of_nat (length (filter (λ x, f x = true) l)).

(** A visited position where exactly one strand mismatches the reference
    (cases 6 and 7 of the spec's table). *)
Definition strand_only (contig : gmap Z ascii) (x : Visit) : bool :=
  match called contig x with
  | Some (P, N_, R) => bool_decide ((P ≠ R ∧ N_ = R) ∨ (P = R ∧ N_ ≠ R))
  | None => false
  end.

(** A visited position where both strands mismatch the reference with
    different bases (case 5 of the spec's table). *)
Definition dual_mismatch (contig : gmap Z ascii) (x : Visit) : bool :=
  match called contig x with
  | Some (P, N_, R) => bool_decide (P ≠ R ∧ N_ ≠ R ∧ P ≠ N_)
  | None => false
  end.

(** The adduct of a strand-only mismatch. *)
Definition strand_only_adduct (contig : gmap Z ascii) (x : Visit)
  : option Adduct :=
  if strand_only contig x then adduct_at contig x else None.

(** The overall and the per-contig 'adducts' counters of a summary. *)
Definition adducts_total (s : Summary) : Z :=
  count_of "adducts"%string (total_counts s).

Definition adducts_chr (c : option string) (s : Summary) : Z :=
  count_of "adducts"%string (default ∅ (chr_counts s !! c)).

(** The sum, over the kept families of [dsc_info] that satisfy [P], of the
    number of entries of the family's adducts map. *)
Definition kept_adducts (P : Dsc → Prop) `{∀ d, Decision (P d)}
    (keep : gset string) (families : list (string * Dsc)) : Z :=
  Z.of_nat
    (sum_list_with (λ x, size (dsc_adducts x.2))
       (filter (λ x, x.1 ∈ keep ∧ P x.2) families)).

(** The entry written for a variant base [b] of a read at [refpos]; it needs
    the cached reference base. *)
Definition fwd_entry (contig : gmap Z ascii) (f : ReadRecord)
    (refpos : Z) (b : ascii) : option SscVariant :=
  ref ← contig !! refpos;
  Some {| sv_readpos := (refpos - r_start f) + 1; sv_var := b; sv_ref := ref |}.

Definition rev_entry (contig : gmap Z ascii) (r : ReadRecord)
    (refpos : Z) (b : ascii) : option SscVariant :=
  ref ← contig !! refpos;
  Some {| sv_readpos := (r_end r - refpos) + 1; sv_var := b; sv_ref := ref |}.

(** The variants map as the spec words it: the union of the variants of the
    forward and of the reverse read, the reverse read's entry winning at a
    position present in both. *)
Definition strand_variants_union (contig : gmap Z ascii) (f r : ReadRecord)
  : gmap Z SscVariant :=
  map_imap (rev_entry contig r) (r_variants r)
    ∪ map_imap (fwd_entry contig f) (r_variants f).

Definition read_entry (contig : gmap Z ascii) (o : Orient) (rd : ReadRecord)
  : Z → ascii → option SscVariant :=
  if decide (o = fwd) then fwd_entry contig rd else rev_entry contig rd.

(** What [merge_fwd_rev_per_strand] does with one family: the two calls of
    [merge_read_pair], starting from a state without that family. *)
Definition family_outcome (refseq : Refseq) (family_id : string)
    (family_reads : FamilyReads) (o : option FamilyStrands) : Prop :=
  ∃ st0 st1 st2,
    ssc_info st0 !! family_id = None ∧
    merge_read_pair refseq family_id pos (fr_pos family_reads) st0 = Ok st1 ∧
    merge_read_pair refseq family_id neg (fr_neg family_reads) st1 = Ok st2 ∧
    ssc_info st2 !! family_id = o.

(** The dictionaries of [read_info] always hold the keys [fwd] and [rev], in
    that order. *)
Definition two_keys (strand_reads : strand_reads_t) : Prop :=
  ∃ a b, strand_reads = [(fwd, a); (rev, b)].

Definition well_shaped (family_reads : FamilyReads) : Prop :=
  two_keys (fr_pos family_reads) ∧ two_keys (fr_neg family_reads).

(** A visited position where both trimmed strand bases are nucleotides. *)
Definition both_nucs (x : Visit) : bool :=
  bool_decide (x.1.2 ∈ allowed_nucs ∧ x.2 ∈ allowed_nucs).

(** The character that a visited position adds to the duplex consensus. *)
Definition cons_char (x : Visit) : ascii :=
  if both_nucs x then iupac x.1.2 x.2 else "N".

(** The span and the visited positions of [merge_strands], when no field of
    the two strands is [None]. *)
Definition visits (family_strands : FamilyStrands)
  : result (Z * Z * list Visit) :=
  start_pos ← py_max (ssc_start (fs_pos family_strands))
                     (ssc_start (fs_neg family_strands));
  end_pos ← py_min (ssc_end (fs_pos family_strands))
                   (ssc_end (fs_neg family_strands));
  pos_cons ← trim_cons start_pos end_pos (fs_pos family_strands);
  neg_cons ← trim_cons start_pos end_pos (fs_neg family_strands);
  Ok (start_pos, end_pos, merge_positions start_pos end_pos pos_cons neg_cons).

(** The read-position counters are consistent: every counted read position
    is at least 1, and at each one the variants and the adducts counted do
    not exceed the bases counted. *)
Definition bp_ok (bp : BasePositions) : Prop :=
  ∀ k,
    (is_Some (bp_nreads bp !! k) → 1 ≤ k) ∧
    (is_Some (bp_variants bp !! k) → is_Some (bp_nreads bp !! k)) ∧
    (is_Some (bp_adducts bp !! k) → is_Some (bp_nreads bp !! k)) ∧
    0 ≤ count_of k (bp_variants bp) ≤ count_of k (bp_nreads bp) ∧
    0 ≤ count_of k (bp_adducts bp) ≤ count_of k (bp_nreads bp).

(** Whether a position is covered by the forward or by the reverse read. *)
Definition covered (f r : ReadRecord) (p : Z) : bool :=
  bool_decide (r_start f ≤ p ≤ r_end f ∨ r_start r ≤ p ≤ r_end r).

(** The fields of the strand consensus built from a forward read [f] and a
    reverse read [r]. *)
Definition strand_built (contig : gmap Z ascii) (f r : ReadRecord)
    (ssc : Ssc) : Prop :=
  ssc_ref_name ssc = Some (r_ref_name f) ∧
  ssc_start ssc = Some (r_start f) ∧
  ssc_end ssc = Some (r_end r) ∧
  ∃ cons,
    ssc_cons ssc = Some cons ∧
    Z.of_nat (length cons) = r_end r - r_start f + 1 ∧
    ∀ p, r_start f ≤ p ≤ r_end r →
      cons !! Z.to_nat (p - r_start f) =
        Some (if covered f r p
              then match ssc_variants ssc !! p with
                   | Some v => sv_var v
                   | None => default "N" (contig !! p)
                   end
              else "N").

(** The upper-cased bases that [parse_variants] compares at an aligned pair
    of positions. *)
Definition query_base (read : AlignedRead) (qpos : Z) : option ascii :=
  upper_char <$> py_index (query_sequence read) qpos.

Definition ref_base (read : AlignedRead) (rpos : Z) : option ascii :=
  upper_char <$>
    py_index (get_reference_sequence read) (rpos - reference_start read).

(** An aligned pair of [l] at reference position [rpos] where the read and
    the reference hold two different nucleotides. *)
Definition mismatch (read : AlignedRead) (l : list (option Z * option Z))
    (rpos : Z) (qbase rbase : ascii) : Prop :=
  ∃ qpos,
    (Some qpos, Some rpos) ∈ l ∧
    query_base read qpos = Some qbase ∧ ref_base read rpos = Some rbase ∧
    qbase ∈ allowed_nucs ∧ rbase ∈ allowed_nucs ∧ qbase ≠ rbase.

(** The reference cache holds a base for every variant position of a read,
    under the read's contig. *)
Definition cached_variants (refseq : Refseq) (rd : ReadRecord) : Prop :=
  ∀ p, is_Some (r_variants rd !! p) →
       is_Some (refseq_contig refseq (Some (r_ref_name rd)) !! p).

Definition reads_cached (refseq : Refseq)
    (read_info : gmap string FamilyReads) : Prop :=
  ∀ family_id family_reads strand o rd,
    read_info !! family_id = Some family_reads →
    (o, Some rd) ∈ fr_get strand family_reads →
    cached_variants refseq rd.

(** Some strand of some family of [read_info] has no forward read. *)
Definition lacks_forward (read_info : gmap string FamilyReads) : Prop :=
  ∃ family_id family_reads strand,
    read_info !! family_id = Some family_reads ∧
    Dict.get fwd (fr_get strand family_reads) = Some None.

(** What [parse_read] returns for a record, apart from the variants. *)
Definition parsed_from (read : AlignedRead) (x : ParsedRead) : Prop :=
  x.1 = (query_name read, if is_reverse read then rev else fwd) ∧
  r_ref_name x.2 = reference_name read ∧
  r_start x.2 = reference_start read ∧
  r_end x.2 = reference_end read.

(** A counter of the summary, overall and for one contig. *)
Definition total_of (k : string) (s : Summary) : Z :=
  count_of k (total_counts s).

Definition chr_of (c : option string) (k : string) (s : Summary) : Z :=
  count_of k (default ∅ (chr_counts s !! c)).

(** The kept families of [families] that satisfy [P], and the sum of a
    quantity over them. *)
Definition kept (P : Dsc → Prop) `{∀ d, Decision (P d)}
    (keep : gset string) (families : list (string * Dsc))
  : list (string * Dsc) :=
  filter (λ x, x.1 ∈ keep ∧ P x.2) families.

Definition kept_sum (g : Dsc → Z) (P : Dsc → Prop) `{∀ d, Decision (P d)}
    (keep : gset string) (families : list (string * Dsc)) : Z :=
  foldr Z.add 0 ((λ x, g x.2) <$> kept P keep families).

(** What one kept family adds to the counter [k] of [total_counts] and of
    its contig in [chr_counts]. *)
Definition total_weight (k : string) (dsc : Dsc) : Z :=
  (if decide (k = "ssc"%string) then 1 else 0)
  + (if decide (k = "bases"%string) then dsc_nbases dsc else 0)
  + (if decide (k = "adducts"%string)
     then 2 * Z.of_nat (size (dsc_adducts dsc)) else 0)
  + (if decide (k = "variants"%string)
     then Z.of_nat (size (dsc_variants dsc)) else 0).

Definition chr_weight (k : string) (dsc : Dsc) : Z :=
  (if decide (k = "families"%string) then 1 else 0)
  + (if decide (k = "bases"%string) then dsc_nbases dsc else 0)
  + (if decide (k = "adducts"%string)
     then 2 * Z.of_nat (size (dsc_adducts dsc)) else 0)
  + (if decide (k = "variants"%string)
     then Z.of_nat (size (dsc_variants dsc)) else 0).

(** A cell of the two base-change tables, and the number of entries of a
    family that are counted in it. *)
Definition variant_cell (var ref : ascii) (s : Summary) : Z :=
  count_of ref (default ∅ (variant_base_changes s !! var)).

Definition adduct_cell (var ref : ascii) (s : Summary) : Z :=
  count_of ref (default ∅ (adduct_base_changes s !! var)).

Definition variants_like (var ref : ascii) (dsc : Dsc) : Z :=
  Z.of_nat (length (filter (λ v, v_var v = var ∧ v_ref v = ref)
                           (snd <$> map_to_list (dsc_variants dsc)))).

Definition adducts_like (var ref : ascii) (dsc : Dsc) : Z :=
  Z.of_nat (length (filter (λ a, a_var a = var ∧ a_ref a = ref)
                           (snd <$> map_to_list (dsc_adducts dsc)))).

(** Why [merge_read_pair] drops a strand that has the forward read [f]:
    the reverse read is missing or on another contig, or the forward read
    does not start before the end of the reverse read. *)
Definition drop_reason (family_id : string) (strand : Strand)
    (f : ReadRecord) (b : read_dict) : option LogEntry :=
  match b with
  | None => Some (Log_different_references family_id strand)
  | Some r =>
      if decide (r_ref_name f ≠ r_ref_name r)
      then Some (Log_different_references family_id strand)
      else if decide (r_start f >= r_end r)
      then Some (Log_not_inwards family_id strand)
      else None
  end.

(** The log entries of one strand and of one family. *)
Definition strand_log (family_id : string) (strand : Strand)
    (strand_reads : strand_reads_t) : list LogEntry :=
  match Dict.get fwd strand_reads, Dict.get rev strand_reads with
  | Some (Some f), Some b =>
      match drop_reason family_id strand f b with
      | Some msg => [msg; Log_dump strand_reads]
      | None => []
      end
  | _, _ => []
  end.

Definition family_log (x : string * FamilyReads) : list LogEntry :=
  strand_log x.1 pos (fr_pos x.2) ++ strand_log x.1 neg (fr_neg x.2).

(** The sum of a quantity over the values of a dictionary. *)
Definition map_sum `{Countable K} {A : Type} (g : A → Z) (m : gmap K A) : Z :=
  map_fold (λ _ a acc, g a + acc) 0 m.

(** The total of one counter of [base_positions] over the read positions. *)
Definition counter_total (d : gmap Z Z) : Z := map_sum id d.

(** What [read_info] holds for a family, strand and orientation; a family
    that is absent reads as the dictionaries of the default factory. *)
Definition stored_read (read_info : gmap string FamilyReads)
    (family_id : string) (strand : Strand) (o : Orient)
  : option read_dict :=
  Dict.get o (fr_get strand (default read_info_default (read_info !! family_id))).

(** The reads of a list for one family and orientation, in file order. *)
Definition reads_of (family_id : string) (o : Orient)
    (reads : list ParsedRead) : list ParsedRead :=
  filter (λ x, x.1 = (family_id, o)) reads.

(** The label of the base pair [b : complement b] that becomes
    [v : complement v]. *)
Definition pair_label (b v : ascii) : string :=
  (char_str b +:+ ":" +:+ char_str (complement_base b) +:+ " -> "
   +:+ char_str v +:+ ":" +:+ char_str (complement_base v))%string.

(** A strand with a forward and a reverse read on the contig [c] that point
    inwards, and a family with two such strands on one contig. *)
Definition complete_pair (c : string) (strand_reads : strand_reads_t) : Prop :=
  ∃ f r,
    strand_reads = [(fwd, Some f); (rev, Some r)] ∧
    r_ref_name f = c ∧ r_ref_name r = c ∧ r_start f < r_end r.

Definition complete_family (family_reads : FamilyReads) : Prop :=
  ∃ c, complete_pair c (fr_pos family_reads) ∧
       complete_pair c (fr_neg family_reads).

(** The base of a strand at a reference position: the upper-cased character
    that the strand's consensus string holds for that position, its first
    character standing for the start of the strand. *)
Definition strand_base (ssc : Ssc) (p : Z) : option ascii :=
  cons ← ssc_cons ssc;
  s ← ssc_start ssc;
  if bool_decide (s ≤ p) then upper_char <$> cons !! Z.to_nat (p - s)
  else None.

(** * Example runs *)

Definition chr1 : string := "chr1".

(** The reference "ACGT" at positions 100 to 103 of [chr1]. *)
Definition refseq_acgt : Refseq :=
  {[ chr1 := list_to_map [(100, "A"); (101, "C"); (102, "G"); (103, "T")] ]}.

Definition read_on (s e : Z) (vs : list (Z * ascii)) : ReadRecord :=
  {| r_ref_name := chr1; r_start := s; r_end := e;
     r_variants := list_to_map vs |}.

(** A forward and a reverse read of one family that both span [s, e] and
    carry the variants [vs]. *)
Definition read_pair (family_id : string) (s e : Z) (vs : list (Z * ascii))
  : list ParsedRead :=
  [(family_id, fwd, read_on s e vs); (family_id, rev, read_on s e vs)].

Definition ps_empty : ParseSSC :=
  {| ps_ssc_info := ∅; ps_log := []; ps_dsc_info := ∅;
     ps_base_positions := base_positions_init |}.

Definition dsc_empty : Dsc :=
  {| dsc_ref_name := None; dsc_start := 0; dsc_end := 0; dsc_cons := [];
     dsc_nbases := 0; dsc_adducts := ∅; dsc_variants := ∅;
     dsc_total_variants_and_adducts := 0; dsc_total_variants := 0 |}.

Definition from_result {A : Type} (d : A) (r : result A) : A :=
  match r with
  | Ok a => a
  | Raise _ => d
  end.

Definition F1 : string := "F1".

(** Both strands mismatch with different bases: the positive strand reads
    "ATGT" and the negative strand "AGGT". *)
Definition dual_pos_reads : list ParsedRead := read_pair F1 100 103 [(101, "T")].
Definition dual_neg_reads : list ParsedRead := read_pair F1 100 103 [(101, "G")].

Definition dual_ps : ParseSSC :=
  Eval vm_compute in
    from_result ps_empty (parse_ssc refseq_acgt dual_pos_reads dual_neg_reads).

Definition dual_dsc : Dsc :=
  Eval vm_compute in default dsc_empty (ps_dsc_info dual_ps !! F1).

Definition dual_strands : FamilyStrands :=
  Eval vm_compute in default ssc_info_default (ps_ssc_info dual_ps !! F1).

(** Only the negative strand mismatches: it reads "ACCT". *)
Definition negonly_pos_reads : list ParsedRead := read_pair F1 100 103 [].
Definition negonly_neg_reads : list ParsedRead := read_pair F1 100 103 [(102, "C")].

Definition negonly_ps : ParseSSC :=
  Eval vm_compute in
    from_result ps_empty
      (parse_ssc refseq_acgt negonly_pos_reads negonly_neg_reads).

Definition negonly_dsc : Dsc :=
  Eval vm_compute in default dsc_empty (ps_dsc_info negonly_ps !! F1).

Definition negonly_strands : FamilyStrands :=
  Eval vm_compute in default ssc_info_default (ps_ssc_info negonly_ps !! F1).

Definition ACGT : str := ["A"; "C"; "G"; "T"].
Definition ATGT : str := ["A"; "T"; "G"; "T"].
Definition AGGT : str := ["A"; "G"; "G"; "T"].
Definition ACCT : str := ["A"; "C"; "C"; "T"].

(** Two families with 0 and 3 variants. *)
Definition dsc_with (tv tva : Z) : Dsc :=
  {| dsc_ref_name := Some chr1; dsc_start := 0; dsc_end := 0; dsc_cons := [];
     dsc_nbases := 0; dsc_adducts := ∅; dsc_variants := ∅;
     dsc_total_variants_and_adducts := tva; dsc_total_variants := tv |}.

Definition two_families : gmap string Dsc :=
  {[ "F1"%string := dsc_with 0 0; "F2"%string := dsc_with 3 3 ]}.

(** The final DSC map of the dual-mismatch run, which has one adduct. *)
Definition dual_dsc_info : gmap string Dsc := {[ F1 := dual_dsc ]}.

(** A family whose forward and reverse reads of the positive strand both
    carry a variant at position 101, with different bases, and whose forward
    read alone carries one at 100. *)
Definition overlap_pos_reads : list ParsedRead :=
  [ (F1, fwd, read_on 100 102 [(100, "G"); (101, "T")]);
    (F1, rev, read_on 101 103 [(101, "G")]) ].
Definition overlap_neg_reads : list ParsedRead := read_pair F1 100 103 [].

Definition overlap_st : SscState :=
  Eval vm_compute in
    from_result {| ssc_info := ∅; log := [] |}
      (merge_fwd_rev_per_strand refseq_acgt
         (parse_bam neg overlap_neg_reads (parse_bam pos overlap_pos_reads ∅))).

Definition overlap_family : FamilyStrands :=
  Eval vm_compute in default ssc_info_default (ssc_info overlap_st !! F1).

(** The reference "ACGTACGTACGTA" at positions 100 to 112 of [chr1]. *)
Definition refseq_long : Refseq :=
  {[ chr1 := list_to_map
       [(100, "A"); (101, "C"); (102, "G"); (103, "T"); (104, "A");
        (105, "C"); (106, "G"); (107, "T"); (108, "A"); (109, "C");
        (110, "G"); (111, "T"); (112, "A")] ]}.

(** Both strands read the reference without any mismatch; the positive
    strand spans [100, 109], the negative strand [102, 112]. *)
Definition slip_pos_reads : list ParsedRead :=
  [(F1, fwd, read_on 100 105 []); (F1, rev, read_on 104 109 [])].
Definition slip_neg_reads : list ParsedRead :=
  [(F1, fwd, read_on 102 107 []); (F1, rev, read_on 106 112 [])].

Definition slip_ps : ParseSSC :=
  Eval vm_compute in
    from_result ps_empty (parse_ssc refseq_long slip_pos_reads slip_neg_reads).

Definition slip_dsc : Dsc :=
  Eval vm_compute in default dsc_empty (ps_dsc_info slip_ps !! F1).

Definition slip_strands : FamilyStrands :=
  Eval vm_compute in default ssc_info_default (ps_ssc_info slip_ps !! F1).

(** The strands do not overlap: the positive strand spans [100, 105], the
    negative strand [108, 112]. *)
Definition apart_pos_reads : list ParsedRead :=
  [(F1, fwd, read_on 100 103 []); (F1, rev, read_on 102 105 [])].
Definition apart_neg_reads : list ParsedRead :=
  [(F1, fwd, read_on 108 110 []); (F1, rev, read_on 109 112 [])].

Definition apart_ps : ParseSSC :=
  Eval vm_compute in
    from_result ps_empty
      (parse_ssc refseq_long apart_pos_reads apart_neg_reads).

Definition apart_dsc : Dsc :=
  Eval vm_compute in default dsc_empty (ps_dsc_info apart_ps !! F1).

(** A second family, complete on both strands. *)
Definition F2 : string := "F2".

(** The negative strand of [F1] does not point inwards ([fwd.start = 106]
    is not below [rev.end = 106]); its positive strand and the whole of [F2]
    are well formed. *)
Definition outward_pos_reads : list ParsedRead :=
  read_pair F1 100 103 [] ++ read_pair F2 100 103 [].
Definition outward_neg_reads : list ParsedRead :=
  [(F1, fwd, read_on 106 112 []); (F1, rev, read_on 102 106 [])]
  ++ read_pair F2 100 103 [].

Definition outward_st : SscState :=
  Eval vm_compute in
    from_result {| ssc_info := ∅; log := [] |}
      (merge_fwd_rev_per_strand refseq_long
         (parse_bam neg outward_neg_reads (parse_bam pos outward_pos_reads ∅))).

(** The negative strand of [F1] has a reverse read only. *)
Definition lonely_pos_reads : list ParsedRead := read_pair F1 100 103 [].
Definition lonely_neg_reads : list ParsedRead :=
  [(F1, rev, read_on 100 103 [])].

(** The negative strand of [F1] has a forward read only. *)
Definition norev_neg_reads : list ParsedRead :=
  [(F1, fwd, read_on 100 103 [])].

(** A forward read of [F1] on [chr1] from position 100: it reads "AtGN"
    where the reference has "aCGT", and its third base is an insertion
    opposite to a deleted reference base. *)
Definition one_read : AlignedRead :=
  {| query_name := F1; is_reverse := false; reference_name := chr1;
     reference_start := 100; reference_end := 104;
     query_sequence := ["A"; "t"; "G"; "N"];
     get_reference_sequence := ["a"; "C"; "G"; "T"];
     get_aligned_pairs :=
       [(Some 0, Some 100); (Some 1, Some 101); (Some 2, None);
        (None, Some 102); (Some 3, Some 103)] |}.

Definition one_cache : Refseq :=
  Eval vm_compute in (default (∅, ∅) (parse_variants one_read ∅)).1.

Definition one_variants : gmap Z ascii :=
  Eval vm_compute in (default (∅, ∅) (parse_variants one_read ∅)).2.

(** The reverse read of the same family and span, which reads "ACGT". *)
Definition other_read : AlignedRead :=
  {| query_name := F1; is_reverse := true; reference_name := chr1;
     reference_start := 100; reference_end := 104;
     query_sequence := ["A"; "C"; "G"; "T"];
     get_reference_sequence := ["a"; "C"; "G"; "T"];
     get_aligned_pairs :=
       [(Some 0, Some 100); (Some 1, Some 101); (Some 2, Some 102);
        (Some 3, Some 103)] |}.

(** Two BAM files that hold the same two records. *)
Definition loaded_cache : Refseq :=
  Eval vm_compute in
    (default (∅, ∅)
       (load_bams [one_read; other_read] [one_read; other_read])).1.

Definition loaded_info : gmap string FamilyReads :=
  Eval vm_compute in
    (default (∅, ∅)
       (load_bams [one_read; other_read] [one_read; other_read])).2.

(** Both strands read "G" at position 105, where the reference holds "C";
    the positive strand spans [100, 109], the negative strand [102, 112]. *)
Definition shifted_pos_reads : list ParsedRead :=
  [(F1, fwd, read_on 100 105 [(105, "G")]);
   (F1, rev, read_on 104 109 [(105, "G")])].
Definition shifted_neg_reads : list ParsedRead :=
  [(F1, fwd, read_on 102 107 [(105, "G")]); (F1, rev, read_on 106 112 [])].

Definition shifted_ps : ParseSSC :=
  Eval vm_compute in
    from_result ps_empty
      (parse_ssc refseq_long shifted_pos_reads shifted_neg_reads).

Definition shifted_dsc : Dsc :=
  Eval vm_compute in default dsc_empty (ps_dsc_info shifted_ps !! F1).

Definition shifted_strands : FamilyStrands :=
  Eval vm_compute in default ssc_info_default (ps_ssc_info shifted_ps !! F1).

(** A record with an aligned reference position before the start of the
    read, and with a negative query position. *)
Definition early_read : AlignedRead :=
  {| query_name := F1; is_reverse := false; reference_name := chr1;
     reference_start := 100; reference_end := 104;
     query_sequence := ["A"; "C"; "G"; "T"];
     get_reference_sequence := ["a"; "C"; "G"; "T"];
     get_aligned_pairs := [(Some 0, Some 99); (Some (-1), Some 100)] |}.

Definition early_cache : Refseq :=
  Eval vm_compute in (default (∅, ∅) (parse_variants early_read ∅)).1.

Definition early_variants : gmap Z ascii :=
  Eval vm_compute in (default (∅, ∅) (parse_variants early_read ∅)).2.

(** * Properties *)

(** ** The result monad *)

Lemma bind_Ok {A B : Type} (r : result A) (f : A → result B) (b : B) :
  r ≫= f = Ok b ↔ ∃ a, r = Ok a ∧ f a = Ok b.
Proof.
  destruct r as [a|e]; simpl; split.
  - intros H. by exists a.
  - by intros (a' & [= <-] & H).
  - done.
  - by intros (a' & ? & _).
Qed.

Lemma bind_Raise {A B : Type} (r : result A) (f : A → result B) (e : exn) :
  r ≫= f = Raise e ↔ r = Raise e ∨ ∃ a, r = Ok a ∧ f a = Raise e.
Proof.
  destruct r as [a|e']; simpl; split.
  - intros H. right. by exists a.
  - intros [?|(a' & [= <-] & H)]; done.
  - intros [= ->]. by left.
  - intros [[= ->]|(a' & ? & _)]; done.
Qed.

Lemma item_Ok {A : Type} (e : exn) (o : option A) (a : A) :
  item e o = Ok a ↔ o = Some a.
Proof. destruct o; simpl; split; congruence. Qed.

Lemma item_Raise {A : Type} (e e' : exn) (o : option A) :
  item e o = Raise e' → e' = e ∧ o = None.
Proof. destruct o; simpl; [done|]. by intros [= <-]. Qed.

(** A loop raises only what its body raises. *)
Lemma for_each_Raise {A S : Type} (body : A → S → result S) (e : exn) :
  (∀ x st, body x st ≠ Raise e) →
  ∀ l st, for_each body l st ≠ Raise e.
Proof.
  intros Hbody l. induction l as [|x l IH]; intros st; simpl; [done|].
  intros [H|(st' & _ & H)]%bind_Raise.
  - by eapply Hbody.
  - by eapply IH.
Qed.

(** A property of the state kept by every iteration is kept by the loop. *)
Lemma for_each_invariant {A S : Type} (body : A → S → result S)
    (I : S → Prop) (l : list A) :
  (∀ x st st', x ∈ l → I st → body x st = Ok st' → I st') →
  ∀ st st', I st → for_each body l st = Ok st' → I st'.
Proof.
  induction l as [|x l IH]; intros Hbody st st' HI; simpl.
  - by intros [= <-].
  - intros (st1 & H1 & H2)%bind_Ok.
    eapply IH; [|by eapply (Hbody x); [left|..]|done].
    intros y s s' Hy. apply Hbody. by right.
Qed.

(** ** Nucleotides *)

Lemma allowed_nucs_cases (b : ascii) :
  b ∈ allowed_nucs ↔ b = "A" ∨ b = "T" ∨ b = "C" ∨ b = "G".
Proof.
  unfold allowed_nucs. rewrite !elem_of_cons, elem_of_nil. tauto.
Qed.

Lemma complement_allowed (b : ascii) :
  b ∈ allowed_nucs → complement b = Ok (complement_base b).
Proof.
  intros Hb%allowed_nucs_cases.
  destruct Hb as [-> | [-> | [-> | ->]]]; reflexivity.
Qed.

Lemma complement_Raise (b : ascii) (e : exn) :
  complement b = Raise e ↔ e = KeyError_complement ∧ b ∉ allowed_nucs.
Proof.
  split.
  - intros H. destruct (decide (b ∈ allowed_nucs)) as [Hb|Hb].
    + by rewrite (complement_allowed b Hb) in H.
    + split; [|done]. revert H. unfold complement.
      repeat case_bool_decide; congruence.
  - intros [-> Hb]. rewrite allowed_nucs_cases in Hb. unfold complement.
    repeat case_bool_decide; tauto.
Qed.

Lemma complement_base_allowed (b : ascii) :
  b ∈ allowed_nucs → complement_base b ∈ allowed_nucs.
Proof.
  rewrite !allowed_nucs_cases.
  intros [-> | [-> | [-> | ->]]]; vm_compute; auto.
Qed.

Lemma complement_base_neq (b : ascii) :
  b ∈ allowed_nucs → complement_base b ≠ b.
Proof.
  rewrite !allowed_nucs_cases.
  intros [-> | [-> | [-> | ->]]]; by vm_compute.
Qed.

Lemma complement_base_inj (a b : ascii) :
  a ∈ allowed_nucs → b ∈ allowed_nucs →
  complement_base a = complement_base b → a = b.
Proof.
  rewrite !allowed_nucs_cases.
  intros [-> | [-> | [-> | ->]]] [-> | [-> | [-> | ->]]]; by vm_compute.
Qed.

(** ** DuplexMerger: what one position records *)

Lemma has_true {V : Type} (o : option V) : has o = true ↔ is_Some o.
Proof.
  destruct o; simpl; split; eauto; try done.
Qed.

Lemma merge_position_Ok contig start_pos end_pos x st st' :
  merge_position contig start_pos end_pos x st = Ok st' →
  ms_variants st' = insert_opt x.1.1 (variant_at contig x) (ms_variants st) ∧
  ms_adducts st' = insert_opt x.1.1 (adduct_at contig x) (ms_adducts st) ∧
  ms_tv st' = ms_tv st + Z.b2z (has (variant_at contig x)) ∧
  ms_tva st' =
    ms_tva st + Z.b2z (has (variant_at contig x) || has (adduct_at contig x)) ∧
  length (ms_cons_list st') = S (length (ms_cons_list st)).
Proof.
  destruct x as [[refpos P] N_]. unfold merge_position, variant_at, adduct_at, called.
  simpl. case_bool_decide as Hnuc.
  - intros [= <-]. simpl. rewrite decide_False by tauto. simpl.
    rewrite length_app. simpl. repeat split; lia.
  - assert (P ∈ allowed_nucs ∧ N_ ∈ allowed_nucs) as [HP HN].
    { split; apply dec_stable; tauto. }
    rewrite decide_True by done.
    intros (R & HR%item_Ok & H)%bind_Ok. rewrite HR. simpl.
    case_bool_decide as Hassert; [done|].
    case_bool_decide as HRn.
    { injection H as <-. simpl. rewrite decide_False by done.
      rewrite length_app. simpl. repeat split; lia. }
    assert (R ∈ allowed_nucs) as HRa by (apply dec_stable; tauto).
    rewrite decide_True by done. simpl.
    unfold table_variant, table_adduct.
    rewrite !(complement_allowed N_), !(complement_allowed R) in H by done.
    simpl in H.
    repeat case_bool_decide; repeat case_decide; try tauto;
      injection H as <-; simpl; rewrite length_app; simpl;
      repeat split; lia.
Qed.

(** ** DuplexMerger: what the whole loop records *)

Section record_all.
Context {V : Type} (f : Visit → option V).

Lemma record_all_cons x l (m : gmap Z V) :
  record_all f (x :: l) m = record_all f l (insert_opt (refpos_of x) (f x) m).
Proof. reflexivity. Qed.

Lemma lookup_insert_opt_ne (k p : Z) (o : option V) (m : gmap Z V) :
  k ≠ p → insert_opt k o m !! p = m !! p.
Proof. intros Hne. destruct o; simpl; [by rewrite lookup_insert_ne|done]. Qed.

Lemma lookup_insert_opt_eq (k : Z) (o : option V) (m : gmap Z V) :
  insert_opt k o m !! k = match o with Some v => Some v | None => m !! k end.
Proof. destruct o; simpl; [by rewrite lookup_insert_eq|done]. Qed.

Lemma lookup_record_all_notin l (m : gmap Z V) p :
  p ∉ refpos_of <$> l → record_all f l m !! p = m !! p.
Proof.
  revert m. induction l as [|x l IH]; intros m Hp; [done|].
  rewrite fmap_cons, not_elem_of_cons in Hp. destruct Hp as [Hne Hp].
  rewrite record_all_cons, IH by done. by apply lookup_insert_opt_ne.
Qed.

Lemma lookup_record_all_in l (m : gmap Z V) x :
  NoDup (refpos_of <$> l) → x ∈ l →
  record_all f l m !! refpos_of x =
    match f x with Some v => Some v | None => m !! refpos_of x end.
Proof.
  revert m. induction l as [|y l IH]; intros m Hnd Hx.
  - by apply elem_of_nil in Hx.
  - rewrite fmap_cons in Hnd. apply NoDup_cons in Hnd as [Hy Hnd].
    rewrite record_all_cons. apply elem_of_cons in Hx as [->|Hx].
    + rewrite lookup_record_all_notin by done. apply lookup_insert_opt_eq.
    + rewrite IH by done.
      assert (refpos_of y ≠ refpos_of x) as Hne.
      { intros Heq. apply Hy. rewrite Heq. by apply list_elem_of_fmap_2. }
      destruct (f x); [done|]. by apply lookup_insert_opt_ne.
Qed.

(** Every entry was already there or was recorded at a visited position. *)
Lemma lookup_record_all_Some l (m : gmap Z V) p v :
  NoDup (refpos_of <$> l) →
  record_all f l m !! p = Some v →
  m !! p = Some v ∨ ∃ x, x ∈ l ∧ refpos_of x = p ∧ f x = Some v.
Proof.
  intros Hnd Hp. destruct (decide (p ∈ refpos_of <$> l)) as [Hin|Hnotin].
  - apply list_elem_of_fmap in Hin as (x & -> & Hx).
    rewrite lookup_record_all_in in Hp by done.
    destruct (f x) as [w|] eqn:Hfx; [|by left].
    right. exists x. by simplify_eq.
  - left. by rewrite lookup_record_all_notin in Hp.
Qed.

Lemma size_record_all l (m : gmap Z V) :
  NoDup (refpos_of <$> l) →
  (∀ p, p ∈ refpos_of <$> l → m !! p = None) →
  Z.of_nat (size (record_all f l m)) =
    Z.of_nat (size m) + count_visits (λ x, has (f x)) l.
Proof.
  unfold count_visits. revert m.
  induction l as [|x l IH]; intros m Hnd Hfresh.
  - simpl. lia.
  - rewrite fmap_cons in Hnd. apply NoDup_cons in Hnd as [Hx Hnd].
    rewrite record_all_cons, IH; [|done|].
    + rewrite filter_cons. destruct (f x) as [v|] eqn:Hfx; simpl.
      * rewrite map_size_insert_None; [lia|].
        apply Hfresh. rewrite fmap_cons. by left.
      * lia.
    + intros p Hp. rewrite lookup_insert_opt_ne.
      * apply Hfresh. rewrite fmap_cons. by right.
      * intros <-. done.
Qed.

End record_all.

Lemma count_visits_cons (f : Visit → bool) x l :
  count_visits f (x :: l) = Z.b2z (f x) + count_visits f l.
Proof.
  unfold count_visits. rewrite filter_cons.
  destruct (f x); simpl; lia.
Qed.

Lemma count_visits_nonneg (f : Visit → bool) l : 0 ≤ count_visits f l.
Proof. unfold count_visits. lia. Qed.

Lemma merge_loop_Ok contig start_pos end_pos l st st' :
  for_each (merge_position contig start_pos end_pos) l st = Ok st' →
  ms_variants st' = record_all (variant_at contig) l (ms_variants st) ∧
  ms_adducts st' = record_all (adduct_at contig) l (ms_adducts st) ∧
  ms_tv st' = ms_tv st + count_visits (λ x, has (variant_at contig x)) l ∧
  ms_tva st' =
    ms_tva st
    + count_visits (λ x, has (variant_at contig x) || has (adduct_at contig x)) l ∧
  length (ms_cons_list st') = (length (ms_cons_list st) + length l)%nat.
Proof.
  revert st. induction l as [|x l IH]; intros st; cbn [for_each].
  - intros [= <-]. unfold count_visits. simpl. repeat split; lia.
  - intros (st1 & H1 & H2)%bind_Ok.
    apply merge_position_Ok in H1 as (Hv & Ha & Htv & Htva & Hlen).
    apply IH in H2 as (Hv' & Ha' & Htv' & Htva' & Hlen').
    rewrite Hv', Ha', Htv', Htva', Hlen', Hv, Ha, Htv, Htva, Hlen.
    rewrite !record_all_cons, !count_visits_cons.
    repeat split; try reflexivity; simpl; lia.
Qed.

(** The positions visited by the loop of [merge_strands]. *)
Lemma merge_positions_lookup start_pos end_pos pos_cons neg_cons i p P N_ :
  merge_positions start_pos end_pos pos_cons neg_cons !! i = Some (p, P, N_) ↔
  p = start_pos + Z.of_nat i ∧ p ≤ end_pos ∧
  pos_cons !! i = Some P ∧ neg_cons !! i = Some N_.
Proof.
  unfold merge_positions, zip3, range.
  rewrite lookup_zip_with_Some. split.
  - intros ([p1 P1] & N1 & [= -> -> ->] & Hz & HN).
    apply lookup_zip_with_Some in Hz as (p2 & P2 & [= -> ->] & Hp & HP).
    apply lookup_seqZ in Hp as [-> Hi]. repeat split; [lia|done..].
  - intros (-> & Hle & HP & HN). exists (start_pos + Z.of_nat i, P), N_.
    repeat split; [|done]. apply lookup_zip_with_Some.
    exists (start_pos + Z.of_nat i), P. repeat split; [|done].
    apply lookup_seqZ. split; [done|lia].
Qed.

Lemma merge_positions_NoDup start_pos end_pos pos_cons neg_cons :
  NoDup (refpos_of <$> merge_positions start_pos end_pos pos_cons neg_cons).
Proof.
  apply NoDup_alt. intros i j p Hi Hj.
  apply list_lookup_fmap_Some in Hi as ([[pi Pi] Ni] & -> & Hi).
  apply list_lookup_fmap_Some in Hj as ([[pj Pj] Nj] & Heq & Hj).
  apply merge_positions_lookup in Hi as (-> & _).
  apply merge_positions_lookup in Hj as (-> & _).
  unfold refpos_of in Heq. simpl in Heq. lia.
Qed.

Lemma merge_positions_elem_of start_pos end_pos pos_cons neg_cons p P N_ :
  (p, P, N_) ∈ merge_positions start_pos end_pos pos_cons neg_cons ↔
  start_pos ≤ p ≤ end_pos ∧
  pos_cons !! Z.to_nat (p - start_pos) = Some P ∧
  neg_cons !! Z.to_nat (p - start_pos) = Some N_.
Proof.
  rewrite list_elem_of_lookup. split.
  - intros (i & (-> & Hle & HP & HN)%merge_positions_lookup).
    replace (Z.to_nat (start_pos + Z.of_nat i - start_pos)) with i by lia.
    repeat split; [lia|done..].
  - intros ([Hs He] & HP & HN). exists (Z.to_nat (p - start_pos)).
    apply merge_positions_lookup. repeat split; [lia|done..].
Qed.

(** What a successful [merge_strands] returns, in terms of the visited
    positions. *)
Lemma merge_strands_Ok refseq bp family_strands dsc bp' :
  merge_strands refseq bp family_strands = Ok (dsc, bp') →
  ∃ pos_cons neg_cons,
    py_max (ssc_start (fs_pos family_strands))
           (ssc_start (fs_neg family_strands)) = Ok (dsc_start dsc) ∧
    py_min (ssc_end (fs_pos family_strands))
           (ssc_end (fs_neg family_strands)) = Ok (dsc_end dsc) ∧
    dsc_ref_name dsc = ssc_ref_name (fs_pos family_strands) ∧
    trim_cons (dsc_start dsc) (dsc_end dsc) (fs_pos family_strands)
      = Ok pos_cons ∧
    trim_cons (dsc_start dsc) (dsc_end dsc) (fs_neg family_strands)
      = Ok neg_cons ∧
    let contig := refseq_contig refseq (dsc_ref_name dsc) in
    let l := merge_positions (dsc_start dsc) (dsc_end dsc) pos_cons neg_cons in
    dsc_variants dsc = record_all (variant_at contig) l ∅ ∧
    dsc_adducts dsc = record_all (adduct_at contig) l ∅ ∧
    dsc_total_variants dsc = count_visits (λ x, has (variant_at contig x)) l ∧
    dsc_total_variants_and_adducts dsc =
      count_visits (λ x, has (variant_at contig x) || has (adduct_at contig x)) l ∧
    length (dsc_cons dsc) = length l.
Proof.
  unfold merge_strands.
  intros (start_pos & Hs & H)%bind_Ok.
  apply bind_Ok in H as (end_pos & He & H).
  apply bind_Ok in H as (pos_cons & Hp & H).
  apply bind_Ok in H as (neg_cons & Hn & H).
  apply bind_Ok in H as (st & Hloop & [= <- <-]).
  apply merge_loop_Ok in Hloop as (Hv & Ha & Htv & Htva & Hlen).
  exists pos_cons, neg_cons. simpl.
  rewrite Hv, Ha, Htv, Htva, Hlen. simpl. repeat split; try done; lia.
Qed.

(** ** From the final DSC map back to [merge_strands] *)

(** Every record of the final [dsc_info] is what [merge_strands] returned for
    that family's entry of [ssc_info]. *)
Lemma merge_pos_neg_strands_entry refseq bp ssc dsc_info bp' family_id dsc :
  merge_pos_neg_strands refseq bp ssc = Ok (dsc_info, bp') →
  dsc_info !! family_id = Some dsc →
  ∃ family_strands bp0 bp1,
    ssc !! family_id = Some family_strands ∧
    merge_strands refseq bp0 family_strands = Ok (dsc, bp1).
Proof.
  unfold merge_pos_neg_strands. intros Hrun. revert family_id dsc.
  pose (I := λ st : gmap string Dsc * BasePositions,
          ∀ family_id dsc, st.1 !! family_id = Some dsc →
            ∃ family_strands bp0 bp1,
              ssc !! family_id = Some family_strands ∧
              merge_strands refseq bp0 family_strands = Ok (dsc, bp1)).
  change (I (dsc_info, bp')).
  eapply (for_each_invariant _ I); [| |exact Hrun]; unfold I.
  - intros [fid fs] [d b] [d' b'] Hin HI.
    intros ([dsc1 b1] & Hm & [= <- <-])%bind_Ok. simpl in *.
    intros family_id dsc.
    destruct (decide (fid = family_id)) as [->|Hne].
    + rewrite lookup_insert_eq. intros [= <-].
      apply elem_of_map_to_list in Hin. eauto.
    + rewrite lookup_insert_ne by done. apply HI.
  - simpl. intros family_id dsc. by rewrite lookup_empty.
Qed.

Lemma parse_ssc_entry refseq pos_reads neg_reads ps family_id dsc :
  parse_ssc refseq pos_reads neg_reads = Ok ps →
  ps_dsc_info ps !! family_id = Some dsc →
  ∃ family_strands bp0 bp1,
    ps_ssc_info ps !! family_id = Some family_strands ∧
    merge_strands refseq bp0 family_strands = Ok (dsc, bp1).
Proof.
  unfold parse_ssc. intros (st & Hst & H)%bind_Ok.
  apply bind_Ok in H as ([dsc_info bp] & Hm & [= <-]). simpl.
  by eapply merge_pos_neg_strands_entry.
Qed.

(** ** DuplexMerger: the maps of one family *)

Lemma called_Some contig p P N_ R :
  contig !! p = Some R →
  P ∈ allowed_nucs → N_ ∈ allowed_nucs → R ∈ allowed_nucs →
  called contig (p, P, N_) = Some (P, N_, R).
Proof.
  intros HR HP HN HRa. unfold called. simpl.
  rewrite decide_True by done. rewrite HR. simpl.
  by rewrite decide_True.
Qed.

Lemma called_inv contig x P N_ R :
  called contig x = Some (P, N_, R) →
  x = (refpos_of x, P, N_) ∧ contig !! refpos_of x = Some R ∧
  P ∈ allowed_nucs ∧ N_ ∈ allowed_nucs ∧ R ∈ allowed_nucs.
Proof.
  destruct x as [[p P'] N']. unfold called, refpos_of. simpl.
  case_decide as Hnuc; [|done]. destruct Hnuc as [HP HN].
  destruct (contig !! p) as [R'|]; [|done]. simpl.
  case_decide; [|done]. by intros [= -> -> ->].
Qed.

(** The variants and adducts of a family, position by position. *)
Lemma merge_strands_lookup refseq bp family_strands dsc bp' pos_cons neg_cons :
  merge_strands refseq bp family_strands = Ok (dsc, bp') →
  trim_cons (dsc_start dsc) (dsc_end dsc) (fs_pos family_strands) = Ok pos_cons →
  trim_cons (dsc_start dsc) (dsc_end dsc) (fs_neg family_strands) = Ok neg_cons →
  let contig := refseq_contig refseq (dsc_ref_name dsc) in
  let l := merge_positions (dsc_start dsc) (dsc_end dsc) pos_cons neg_cons in
  (∀ x, x ∈ l →
     dsc_variants dsc !! refpos_of x = variant_at contig x ∧
     dsc_adducts dsc !! refpos_of x = adduct_at contig x) ∧
  (∀ p, p ∉ refpos_of <$> l →
     dsc_variants dsc !! p = None ∧ dsc_adducts dsc !! p = None) ∧
  dsc_total_variants dsc = count_visits (λ x, has (variant_at contig x)) l ∧
  dsc_total_variants_and_adducts dsc =
    count_visits (λ x, has (variant_at contig x) || has (adduct_at contig x)) l ∧
  length (dsc_cons dsc) = length l.
Proof.
  intros (pc & nc & _ & _ & _ & Hpc & Hnc & Hv & Ha & Htv & Htva & Hlen)%merge_strands_Ok
    Hpos Hneg.
  rewrite Hpc in Hpos. rewrite Hnc in Hneg. simplify_eq. simpl.
  pose proof (merge_positions_NoDup (dsc_start dsc) (dsc_end dsc)
                pos_cons neg_cons) as Hnd.
  rewrite Hv, Ha. split_and!; [| |done..].
  - intros x Hx. rewrite !lookup_record_all_in, !lookup_empty by done.
    split; by case_match.
  - intros p Hp. by rewrite !lookup_record_all_notin, !lookup_empty.
Qed.

(** ** DuplexMerger: counting *)

Lemma strand_only_has contig x :
  has (variant_at contig x) || has (adduct_at contig x)
    = has (variant_at contig x) || strand_only contig x ∧
  has (variant_at contig x) && strand_only contig x = false ∧
  has (strand_only_adduct contig x) = strand_only contig x.
Proof.
  unfold strand_only_adduct, strand_only, variant_at, adduct_at.
  destruct (called contig x) as [[[P N_] R]|]; simpl; [|done].
  unfold table_variant, table_adduct.
  repeat case_decide; case_bool_decide; simpl; try done; tauto.
Qed.

Lemma dual_mismatch_has contig x :
  dual_mismatch contig x = true →
  is_Some (variant_at contig x) ∧ is_Some (adduct_at contig x).
Proof.
  unfold dual_mismatch, variant_at, adduct_at.
  destruct (called contig x) as [[[P N_] R]|]; simpl; [|done].
  unfold table_variant, table_adduct.
  intros (H1 & H2 & H3)%bool_decide_eq_true.
  rewrite !decide_True by done. rewrite decide_False by done. eauto.
Qed.

Lemma count_visits_ext (f g : Visit → bool) l :
  (∀ x, f x = g x) → count_visits f l = count_visits g l.
Proof.
  intros Hfg. induction l as [|x l IH]; [done|].
  by rewrite !count_visits_cons, Hfg, IH.
Qed.

Lemma count_visits_orb (f g : Visit → bool) l :
  (∀ x, f x && g x = false) →
  count_visits (λ x, f x || g x) l = count_visits f l + count_visits g l.
Proof.
  intros Hfg. induction l as [|x l IH].
  - unfold count_visits. simpl. lia.
  - rewrite !count_visits_cons, IH. specialize (Hfg x).
    destruct (f x), (g x); simpl in *; try done; lia.
Qed.

Lemma NoDup_refpos_eq (l : list Visit) x y :
  NoDup (refpos_of <$> l) → x ∈ l → y ∈ l → refpos_of x = refpos_of y → x = y.
Proof.
  intros Hnd (i & Hi)%list_elem_of_lookup (j & Hj)%list_elem_of_lookup Heq.
  assert (i = j) as ->.
  { eapply NoDup_alt; [exact Hnd|..].
    - by apply list_lookup_fmap_Some_2.
    - rewrite Heq. by apply list_lookup_fmap_Some_2. }
  congruence.
Qed.

Lemma record_all_empty_is_Some {V : Type} (f : Visit → option V) l p :
  NoDup (refpos_of <$> l) →
  is_Some (record_all f l ∅ !! p) ↔
  ∃ x, x ∈ l ∧ refpos_of x = p ∧ is_Some (f x).
Proof.
  intros Hnd. split.
  - intros [v Hv]. apply lookup_record_all_Some in Hv as [Hv|(x & ? & ? & ?)];
      [by rewrite lookup_empty in Hv|by eauto|done].
  - intros (x & Hx & <- & [v Hv]).
    rewrite lookup_record_all_in, Hv by done. eauto.
Qed.

(** Adducts at positions without a variant are the strand-only ones. *)
Lemma strand_only_dom contig l :
  NoDup (refpos_of <$> l) →
  dom (record_all (strand_only_adduct contig) l ∅) =
    dom (record_all (adduct_at contig) l ∅)
      ∖ dom (record_all (variant_at contig) l ∅).
Proof.
  intros Hnd. apply set_eq. intros p.
  rewrite elem_of_difference, !elem_of_dom, !record_all_empty_is_Some by done.
  split.
  - intros (x & Hx & <- & Hs).
    destruct (strand_only_has contig x) as (_ & Hexcl & Hh).
    apply has_true in Hs. rewrite Hh in Hs. split.
    + exists x. split_and!; [done..|].
      unfold strand_only_adduct in Hh. rewrite Hs in Hh. by apply has_true.
    + intros (y & Hy & Heq & Hv).
      assert (y = x) as -> by by eapply NoDup_refpos_eq.
      apply has_true in Hv. rewrite Hv, Hs in Hexcl. done.
  - intros [(x & Hx & <- & Ha) Hnv]. exists x. split_and!; [done..|].
    destruct (strand_only_has contig x) as (Hor & _ & Hh).
    apply has_true. rewrite Hh. apply has_true in Ha. rewrite Ha in Hor.
    destruct (has (variant_at contig x)) eqn:Hv.
    + exfalso. apply Hnv. exists x. by rewrite <-has_true.
    + simpl in Hor. by rewrite <-Hor.
Qed.

(** ** Every family of the final DSC map *)

Section final_dsc_map.
Context (refseq : Refseq) (pos_reads neg_reads : list ParsedRead).
Context (ps : ParseSSC).
Hypothesis Hrun : parse_ssc refseq pos_reads neg_reads = Ok ps.
Context (family_id : string) (dsc : Dsc) (family_strands : FamilyStrands).
Hypothesis Hdsc : ps_dsc_info ps !! family_id = Some dsc.
Hypothesis Hssc : ps_ssc_info ps !! family_id = Some family_strands.
Context (pos_cons neg_cons : str).
Hypothesis Hpos :
  trim_cons (dsc_start dsc) (dsc_end dsc) (fs_pos family_strands) = Ok pos_cons.
Hypothesis Hneg :
  trim_cons (dsc_start dsc) (dsc_end dsc) (fs_neg family_strands) = Ok neg_cons.

Lemma final_dsc_merge_strands :
  ∃ bp0 bp1, merge_strands refseq bp0 family_strands = Ok (dsc, bp1).
Proof using Hrun Hdsc Hssc.
  destruct (parse_ssc_entry _ _ _ _ _ _ Hrun Hdsc) as (fs & bp0 & bp1 & Hfs & Hm).
  rewrite Hssc in Hfs. injection Hfs as <-. eauto.
Qed.

(** A visited position with three nucleotides holds what the table gives. *)
Lemma final_dsc_table refpos P N_ R :
  dsc_start dsc ≤ refpos ≤ dsc_end dsc →
  pos_cons !! Z.to_nat (refpos - dsc_start dsc) = Some P →
  neg_cons !! Z.to_nat (refpos - dsc_start dsc) = Some N_ →
  refseq_contig refseq (dsc_ref_name dsc) !! refpos = Some R →
  P ∈ allowed_nucs → N_ ∈ allowed_nucs → R ∈ allowed_nucs →
  dsc_variants dsc !! refpos = table_variant P N_ R ∧
  dsc_adducts dsc !! refpos = table_adduct P N_ R.
Proof using Hrun Hdsc Hssc Hpos Hneg.
  intros Hrange HP HN HR HPa HNa HRa.
  destruct final_dsc_merge_strands as (bp0 & bp1 & Hm).
  destruct (merge_strands_lookup _ _ _ _ _ _ _ Hm Hpos Hneg) as (Hin & _).
  destruct (Hin (refpos, P, N_)) as [Hv Ha].
  { by apply merge_positions_elem_of. }
  unfold refpos_of, variant_at, adduct_at in Hv, Ha. simpl in Hv, Ha.
  by rewrite (called_Some _ _ _ _ R) in Hv, Ha.
Qed.

(** Every position either has no entry in both maps, or was visited by the
    loop and holds what the table gives there. *)
Lemma final_dsc_lookup refpos :
  let contig := refseq_contig refseq (dsc_ref_name dsc) in
  (dsc_variants dsc !! refpos = None ∧ dsc_adducts dsc !! refpos = None) ∨
  ∃ P N_,
    (refpos, P, N_) ∈
      merge_positions (dsc_start dsc) (dsc_end dsc) pos_cons neg_cons ∧
    dsc_variants dsc !! refpos = variant_at contig (refpos, P, N_) ∧
    dsc_adducts dsc !! refpos = adduct_at contig (refpos, P, N_).
Proof using Hrun Hdsc Hssc Hpos Hneg.
  destruct final_dsc_merge_strands as (bp0 & bp1 & Hm).
  destruct (merge_strands_lookup _ _ _ _ _ _ _ Hm Hpos Hneg) as (Hin & Hout & _).
  simpl.
  destruct (decide (refpos ∈ refpos_of <$>
    merge_positions (dsc_start dsc) (dsc_end dsc) pos_cons neg_cons))
    as [Hp|Hp].
  - right. apply list_elem_of_fmap in Hp as ([[p P] N_] & -> & Hx).
    exists P, N_. split; [done|]. by apply (Hin (p, P, N_)).
  - left. by apply Hout.
Qed.

(** C2: [total_variants] is the number of entries of the variants map;
    [total_variants_and_adducts] is that number plus the number of visited
    positions where exactly one strand mismatches (cases 6 and 7), which are
    the adducts at positions without a variant; and one iteration at a
    position where both strands mismatch with different bases (case 5) adds
    exactly one to [total_variants_and_adducts] although it writes an entry
    to both maps. *)
Theorem duplex_totals :
  let contig := refseq_contig refseq (dsc_ref_name dsc) in
  let l := merge_positions (dsc_start dsc) (dsc_end dsc) pos_cons neg_cons in
  dsc_total_variants dsc = Z.of_nat (size (dsc_variants dsc)) ∧
  dsc_total_variants_and_adducts dsc =
    Z.of_nat (size (dsc_variants dsc)) + count_visits (strand_only contig) l ∧
  count_visits (strand_only contig) l =
    Z.of_nat (size (dom (dsc_adducts dsc) ∖ dom (dsc_variants dsc))) ∧
  (∀ x st st',
     x ∈ l → dual_mismatch contig x = true →
     merge_position contig (dsc_start dsc) (dsc_end dsc) x st = Ok st' →
     ms_tva st' = ms_tva st + 1 ∧
     is_Some (ms_variants st' !! refpos_of x) ∧
     is_Some (ms_adducts st' !! refpos_of x)).
Proof using Hrun Hdsc Hssc Hpos Hneg.
  destruct final_dsc_merge_strands as (bp0 & bp1 & Hm).
  apply merge_strands_Ok in Hm
    as (pc & nc & _ & _ & _ & Hpc & Hnc & Hv & Ha & Htv & Htva & _).
  rewrite Hpc in Hpos. rewrite Hnc in Hneg.
  injection Hpos as <-. injection Hneg as <-. simpl.
  set (contig := refseq_contig refseq (dsc_ref_name dsc)) in *.
  set (l := merge_positions (dsc_start dsc) (dsc_end dsc) pc nc) in *.
  assert (NoDup (refpos_of <$> l)) as Hnd by apply merge_positions_NoDup.
  assert (Z.of_nat (size (dsc_variants dsc)) =
          count_visits (λ x, has (variant_at contig x)) l) as Hsize.
  { rewrite Hv, size_record_all, map_size_empty; [lia|done|].
    intros p _. apply lookup_empty. }
  split_and!.
  - by rewrite Hsize.
  - rewrite Htva, Hsize.
    rewrite (count_visits_ext _
               (λ x, has (variant_at contig x) || strand_only contig x)).
    + apply count_visits_orb. intros x. apply strand_only_has.
    + intros x. apply strand_only_has.
  - rewrite Hv, Ha, <-strand_only_dom, size_dom, size_record_all,
      map_size_empty by (done || (intros p _; apply lookup_empty)).
    rewrite Z.add_0_l. apply count_visits_ext. intros x.
    symmetry. apply strand_only_has.
  - intros x st st' _ Hx Hstep.
    apply merge_position_Ok in Hstep as (Hv' & Ha' & _ & Htva' & _).
    destruct (dual_mismatch_has _ _ Hx) as [[v Hxv] [a Hxa]].
    rewrite Hv', Ha', Htva', Hxv, Hxa. simpl.
    rewrite !lookup_insert_eq. eauto.
Qed.

(** C6, as the code has it: the [ref] field of a variant and of an adduct on
    the positive strand is the cached reference base of the family's contig
    at that position; the [ref] field of an adduct on the negative strand is
    the complement of that cached base. *)
Theorem recorded_reference_base refpos :
  let contig := refseq_contig refseq (dsc_ref_name dsc) in
  (∀ v, dsc_variants dsc !! refpos = Some v →
        contig !! refpos = Some (v_ref v)) ∧
  (∀ a, dsc_adducts dsc !! refpos = Some a → a_strand a = pos →
        contig !! refpos = Some (a_ref a)) ∧
  (∀ a, dsc_adducts dsc !! refpos = Some a → a_strand a = neg →
        ∃ R, contig !! refpos = Some R ∧ R ∈ allowed_nucs ∧
             complement R = Ok (a_ref a)).
Proof using Hrun Hdsc Hssc Hpos Hneg.
  simpl.
  destruct (final_dsc_lookup refpos) as [[Hv Ha]|(P & N_ & Hx & Hv & Ha)].
  { rewrite Hv, Ha. split_and!; intros; done. }
  rewrite Hv, Ha. unfold variant_at, adduct_at.
  destruct (called _ _) as [[[P' N'] R]|] eqn:Hc;
    [|split_and!; intros; done].
  apply called_inv in Hc as ([= <- <-] & HR & HP & HN & HRa).
  unfold refpos_of in HR. simpl in *. unfold table_variant, table_adduct.
  split_and!.
  - intros v Hv'. case_decide; [|done]. by injection Hv' as <-.
  - intros a Ha' Hs. repeat case_decide; simplify_eq; done.
  - intros a Ha' Hs. exists R. split_and!; [done..|].
    rewrite complement_allowed by done.
    repeat case_decide; simplify_eq; done.
Qed.

End final_dsc_map.


Lemma duplex_totals_witness :
  dsc_total_variants dual_dsc = Z.of_nat (size (dsc_variants dual_dsc)) ∧
  dsc_total_variants_and_adducts dual_dsc =
    Z.of_nat (size (dsc_variants dual_dsc))
    + count_visits (strand_only (refseq_contig refseq_acgt (Some chr1)))
        (merge_positions 100 103 ATGT AGGT).
Proof.
  pose proof (duplex_totals refseq_acgt dual_pos_reads dual_neg_reads
                dual_ps eq_refl F1 dual_dsc dual_strands eq_refl eq_refl
                ATGT AGGT eq_refl eq_refl) as (Htv & Htva & _).
  exact (conj Htv Htva).
Defined.



(** C6 as stated fails: in the run where only the negative strand mismatches
    ("ACCT" against "ACGT"), the adduct at position 102 stores [ref = "C"]
    while the cached reference base at [chr1], 102 is "G". *)
Lemma adduct_ref_differs_from_cache :
  parse_ssc refseq_acgt negonly_pos_reads negonly_neg_reads = Ok negonly_ps ∧
  ps_dsc_info negonly_ps !! F1 = Some negonly_dsc ∧
  ∃ a, dsc_adducts negonly_dsc !! 102 = Some a ∧
       refseq_contig refseq_acgt (dsc_ref_name negonly_dsc) !! 102
         ≠ Some (a_ref a).
Proof.
  split_and!; [reflexivity..|].
  exists {| a_strand := neg; a_var := "G"; a_ref := "C" |}.
  split; [reflexivity|]. vm_compute. discriminate.
Qed.

Lemma recorded_reference_base_witness :
  ∃ R, refseq_contig refseq_acgt (dsc_ref_name negonly_dsc) !! 102 = Some R ∧
       R ∈ allowed_nucs ∧ complement R = Ok "C".
Proof.
  pose proof (recorded_reference_base refseq_acgt negonly_pos_reads
                negonly_neg_reads negonly_ps eq_refl F1 negonly_dsc
                negonly_strands eq_refl eq_refl ACGT ACCT eq_refl eq_refl 102)
    as (_ & _ & Hneg).
  exact (Hneg {| a_strand := neg; a_var := "G"; a_ref := "C" |}
              eq_refl eq_refl).
Defined.

(** ** DuplexMerger: the calls of [complement] *)

Lemma merge_position_complement contig start_pos end_pos x st :
  merge_position contig start_pos end_pos x st ≠ Raise KeyError_complement.
Proof.
  destruct x as [[refpos P] N_]. unfold merge_position.
  case_bool_decide as Hnuc; [done|].
  assert (P ∈ allowed_nucs ∧ N_ ∈ allowed_nucs) as [HP HN].
  { split; apply dec_stable; tauto. }
  intros [H|(R & HR & H)]%bind_Raise.
  { by apply item_Raise in H as [? _]. }
  revert H. case_bool_decide; [done|].
  case_bool_decide as HRn; [done|].
  assert (R ∈ allowed_nucs) as HRa by (apply dec_stable; tauto).
  rewrite !(complement_allowed N_), !(complement_allowed R) by done.
  simpl. repeat case_bool_decide; done.
Qed.

(** C10: [complement] fails exactly outside A/T/C/G, and neither one
    iteration of the loop of [merge_strands] nor [merge_strands] as a whole
    ever ends in that failure: both arguments of every call have passed the
    [allowed_nucs] tests. *)
Theorem complement_failure_unreachable :
  (∀ b, complement b = Raise KeyError_complement ↔ b ∉ allowed_nucs) ∧
  (∀ contig start_pos end_pos x st,
     merge_position contig start_pos end_pos x st ≠ Raise KeyError_complement) ∧
  (∀ refseq bp family_strands,
     merge_strands refseq bp family_strands ≠ Raise KeyError_complement).
Proof.
  split_and!.
  - intros b. rewrite complement_Raise. tauto.
  - apply merge_position_complement.
  - intros refseq bp fs. unfold merge_strands, trim_cons.
    intros [H|(start_pos & _ & H)]%bind_Raise.
    { by destruct (ssc_start (fs_pos fs)), (ssc_start (fs_neg fs)). }
    apply bind_Raise in H as [H|(end_pos & _ & H)].
    { by destruct (ssc_end (fs_pos fs)), (ssc_end (fs_neg fs)). }
    apply bind_Raise in H as [H|(pos_cons & _ & H)].
    { by destruct (ssc_cons (fs_pos fs)), (ssc_start (fs_pos fs)),
                  (ssc_end (fs_pos fs)). }
    apply bind_Raise in H as [H|(neg_cons & _ & H)].
    { by destruct (ssc_cons (fs_neg fs)), (ssc_start (fs_neg fs)),
                  (ssc_end (fs_neg fs)). }
    apply bind_Raise in H as [H|(st & _ & H)]; [|done].
    revert H. apply for_each_Raise. apply merge_position_complement.
Qed.

(** ** ThresholdEmitter: the kept families *)

Lemma elem_of_keep_families filter_on dsc_info max_vars family_id :
  family_id ∈ keep_families filter_on dsc_info max_vars ↔
  ∃ dsc, dsc_info !! family_id = Some dsc ∧
         within_filter filter_on max_vars dsc = true.
Proof.
  unfold keep_families.
  rewrite elem_of_list_to_set, list_elem_of_fmap. split.
  - intros ([fid dsc] & -> & [Hkeep Hin%elem_of_map_to_list]%list_elem_of_filter).
    exists dsc. split; [done|]. by apply Is_true_true.
  - intros (dsc & Hdsc & Hkeep). exists (family_id, dsc). split; [done|].
    apply list_elem_of_filter. split.
    + by apply Is_true_true.
    + by apply elem_of_map_to_list.
Qed.

(** C8: [keep_families] holds exactly the families whose chosen metric is at
    most the threshold, every family when the threshold is [None]; so a
    larger threshold keeps at least the same families. *)
Theorem keep_families_monotone filter_on dsc_info :
  (∀ T family_id,
     family_id ∈ keep_families filter_on dsc_info (Some T) ↔
     ∃ dsc, dsc_info !! family_id = Some dsc ∧ dsc_metric filter_on dsc ≤ T) ∧
  keep_families filter_on dsc_info None = dom dsc_info ∧
  (∀ T1 T2, T1 ≤ T2 →
     keep_families filter_on dsc_info (Some T1)
       ⊆ keep_families filter_on dsc_info (Some T2)).
Proof.
  assert (∀ T family_id,
     family_id ∈ keep_families filter_on dsc_info (Some T) ↔
     ∃ dsc, dsc_info !! family_id = Some dsc ∧ dsc_metric filter_on dsc ≤ T)
    as Hspec.
  { intros T fid. rewrite elem_of_keep_families. simpl.
    by setoid_rewrite bool_decide_eq_true. }
  split_and!; [done| |].
  - apply set_eq. intros fid.
    rewrite elem_of_keep_families, elem_of_dom. simpl.
    split; [intros (dsc & ? & _)|intros [dsc ?]]; eauto.
  - intros T1 T2 Hle fid. rewrite !Hspec.
    intros (dsc & Hdsc & Hm). exists dsc. split; [done|lia].
Qed.

Lemma keep_families_monotone_witness :
  keep_families total_variants two_families (Some 0)
    ⊆ keep_families total_variants two_families (Some 3).
Proof.
  destruct (keep_families_monotone total_variants two_families) as (_ & _ & H).
  apply (H 0 3). lia.
Defined.

(** ** SummaryFormatter: the adduct counts *)

Lemma count_of_add_to `{Countable K} (k k' : K) n (d : gmap K Z) :
  count_of k' (add_to k n d) =
    if decide (k = k') then count_of k' d + n else count_of k' d.
Proof.
  unfold count_of, add_to. rewrite lookup_insert.
  by case_decide; subst.
Qed.

Lemma count_of_add_to2 `{Countable K1, Countable K2}
    (c c' : K1) (k k' : K2) n (d : gmap K1 (gmap K2 Z)) :
  count_of k' (default ∅ (add_to2 c k n d !! c')) =
    if decide (c = c' ∧ k = k')
    then count_of k' (default ∅ (d !! c')) + n
    else count_of k' (default ∅ (d !! c')).
Proof.
  unfold add_to2. rewrite lookup_insert.
  destruct (decide (c = c')) as [->|Hc]; simpl.
  - rewrite count_of_add_to. repeat case_decide; tauto || done.
  - rewrite decide_False by tauto. done.
Qed.

Lemma count_variants_adducts c s l c' :
  adducts_total (foldl (count_variant c) s l) = adducts_total s ∧
  adducts_chr c' (foldl (count_variant c) s l) = adducts_chr c' s.
Proof.
  revert s. induction l as [|v l IH]; intros s; [done|].
  simpl. destruct (IH (count_variant c s v)) as [-> ->].
  unfold adducts_total, adducts_chr, count_variant. simpl.
  rewrite count_of_add_to, count_of_add_to2.
  rewrite !decide_False; [done| |done]. by intros [_ ?].
Qed.

Lemma count_adducts_adducts c s l c' :
  adducts_total (foldl (count_adduct c) s l)
    = adducts_total s + Z.of_nat (length l) ∧
  adducts_chr c' (foldl (count_adduct c) s l)
    = adducts_chr c' s + (if decide (c = c') then Z.of_nat (length l) else 0).
Proof.
  revert s. induction l as [|a l IH]; intros s.
  - simpl. case_decide; lia.
  - cbn [foldl]. destruct (IH (count_adduct c s a)) as [-> ->].
    unfold adducts_total, adducts_chr, count_adduct. cbn [total_counts chr_counts].
    rewrite count_of_add_to, count_of_add_to2. cbn [length].
    rewrite decide_True by done.
    destruct (decide (c = c')) as [->|Hc].
    + rewrite decide_True by done. lia.
    + rewrite decide_False by tauto. lia.
Qed.

(** One family adds twice the size of its adducts map, or nothing when it is
    not kept. *)
Lemma count_family_adducts keep s family_id dsc c' :
  let n := Z.of_nat (size (dsc_adducts dsc)) in
  adducts_total (count_family keep s (family_id, dsc)) =
    adducts_total s + (if decide (family_id ∈ keep) then 2 * n else 0) ∧
  adducts_chr c' (count_family keep s (family_id, dsc)) =
    adducts_chr c' s +
      (if decide (family_id ∈ keep ∧ dsc_ref_name dsc = c') then 2 * n else 0).
Proof.
  simpl. unfold count_family. case_bool_decide as Hkeep.
  - rewrite !decide_False by tauto. lia.
  - assert (family_id ∈ keep) as Hin by (apply dec_stable; tauto).
    rewrite decide_True by done.
    match goal with |- context [foldl (count_adduct ?c) ?s ?l] =>
      destruct (count_adducts_adducts c s l c') as [-> ->] end.
    match goal with |- context [foldl (count_variant ?c) ?s ?l] =>
      destruct (count_variants_adducts c s l c') as [-> ->] end.
    rewrite length_fmap, length_map_to_list.
    unfold adducts_total, adducts_chr. cbn [total_counts chr_counts].
    rewrite !count_of_add_to, !count_of_add_to2.
    repeat case_decide; destruct_and?; try done; try lia; tauto.
Qed.

Lemma kept_adducts_cons (P : Dsc → Prop) `{∀ d, Decision (P d)} keep x l :
  kept_adducts P keep (x :: l) =
    (if decide (x.1 ∈ keep ∧ P x.2)
     then Z.of_nat (size (dsc_adducts x.2)) else 0)
    + kept_adducts P keep l.
Proof.
  unfold kept_adducts. rewrite filter_cons.
  case_decide; simpl; lia.
Qed.

Lemma format_summary_adducts keep l s c :
  adducts_total (foldl (count_family keep) s l) =
    adducts_total s + 2 * kept_adducts (λ _, True) keep l ∧
  adducts_chr c (foldl (count_family keep) s l) =
    adducts_chr c s + 2 * kept_adducts (λ d, dsc_ref_name d = c) keep l.
Proof.
  revert s. induction l as [|[fid dsc] l IH]; intros s.
  - unfold kept_adducts. simpl. lia.
  - cbn [foldl]. destruct (IH (count_family keep s (fid, dsc))) as [-> ->].
    destruct (count_family_adducts keep s fid dsc c) as [-> ->].
    rewrite !kept_adducts_cons. simpl.
    repeat case_decide; destruct_and?; try done; try lia; tauto.
Qed.

(** Once written, the key 'adducts' stays in [total_counts]. *)
Lemma add_to_is_Some `{Countable K} (k k' : K) n (d : gmap K Z) :
  k = k' ∨ is_Some (d !! k') → is_Some (add_to k n d !! k').
Proof.
  unfold add_to. rewrite lookup_insert. case_decide; [eauto|]. by intros [?|?].
Qed.

Lemma count_variants_key c s l :
  is_Some (total_counts s !! "adducts"%string) →
  is_Some (total_counts (foldl (count_variant c) s l) !! "adducts"%string).
Proof.
  revert s. induction l as [|v l IH]; intros s Hs; [done|].
  cbn [foldl]. apply IH. unfold count_variant. cbn [total_counts].
  apply add_to_is_Some. by right.
Qed.

Lemma count_adducts_key c s l :
  is_Some (total_counts s !! "adducts"%string) →
  is_Some (total_counts (foldl (count_adduct c) s l) !! "adducts"%string).
Proof.
  revert s. induction l as [|v l IH]; intros s Hs; [done|].
  cbn [foldl]. apply IH. unfold count_adduct. cbn [total_counts].
  apply add_to_is_Some. by left.
Qed.

Lemma count_family_key keep s x :
  x.1 ∈ keep ∨ is_Some (total_counts s !! "adducts"%string) →
  is_Some (total_counts (count_family keep s x) !! "adducts"%string).
Proof.
  destruct x as [fid dsc]. unfold count_family. simpl.
  case_bool_decide as Hkeep.
  - by intros [?|?].
  - intros _. apply count_adducts_key, count_variants_key.
    cbn [total_counts]. apply add_to_is_Some. by left.
Qed.

Lemma format_summary_key keep l s :
  (∃ x, x ∈ l ∧ x.1 ∈ keep) ∨ is_Some (total_counts s !! "adducts"%string) →
  is_Some (total_counts (foldl (count_family keep) s l) !! "adducts"%string).
Proof.
  revert s. induction l as [|x l IH]; intros s.
  - intros [(x & Hx & _)|?]; [|done]. by apply elem_of_nil in Hx.
  - intros Hs. cbn [foldl]. apply IH.
    destruct Hs as [(y & [->|Hy]%elem_of_cons & Hk)|Hs].
    + right. apply count_family_key. by left.
    + left. eauto.
    + right. apply count_family_key. by right.
Qed.

(** C9: the overall 'adducts' counter of the summary is twice the sum, over
    the kept families, of the number of entries of the family's adducts map,
    and so is the 'adducts' counter of every contig over the kept families of
    that contig; the key is present in [total_counts] as soon as one family
    is kept. *)
Theorem summary_adducts_doubled dsc_info keep :
  let s := format_summary dsc_info keep in
  adducts_total s =
    2 * kept_adducts (λ _, True) keep (map_to_list dsc_info) ∧
  (∀ c, adducts_chr c s =
          2 * kept_adducts (λ d, dsc_ref_name d = c) keep
                (map_to_list dsc_info)) ∧
  (∀ family_id dsc,
     dsc_info !! family_id = Some dsc → family_id ∈ keep →
     total_counts s !! "adducts"%string =
       Some (2 * kept_adducts (λ _, True) keep (map_to_list dsc_info))).
Proof.
  simpl. unfold format_summary.
  assert (∀ c,
    adducts_total (foldl (count_family keep) summary_init (map_to_list dsc_info))
      = 2 * kept_adducts (λ _, True) keep (map_to_list dsc_info) ∧
    adducts_chr c (foldl (count_family keep) summary_init (map_to_list dsc_info))
      = 2 * kept_adducts (λ d, dsc_ref_name d = c) keep (map_to_list dsc_info))
    as Hsum.
  { intros c.
    destruct (format_summary_adducts keep (map_to_list dsc_info) summary_init c)
      as [-> ->].
    unfold adducts_total, adducts_chr, count_of. simpl.
    rewrite !lookup_empty. simpl. rewrite lookup_empty. simpl. lia. }
  split_and!.
  - apply (Hsum None).
  - intros c. apply Hsum.
  - intros fid dsc Hdsc Hkeep.
    destruct (Hsum None) as [<- _].
    destruct (format_summary_key keep (map_to_list dsc_info) summary_init)
      as [n Hn].
    { left. exists (fid, dsc). split; [|done]. by apply elem_of_map_to_list. }
    unfold adducts_total, count_of. by rewrite Hn.
Qed.

Lemma summary_adducts_doubled_witness :
  total_counts (format_summary dual_dsc_info {[ F1 ]}) !! "adducts"%string
    = Some 2.
Proof.
  destruct (summary_adducts_doubled dual_dsc_info {[ F1 ]}) as (_ & _ & H).
  rewrite (H F1 dual_dsc); [reflexivity|reflexivity|].
  by apply elem_of_singleton.
Defined.

(** ** StrandMerger: the variants of a strand *)

Lemma add_variant_Ok contig o rd x vs vs' :
  add_variant contig o (Some rd) x vs = Ok vs' →
  ∃ e, read_entry contig o rd x.1 x.2 = Some e ∧ vs' = <[x.1 := e]> vs.
Proof.
  destruct x as [p b]. unfold add_variant, read_entry, fwd_entry, rev_entry.
  simpl. intros (readpos & Hrp & H)%bind_Ok.
  apply bind_Ok in H as (ref & Href%item_Ok & [= <-]).
  destruct (decide (o = fwd)); simpl in *; rewrite Href; simpl;
    injection Hrp as <-; eauto.
Qed.

Lemma add_variants_Ok contig o rd l vs vs' :
  for_each (add_variant contig o (Some rd)) l vs = Ok vs' →
  vs' = foldl (λ acc x, insert_opt x.1 (read_entry contig o rd x.1 x.2) acc)
              vs l.
Proof.
  revert vs. induction l as [|x l IH]; intros vs; cbn [for_each foldl].
  - by intros [= <-].
  - intros (vs1 & (e & He & ->)%add_variant_Ok & H)%bind_Ok.
    rewrite He. simpl. by apply IH.
Qed.

Lemma foldl_insert_opt_list {V : Type} (g : Z → ascii → option V)
    (l : list (Z * ascii)) (vs : gmap Z V) :
  NoDup l.*1 →
  foldl (λ acc x, insert_opt x.1 (g x.1 x.2) acc) vs l =
    map_imap g (list_to_map l : gmap Z ascii) ∪ vs.
Proof.
  revert vs. induction l as [|[p b] l IH]; intros vs Hnd.
  - simpl. by rewrite map_imap_empty, (left_id_L ∅ (∪)).
  - rewrite fmap_cons in Hnd. apply NoDup_cons in Hnd as [Hp Hnd].
    cbn [foldl list_to_map]. rewrite IH by done. simpl.
    apply map_eq. intros k.
    rewrite !lookup_union, !map_lookup_imap.
    destruct (decide (k = p)) as [->|Hk].
    + rewrite lookup_insert_eq. simpl.
      rewrite (not_elem_of_list_to_map_1 l p) by done. simpl.
      rewrite (left_id_L None union).
      rewrite lookup_insert_opt_eq. by destruct (g p b), (vs !! p).
    + rewrite lookup_insert_ne by done.
      by rewrite lookup_insert_opt_ne.
Qed.

Lemma add_variants_map contig o rd (m : gmap Z ascii) vs vs' :
  for_each (add_variant contig o (Some rd)) (map_to_list m) vs = Ok vs' →
  vs' = map_imap (read_entry contig o rd) m ∪ vs.
Proof.
  intros ->%add_variants_Ok.
  rewrite foldl_insert_opt_list by apply NoDup_fst_map_to_list.
  by rewrite list_to_map_to_list.
Qed.

(** A loop that returns has found the cached base of every variant. *)
Lemma add_variants_cached contig o rd (m : gmap Z ascii) vs vs' p :
  for_each (add_variant contig o (Some rd)) (map_to_list m) vs = Ok vs' →
  is_Some (m !! p) → is_Some (contig !! p).
Proof.
  intros H [b Hb%elem_of_map_to_list]. revert vs H Hb.
  induction (map_to_list m) as [|x l IH]; intros vs H Hb.
  - by apply elem_of_nil in Hb.
  - cbn [for_each] in H. apply bind_Ok in H as (vs1 & Hx & H).
    apply elem_of_cons in Hb as [<-|Hb]; [|by eapply IH].
    apply add_variant_Ok in Hx as (e & He & _). simpl in He.
    unfold read_entry, fwd_entry, rev_entry in He.
    destruct (decide (o = fwd)); simpl in He;
      by destruct (contig !! p).
Qed.

(** The outcomes of [merge_read_pair] on the two-key dictionary that the
    default factory of [read_info] creates. *)
Lemma merge_read_pair_no_fwd refseq family_id strand rev_read st :
  merge_read_pair refseq family_id strand [(fwd, None); (rev, rev_read)] st
    = Raise KeyError_read_field.
Proof. reflexivity. Qed.

Lemma merge_read_pair_no_rev refseq family_id strand f st :
  merge_read_pair refseq family_id strand [(fwd, Some f); (rev, None)] st
    = Ok (drop_strand (Log_different_references family_id strand)
            [(fwd, Some f); (rev, None)] st).
Proof. reflexivity. Qed.

Lemma merge_read_pair_other_contig refseq family_id strand f r st :
  r_ref_name f ≠ r_ref_name r →
  merge_read_pair refseq family_id strand [(fwd, Some f); (rev, Some r)] st
    = Ok (drop_strand (Log_different_references family_id strand)
            [(fwd, Some f); (rev, Some r)] st).
Proof.
  intros Hne. unfold merge_read_pair. simpl.
  rewrite bool_decide_eq_true_2; [done|]. congruence.
Qed.

Lemma merge_read_pair_not_inwards refseq family_id strand f r st :
  r_ref_name f = r_ref_name r → r_start f >= r_end r →
  merge_read_pair refseq family_id strand [(fwd, Some f); (rev, Some r)] st
    = Ok (drop_strand (Log_not_inwards family_id strand)
            [(fwd, Some f); (rev, Some r)] st).
Proof.
  intros Heq Hge. unfold merge_read_pair. simpl.
  rewrite bool_decide_eq_false_2 by (rewrite Heq; tauto).
  by rewrite bool_decide_eq_true_2.
Qed.

Lemma merge_read_pair_merged refseq family_id strand f r st st' :
  r_ref_name f = r_ref_name r → r_start f < r_end r →
  merge_read_pair refseq family_id strand [(fwd, Some f); (rev, Some r)] st
    = Ok st' →
  let family := default ssc_info_default (ssc_info st !! family_id) in
  let contig := refseq_contig refseq (Some (r_ref_name f)) in
  ∃ ssc,
    ssc_info st' = <[family_id := fs_set strand ssc family]> (ssc_info st) ∧
    log st' = log st ∧
    ssc_ref_name ssc = Some (r_ref_name f) ∧
    ssc_start ssc = Some (r_start f) ∧
    ssc_end ssc = Some (r_end r) ∧
    (∃ cons, ssc_cons ssc = Some cons ∧
             Z.of_nat (length cons) = r_end r - r_start f + 1) ∧
    ssc_variants ssc =
      map_imap (rev_entry contig r) (r_variants r)
        ∪ (map_imap (fwd_entry contig f) (r_variants f)
             ∪ ssc_variants (fs_get strand family)) ∧
    (∀ p, is_Some (r_variants f !! p) ∨ is_Some (r_variants r !! p) →
          is_Some (contig !! p)).
Proof.
  intros Heq Hlt. unfold merge_read_pair. simpl.
  rewrite bool_decide_eq_false_2 by (rewrite Heq; tauto).
  rewrite bool_decide_eq_false_2 by lia.
  intros ([covered variants] & Hloop & H)%bind_Ok.
  apply bind_Ok in Hloop as ([cov1 vs1] & H1 & H2).
  apply bind_Ok in H1 as (vs1' & Hf & [= <- <-]).
  apply bind_Ok in H2 as ([cov2 vs2] & H2 & [= <- <-]).
  apply bind_Ok in H2 as (vs2' & Hr & [= <- <-]).
  simpl in H. injection H as <-. simpl.
  eexists. split_and!; try reflexivity.
  - eexists. split; [reflexivity|].
    unfold range. rewrite length_fmap, length_seqZ. lia.
  - simpl. by rewrite (add_variants_map _ _ _ _ _ _ Hr),
                      (add_variants_map _ _ _ _ _ _ Hf).
  - intros p [Hp|Hp].
    + exact (add_variants_cached _ _ _ _ _ _ _ Hf Hp).
    + exact (add_variants_cached _ _ _ _ _ _ _ Hr Hp).
Qed.

(** [merge_read_pair] writes to no other family. *)
Lemma merge_read_pair_frame refseq family_id strand strand_reads st st' :
  merge_read_pair refseq family_id strand strand_reads st = Ok st' →
  ∀ other, other ≠ family_id → ssc_info st' !! other = ssc_info st !! other.
Proof.
  unfold merge_read_pair. case_bool_decide as C1; [by intros [= <-]|].
  intros (ref_name & _ & H)%bind_Ok.
  apply bind_Ok in H as (rev_read & _ & H). revert H.
  case_bool_decide as C2; [by intros [= <-]|].
  intros (fwd_start & _ & H)%bind_Ok.
  apply bind_Ok in H as (rev_end & _ & H). revert H.
  case_bool_decide as C3; [by intros [= <-]|].
  intros ([covered variants] & _ & H)%bind_Ok.
  apply bind_Ok in H as (cov_fwd & _ & H).
  apply bind_Ok in H as (cov_rev & _ & [= <-]). simpl.
  intros other Hne. by rewrite lookup_insert_ne.
Qed.

(** On a two-key dictionary, a call that returns either dropped the strand
    or merged two reads of one contig that point inwards. *)
Lemma merge_read_pair_shaped refseq family_id strand a b st st' :
  merge_read_pair refseq family_id strand [(fwd, a); (rev, b)] st = Ok st' →
  ssc_info st' = ssc_info st ∨
  ∃ f r ssc,
    a = Some f ∧ b = Some r ∧
    r_ref_name f = r_ref_name r ∧ r_start f < r_end r ∧
    ssc_info st' =
      <[family_id :=
          fs_set strand ssc
            (default ssc_info_default (ssc_info st !! family_id))]>
        (ssc_info st) ∧
    ssc_start ssc = Some (r_start f) ∧
    ssc_variants ssc =
      map_imap (rev_entry (refseq_contig refseq (Some (r_ref_name f))) r)
               (r_variants r)
        ∪ (map_imap (fwd_entry (refseq_contig refseq (Some (r_ref_name f))) f)
                    (r_variants f)
             ∪ ssc_variants
                 (fs_get strand
                    (default ssc_info_default (ssc_info st !! family_id)))) ∧
    (∀ p, is_Some (r_variants f !! p) ∨ is_Some (r_variants r !! p) →
          is_Some (refseq_contig refseq (Some (r_ref_name f)) !! p)).
Proof.
  intros H. destruct a as [f|]; [|by rewrite merge_read_pair_no_fwd in H].
  destruct b as [r|];
    [|rewrite merge_read_pair_no_rev in H; injection H as <-; by left].
  destruct (decide (r_ref_name f = r_ref_name r)) as [Heq|Hne].
  - destruct (decide (r_start f < r_end r)) as [Hlt|Hge].
    + right.
      destruct (merge_read_pair_merged _ _ _ _ _ _ _ Heq Hlt H)
        as (ssc & Hinfo & _ & _ & Hs & _ & _ & Hvs & Hcached).
      exists f, r, ssc. done.
    + rewrite merge_read_pair_not_inwards in H by (done || lia).
      injection H as <-. by left.
  - rewrite merge_read_pair_other_contig in H by done.
    injection H as <-. by left.
Qed.

Lemma merge_families_outcome refseq l st st' :
  NoDup l.*1 →
  (∀ family_id, family_id ∈ l.*1 → ssc_info st !! family_id = None) →
  for_each
    (λ '(family_id, family_reads) st,
       st1 ← merge_read_pair refseq family_id pos (fr_pos family_reads) st;
       merge_read_pair refseq family_id neg (fr_neg family_reads) st1)
    l st = Ok st' →
  (∀ family_id, family_id ∉ l.*1 →
     ssc_info st' !! family_id = ssc_info st !! family_id) ∧
  (∀ family_id family_reads, (family_id, family_reads) ∈ l →
     family_outcome refseq family_id family_reads (ssc_info st' !! family_id)).
Proof.
  revert st. induction l as [|[fid0 fr0] l IH]; intros st Hnd Hfresh.
  - intros [= <-]. split; [done|]. intros ?? Hin. by apply elem_of_nil in Hin.
  - rewrite fmap_cons in Hnd. apply NoDup_cons in Hnd as [Hfid0 Hnd].
    cbn [for_each]. intros (st2 & Hbody & Hrest)%bind_Ok.
    apply bind_Ok in Hbody as (st1 & Hpos & Hneg).
    assert (∀ other, other ≠ fid0 →
              ssc_info st2 !! other = ssc_info st !! other) as Hframe.
    { intros other Hne.
      rewrite (merge_read_pair_frame _ _ _ _ _ _ Hneg) by done.
      by rewrite (merge_read_pair_frame _ _ _ _ _ _ Hpos). }
    destruct (IH st2 Hnd) as [Hout Hin]; [|done|].
    { intros fid Hfid. rewrite Hframe by (by intros ->).
      apply Hfresh. rewrite fmap_cons. by right. }
    split.
    + intros fid Hfid. rewrite fmap_cons, not_elem_of_cons in Hfid.
      destruct Hfid as [Hne Hfid]. rewrite Hout by done. by apply Hframe.
    + intros fid fr [[= -> ->]|Hfr]%elem_of_cons; [|by apply Hin].
      exists st, st1, st2. split_and!; [|done..|by rewrite Hout].
      apply Hfresh. rewrite fmap_cons. by left.
Qed.

Lemma merge_fwd_rev_per_strand_outcome refseq read_info st family_id :
  merge_fwd_rev_per_strand refseq read_info = Ok st →
  match read_info !! family_id with
  | Some family_reads =>
      family_outcome refseq family_id family_reads (ssc_info st !! family_id)
  | None => ssc_info st !! family_id = None
  end.
Proof.
  unfold merge_fwd_rev_per_strand. intros H.
  apply merge_families_outcome in H as [Hout Hin];
    [|apply NoDup_fst_map_to_list|done].
  destruct (read_info !! family_id) as [fr|] eqn:Hfr.
  - by apply Hin, elem_of_map_to_list.
  - rewrite Hout; [done|].
    intros ([fid fr] & -> & Hin'%elem_of_map_to_list)%list_elem_of_fmap.
    simpl in *. congruence.
Qed.

Lemma two_keys_set o v strand_reads :
  two_keys strand_reads → two_keys (Dict.set o v strand_reads).
Proof.
  intros (a & b & ->). destruct o; simpl.
  - by exists v, b.
  - by exists a, v.
Qed.

Lemma parse_bam_well_shaped strand reads read_info :
  map_Forall (λ _, well_shaped) read_info →
  map_Forall (λ _, well_shaped) (parse_bam strand reads read_info).
Proof.
  unfold parse_bam. revert read_info.
  induction reads as [|[[fid o] rd] reads IH]; intros ri Hri; [done|].
  cbn [foldl]. apply IH. apply map_Forall_insert_2; [|done].
  assert (well_shaped (default read_info_default (ri !! fid))) as [Hp Hn].
  { destruct (ri !! fid) as [fam|] eqn:Hfam; simpl.
    - by apply (Hri fid).
    - split; by exists None, None. }
  destruct strand; split; simpl; try done; by apply two_keys_set.
Qed.

Lemma read_info_well_shaped pos_reads neg_reads :
  map_Forall (λ _, well_shaped)
    (parse_bam neg neg_reads (parse_bam pos pos_reads ∅)).
Proof. do 2 apply parse_bam_well_shaped. apply map_Forall_empty. Qed.

(** The strands of one family after its two calls of [merge_read_pair]. *)
Lemma family_outcome_strand refseq family_id family_reads family strand :
  well_shaped family_reads →
  family_outcome refseq family_id family_reads (Some family) →
  ssc_start (fs_get strand family) ≠ None →
  ∃ f r,
    fr_get strand family_reads = [(fwd, Some f); (rev, Some r)] ∧
    r_ref_name f = r_ref_name r ∧ r_start f < r_end r ∧
    ssc_variants (fs_get strand family) =
      strand_variants_union (refseq_contig refseq (Some (r_ref_name f))) f r ∧
    (∀ p, is_Some (r_variants f !! p) ∨ is_Some (r_variants r !! p) →
          is_Some (refseq_contig refseq (Some (r_ref_name f)) !! p)).
Proof.
  intros [(a & b & Hp) (a' & b' & Hn)] (st0 & st1 & st2 & H0 & H1 & H2 & H3).
  rewrite Hp in H1. rewrite Hn in H2.
  apply merge_read_pair_shaped in H1
    as [H1|(f & r & ssc & -> & -> & Hc & Hlt & H1 & Hs & Hv & Hk)];
  apply merge_read_pair_shaped in H2
    as [H2|(f' & r' & ssc' & -> & -> & Hc' & Hlt' & H2 & Hs' & Hv' & Hk')];
  rewrite H2, H1 in H3; clear H2.
  - congruence.
  - rewrite H1, H0 in Hv'. rewrite lookup_insert_eq, H0 in H3. simpl in *.
    injection H3 as <-. destruct strand; simpl; [done|].
    intros _. exists f', r'. split_and!; [by rewrite Hn|done..| |done].
    rewrite Hv'. unfold strand_variants_union.
    by rewrite (right_id_L ∅ (∪)).
  - rewrite H0 in Hv. rewrite lookup_insert_eq, H0 in H3. simpl in *.
    injection H3 as <-. destruct strand; simpl; [|done].
    intros _. exists f, r. split_and!; [by rewrite Hp|done..| |done].
    rewrite Hv. unfold strand_variants_union.
    by rewrite (right_id_L ∅ (∪)).
  - rewrite H0 in Hv. rewrite H1, lookup_insert_eq, H0 in Hv'.
    rewrite !lookup_insert_eq, H0 in H3. simpl in *.
    injection H3 as <-. destruct strand; simpl; intros _.
    + exists f, r. split_and!; [by rewrite Hp|done..| |done].
      rewrite Hv. unfold strand_variants_union.
      by rewrite (right_id_L ∅ (∪)).
    + exists f', r'. split_and!; [by rewrite Hn|done..| |done].
      rewrite Hv'. unfold strand_variants_union.
      by rewrite (right_id_L ∅ (∪)).
Qed.

(** C7: for every strand consensus that [merge_fwd_rev_per_strand] builds
    from the reads stored by [parse_bam], the variants map is the union of
    the forward read's and the reverse read's variants in which the reverse
    read's entry wins at a common position; an entry that comes from the
    reverse read has [readpos = (rev.end - refpos) + 1] and one that comes
    from the forward read has [readpos = (refpos - fwd.start) + 1]. *)
Theorem strand_variants_merge refseq pos_reads neg_reads st family_id family
    strand :
  merge_fwd_rev_per_strand refseq
    (parse_bam neg neg_reads (parse_bam pos pos_reads ∅)) = Ok st →
  ssc_info st !! family_id = Some family →
  ssc_start (fs_get strand family) ≠ None →
  ∃ family_reads f r,
    parse_bam neg neg_reads (parse_bam pos pos_reads ∅) !! family_id
      = Some family_reads ∧
    fr_get strand family_reads = [(fwd, Some f); (rev, Some r)] ∧
    let contig := refseq_contig refseq (Some (r_ref_name f)) in
    let variants := ssc_variants (fs_get strand family) in
    variants = strand_variants_union contig f r ∧
    dom variants = dom (r_variants f) ∪ dom (r_variants r) ∧
    (∀ refpos b, r_variants r !! refpos = Some b →
       ∃ ref, contig !! refpos = Some ref ∧
         variants !! refpos =
           Some {| sv_readpos := (r_end r - refpos) + 1; sv_var := b;
                   sv_ref := ref |}) ∧
    (∀ refpos b, r_variants r !! refpos = None →
       r_variants f !! refpos = Some b →
       ∃ ref, contig !! refpos = Some ref ∧
         variants !! refpos =
           Some {| sv_readpos := (refpos - r_start f) + 1; sv_var := b;
                   sv_ref := ref |}).
Proof.
  intros Hrun Hfam Hmerged.
  pose proof (merge_fwd_rev_per_strand_outcome _ _ _ family_id Hrun) as Hout.
  destruct (parse_bam neg neg_reads (parse_bam pos pos_reads ∅) !! family_id)
    as [fr|] eqn:Hfr; [|congruence].
  rewrite Hfam in Hout.
  pose proof (read_info_well_shaped pos_reads neg_reads family_id fr Hfr)
    as Hshape. simpl in Hshape.
  destruct (family_outcome_strand _ _ _ _ strand Hshape Hout Hmerged)
    as (f & r & Hsr & _ & _ & Hv & Hk).
  exists fr, f, r. cbv zeta. split_and!; [done..| | |].
  - rewrite Hv. unfold strand_variants_union. apply set_eq. intros p.
    rewrite elem_of_union, !elem_of_dom, lookup_union, !map_lookup_imap.
    unfold rev_entry, fwd_entry. split.
    + intros [e He].
      destruct (r_variants r !! p) as [b|]; [right; eauto|].
      destruct (r_variants f !! p) as [b|]; [left; eauto|].
      by compute in He.
    + intros [[b Hb]|[b Hb]].
      * destruct (Hk p) as [ref Href]; [left; eauto|].
        rewrite Hb, Href. simpl. destruct (r_variants r !! p); simpl; eauto.
      * destruct (Hk p) as [ref Href]; [right; eauto|].
        rewrite Hb, Href. simpl. rewrite union_Some_l. eauto.
  - intros p b Hb. destruct (Hk p) as [ref Href]; [right; eauto|].
    exists ref. split; [done|]. rewrite Hv. unfold strand_variants_union.
    rewrite lookup_union, !map_lookup_imap. unfold rev_entry at 1.
    rewrite Hb, Href. simpl. by rewrite union_Some_l.
  - intros p b Hr Hb. destruct (Hk p) as [ref Href]; [left; eauto|].
    exists ref. split; [done|]. rewrite Hv. unfold strand_variants_union.
    rewrite lookup_union, !map_lookup_imap. unfold fwd_entry.
    rewrite Hb, Hr, Href. done.
Qed.

Lemma strand_variants_merge_witness :
  ssc_variants (fs_pos overlap_family) !! 101 =
    Some {| sv_readpos := 3; sv_var := "G"; sv_ref := "C" |} ∧
  ssc_variants (fs_pos overlap_family) !! 100 =
    Some {| sv_readpos := 1; sv_var := "G"; sv_ref := "A" |}.
Proof.
  destruct (strand_variants_merge refseq_acgt overlap_pos_reads
              overlap_neg_reads overlap_st F1 overlap_family pos
              eq_refl eq_refl)
    as (fr & f & r & Hfr & Hsr & _ & _ & Hrev & Hfwd); [discriminate|].
  vm_compute in Hfr. injection Hfr as <-.
  vm_compute in Hsr. injection Hsr as <- <-.
  destruct (Hrev 101 "G" eq_refl) as (ref & Href & H101).
  vm_compute in Href. injection Href as <-.
  destruct (Hfwd 100 "G" eq_refl eq_refl) as (ref & Href & H100).
  vm_compute in Href. injection Href as <-.
  exact (conj H101 H100).
Defined.

(** ** DuplexMerger: the trimming of the strand consensus *)

(** A strand that starts at [start_pos] is trimmed to the bases of
    [start_pos, end_pos]. *)
Lemma trim_cons_aligned start_pos end_pos strand_dict cons e :
  ssc_cons strand_dict = Some cons →
  ssc_start strand_dict = Some start_pos →
  ssc_end strand_dict = Some e →
  Z.of_nat (length cons) = e - start_pos + 1 →
  start_pos ≤ end_pos ≤ e →
  trim_cons start_pos end_pos strand_dict =
    Ok (upper (take (Z.to_nat (end_pos - start_pos + 1)) cons)).
Proof.
  intros Hc Hs He Hlen Hrange. unfold trim_cons, py_slice, slice_index.
  rewrite Hc, Hs, He. simpl.
  rewrite bool_decide_eq_false_2 by lia.
  rewrite bool_decide_eq_false_2 by lia.
  replace (Z.min (start_pos - start_pos) _) with 0 by lia.
  replace (Z.min _ _ - 0) with (end_pos - start_pos + 1) by lia.
  by rewrite drop_0.
Qed.

(** A strand that starts [k > 0] positions before [start_pos] is not cut at
    index [k]: its window starts at index [len - k], which is the base of
    position [e - k + 1], and holds [k - (e - end_pos)] bases. *)
Lemma trim_cons_overhang start_pos end_pos strand_dict cons s e :
  ssc_cons strand_dict = Some cons →
  ssc_start strand_dict = Some s →
  ssc_end strand_dict = Some e →
  Z.of_nat (length cons) = e - s + 1 →
  s < start_pos → start_pos ≤ end_pos ≤ e →
  trim_cons start_pos end_pos strand_dict =
    Ok (upper (take (Z.to_nat ((start_pos - s) - (e - end_pos)))
                    (drop (Z.to_nat (e - start_pos + 1)) cons))).
Proof.
  intros Hc Hs He Hlen Hlt Hrange. unfold trim_cons, py_slice, slice_index.
  rewrite Hc, Hs, He. simpl.
  rewrite (bool_decide_eq_true_2 (s - start_pos < 0)) by lia.
  rewrite (bool_decide_eq_false_2 (_ - (e - end_pos) < 0)) by lia.
  replace (Z.max (s - start_pos + _) 0) with (e - start_pos + 1) by lia.
  replace (Z.min _ _ - _) with ((start_pos - s) - (e - end_pos)) by lia.
  done.
Qed.

(** C3 on the code: with a left overhang of 2 on the positive strand the
    lower slice bound [start - start_pos] is -2, which Python counts from the
    end of the string.  The trimmed positive strand is "AC" (positions 108 and
    109) instead of the 8 bases of [102, 109]; the duplex consensus has
    length 2, not 8, and two adducts are recorded although both strands read
    the reference.  With strands that do not overlap, [start] exceeds [end]
    in the family's record. *)
Theorem trimming_slip_example :
  (parse_ssc refseq_long slip_pos_reads slip_neg_reads = Ok slip_ps ∧
   ps_ssc_info slip_ps !! F1 = Some slip_strands ∧
   ps_dsc_info slip_ps !! F1 = Some slip_dsc ∧
   ssc_cons (fs_pos slip_strands)
     = Some ["A"; "C"; "G"; "T"; "A"; "C"; "G"; "T"; "A"; "C"] ∧
   dsc_start slip_dsc = 102 ∧ dsc_end slip_dsc = 109 ∧
   trim_cons 102 109 (fs_pos slip_strands) = Ok ["A"; "C"] ∧
   trim_cons 102 109 (fs_neg slip_strands)
     = Ok ["G"; "T"; "A"; "C"; "G"; "T"; "A"; "C"] ∧
   dsc_cons slip_dsc = ["R"; "Y"] ∧
   Z.of_nat (length (dsc_cons slip_dsc)) ≠
     dsc_end slip_dsc - dsc_start slip_dsc + 1 ∧
   dom (dsc_adducts slip_dsc) = {[ 102; 103 ]}) ∧
  (parse_ssc refseq_long apart_pos_reads apart_neg_reads = Ok apart_ps ∧
   ps_dsc_info apart_ps !! F1 = Some apart_dsc ∧
   dsc_start apart_dsc = 108 ∧ dsc_end apart_dsc = 105 ∧
   ¬ dsc_start apart_dsc ≤ dsc_end apart_dsc).
Proof.
  split; split_and!; try reflexivity.
  - simpl. lia.
  - simpl. lia.
Qed.

(** C1 on the code: the loop of [merge_strands] compares the bases of its two
    slices, and with a left overhang the slice of the strand that starts
    first does not hold that strand's bases of [start, end].  Here the
    positive strand spans [100, 109], the negative strand [102, 112], and
    both strands read "G" at position 105 where the reference holds "C": the
    table asks for the variant [{var=G, ref=C}] at 105, and the family has no
    variant at all.  At 102 and at 103 both strands read the reference, so
    the table asks for no entry, and the family has an adduct on the positive
    strand at each of them: the positive slice is "AC", the strand's bases of
    108 and 109. *)
Theorem classification_slip_example :
  parse_ssc refseq_long shifted_pos_reads shifted_neg_reads = Ok shifted_ps ∧
  ps_ssc_info shifted_ps !! F1 = Some shifted_strands ∧
  ps_dsc_info shifted_ps !! F1 = Some shifted_dsc ∧
  dsc_start shifted_dsc = 102 ∧ dsc_end shifted_dsc = 109 ∧
  (strand_base (fs_pos shifted_strands) 105 = Some "G" ∧
   strand_base (fs_neg shifted_strands) 105 = Some "G" ∧
   refseq_contig refseq_long (dsc_ref_name shifted_dsc) !! 105 = Some "C" ∧
   table_variant "G" "G" "C" = Some {| v_var := "G"; v_ref := "C" |} ∧
   dsc_variants shifted_dsc !! 105 = None) ∧
  (strand_base (fs_pos shifted_strands) 102 = Some "G" ∧
   strand_base (fs_neg shifted_strands) 102 = Some "G" ∧
   refseq_contig refseq_long (dsc_ref_name shifted_dsc) !! 102 = Some "G" ∧
   table_adduct "G" "G" "G" = None ∧
   dsc_adducts shifted_dsc !! 102 =
     Some {| a_strand := pos; a_var := "A"; a_ref := "G" |}) ∧
  (strand_base (fs_pos shifted_strands) 103 = Some "T" ∧
   strand_base (fs_neg shifted_strands) 103 = Some "T" ∧
   refseq_contig refseq_long (dsc_ref_name shifted_dsc) !! 103 = Some "T" ∧
   table_adduct "T" "T" "T" = None ∧
   dsc_adducts shifted_dsc !! 103 =
     Some {| a_strand := pos; a_var := "C"; a_ref := "T" |}) ∧
  trim_cons 102 109 (fs_pos shifted_strands) = Ok ["A"; "C"] ∧
  trim_cons 102 109 (fs_neg shifted_strands)
    = Ok ["G"; "T"; "A"; "G"; "G"; "T"; "A"; "C"] ∧
  dsc_variants shifted_dsc = ∅ ∧
  dom (dsc_adducts shifted_dsc) = {[ 102; 103 ]}.
Proof. split_and!; reflexivity. Qed.

(** ** StrandMerger: dropped strands *)

(** A family whose strand was dropped stops [merge_strands]. *)
Lemma merge_strands_dropped refseq bp family_strands :
  ssc_start (fs_pos family_strands) = None ∨
  ssc_start (fs_neg family_strands) = None →
  merge_strands refseq bp family_strands = Raise TypeError.
Proof.
  unfold merge_strands. intros [H|H]; rewrite H; simpl; [done|].
  by destruct (ssc_start (fs_pos family_strands)).
Qed.

Lemma for_each_raises {A S : Type} (body : A → S → result S) l x :
  x ∈ l → (∀ st, ∃ e, body x st = Raise e) →
  ∀ st, ∃ e, for_each body l st = Raise e.
Proof.
  intros Hx Hbody. induction l as [|y l IH]; intros st.
  - by apply elem_of_nil in Hx.
  - cbn [for_each]. apply elem_of_cons in Hx as [<-|Hx].
    + destruct (Hbody st) as [e ->]. by exists e.
    + destruct (body y st) as [st1|e]; simpl; [by apply IH|by exists e].
Qed.

(** Whatever the other families are, a family with a dropped strand ends
    [merge_pos_neg_strands] in an exception: there is no final DSC map. *)
Lemma merge_pos_neg_strands_dropped refseq bp ssc family_id family_strands :
  ssc !! family_id = Some family_strands →
  ssc_start (fs_pos family_strands) = None ∨
  ssc_start (fs_neg family_strands) = None →
  ∃ e, merge_pos_neg_strands refseq bp ssc = Raise e.
Proof.
  intros Hfam Hdropped. unfold merge_pos_neg_strands.
  apply (for_each_raises _ _ (family_id, family_strands)).
  - by apply elem_of_map_to_list.
  - intros [dsc_info bp0]. exists TypeError.
    by rewrite merge_strands_dropped.
Qed.

(** C4 on the code: the strand that does not point inwards is dropped with a
    log entry and the other strand of the family merges, but then
    [merge_strands] raises [TypeError] on the [None] start of the dropped
    strand and the run ends without a DSC map, also for the complete family
    [F2]; a strand without forward read is not dropped but raises [KeyError];
    a strand without reverse read is dropped and ends the run in the same
    [TypeError]. *)
Theorem dropped_strand_example :
  (merge_fwd_rev_per_strand refseq_long
     (parse_bam neg outward_neg_reads (parse_bam pos outward_pos_reads ∅))
     = Ok outward_st ∧
   log outward_st =
     [ Log_not_inwards F1 neg;
       Log_dump [(fwd, Some (read_on 106 112 []));
                 (rev, Some (read_on 102 106 []))] ] ∧
   (∃ family, ssc_info outward_st !! F1 = Some family ∧
              ssc_start (fs_pos family) = Some 100 ∧
              fs_neg family = ssc_default) ∧
   is_Some (ssc_info outward_st !! F2) ∧
   parse_ssc refseq_long outward_pos_reads outward_neg_reads
     = Raise TypeError) ∧
  parse_ssc refseq_acgt lonely_pos_reads lonely_neg_reads
    = Raise KeyError_read_field ∧
  parse_ssc refseq_acgt lonely_pos_reads norev_neg_reads = Raise TypeError.
Proof.
  split_and!; try reflexivity.
  - eexists. split_and!; reflexivity.
  - by eexists.
Qed.

(** ** Module-level functions: [iupac] and [complement] *)

Lemma iupac_outside_l a b : a ∉ allowed_nucs → iupac a b = "N".
Proof.
  rewrite allowed_nucs_cases. intros Ha. unfold iupac, iupac_table. simpl.
  repeat case_decide; tauto || done.
Qed.

Lemma iupac_outside_r a b : b ∉ allowed_nucs → iupac a b = "N".
Proof.
  rewrite allowed_nucs_cases. intros Hb.
  destruct (decide (a ∈ allowed_nucs)) as [Ha|Ha];
    [|by apply iupac_outside_l].
  apply allowed_nucs_cases in Ha.
  destruct Ha as [-> | [-> | [-> | ->]]]; unfold iupac; simpl;
    repeat case_decide; try tauto; done.
Qed.

Lemma iupac_nucs a b :
  a ∈ allowed_nucs → b ∈ allowed_nucs →
  iupac a b = iupac b a ∧ iupac a b ≠ "N" ∧ (iupac a b ∈ allowed_nucs ↔ a = b).
Proof.
  intros Ha%allowed_nucs_cases Hb%allowed_nucs_cases.
  rewrite allowed_nucs_cases.
  destruct Ha as [-> | [-> | [-> | ->]]];
    destruct Hb as [-> | [-> | [-> | ->]]];
    vm_compute; split_and!; try done; try split; try tauto;
    try (intros [?|[?|[?|?]]]; done).
Qed.

Lemma iupac_N a b :
  iupac a b = "N" ↔ a ∉ allowed_nucs ∨ b ∉ allowed_nucs.
Proof.
  split.
  - intros HN. destruct (decide (a ∈ allowed_nucs)) as [Ha|Ha]; [|by left].
    destruct (decide (b ∈ allowed_nucs)) as [Hb|Hb]; [|by right].
    by destruct (iupac_nucs a b Ha Hb) as (_ & ? & _).
  - intros [Ha|Hb]; [by apply iupac_outside_l|by apply iupac_outside_r].
Qed.

(** X1: The ambiguity code does not depend on the order of the two bases; it
    is "N" exactly when one of them is not a nucleotide, and it is itself a
    nucleotide exactly when both bases are the same nucleotide. *)
Theorem iupac_code :
  (∀ a b, iupac a b = iupac b a) ∧
  (∀ a b, iupac a b = "N" ↔ a ∉ allowed_nucs ∨ b ∉ allowed_nucs) ∧
  (∀ a b, iupac a b ∈ allowed_nucs ↔ a = b ∧ a ∈ allowed_nucs).
Proof.
  split_and!.
  - intros a b.
    destruct (decide (a ∈ allowed_nucs)) as [Ha|Ha];
      [|by rewrite (iupac_outside_l a b), (iupac_outside_r b a)].
    destruct (decide (b ∈ allowed_nucs)) as [Hb|Hb];
      [|by rewrite (iupac_outside_r a b), (iupac_outside_l b a)].
    by destruct (iupac_nucs a b Ha Hb) as (? & _).
  - apply iupac_N.
  - intros a b. split.
    + intros Hin.
      destruct (decide (a ∈ allowed_nucs)) as [Ha|Ha].
      * destruct (decide (b ∈ allowed_nucs)) as [Hb|Hb].
        -- split; [|done]. by apply (proj2 (proj2 (iupac_nucs a b Ha Hb))).
        -- rewrite iupac_outside_r in Hin by done.
           apply allowed_nucs_cases in Hin. by destruct Hin as [?|[?|[?|?]]].
      * rewrite iupac_outside_l in Hin by done.
        apply allowed_nucs_cases in Hin. by destruct Hin as [?|[?|[?|?]]].
    + intros [<- Ha]. by apply (proj2 (proj2 (iupac_nucs a a Ha Ha))).
Qed.

(** X2: [complement] is an involution without fixed point on the
    nucleotides: when it returns [c] for [b], it returns [b] for [c], and
    [c] is another nucleotide. *)
Theorem complement_involution b c :
  complement b = Ok c →
  complement c = Ok b ∧ c ≠ b ∧ c ∈ allowed_nucs ∧ b ∈ allowed_nucs.
Proof.
  intros H. destruct (decide (b ∈ allowed_nucs)) as [Hb|Hb].
  - split_and!; [| | |done]; revert H; apply allowed_nucs_cases in Hb;
      destruct Hb as [-> | [-> | [-> | ->]]]; vm_compute; intros [= <-];
      try done; apply allowed_nucs_cases; tauto.
  - assert (complement b = Raise KeyError_complement) as Hr
      by (by apply complement_Raise).
    congruence.
Qed.

Lemma complement_involution_witness :
  complement "G" = Ok "C" ∧ "C" ≠ "A".
Proof.
  destruct (complement_involution "C" "G" eq_refl) as (H & _ & _ & _).
  split; [exact H|discriminate].
Defined.

(** ** DuplexMerger: consensus, counters and exceptions of [merge_strands] *)

Lemma add_to_is_Some_inv `{Countable K} (k k' : K) n (d : gmap K Z) :
  is_Some (add_to k n d !! k') ↔ k = k' ∨ is_Some (d !! k').
Proof.
  unfold add_to. rewrite lookup_insert. case_decide; [|tauto].
  split; eauto.
Qed.

Lemma bp_ok_incr bp k (bv ba : bool) :
  bp_ok bp → 1 ≤ k →
  bp_ok {| bp_adducts := if ba then incr k (bp_adducts bp) else bp_adducts bp;
           bp_variants :=
             if bv then incr k (bp_variants bp) else bp_variants bp;
           bp_nreads := incr k (bp_nreads bp) |}.
Proof.
  intros Hbp Hk k'. destruct (Hbp k') as (H1 & H2 & H3 & H4 & H5).
  cbn [bp_adducts bp_variants bp_nreads]. unfold incr.
  assert (∀ (b : bool) d,
    (is_Some (d !! k') → is_Some (bp_nreads bp !! k')) →
    0 ≤ count_of k' d ≤ count_of k' (bp_nreads bp) →
    (is_Some ((if b then add_to k 1 d else d) !! k') →
       is_Some (add_to k 1 (bp_nreads bp) !! k')) ∧
    0 ≤ count_of k' (if b then add_to k 1 d else d)
      ≤ count_of k' (add_to k 1 (bp_nreads bp))) as Hone.
  { intros b d Hd Hc. rewrite !add_to_is_Some_inv, !count_of_add_to.
    destruct b; rewrite ?add_to_is_Some_inv, ?count_of_add_to;
      case_decide; split; try tauto; lia. }
  destruct (Hone bv _ H2 H4) as [? ?]. destruct (Hone ba _ H3 H5) as [? ?].
  split_and!; try done; try lia.
  rewrite add_to_is_Some_inv. intros [<-|?]; [done|tauto].
Qed.

Lemma merge_position_state contig start_pos end_pos x st st' :
  merge_position contig start_pos end_pos x st = Ok st' →
  ms_nbases st' = ms_nbases st + Z.b2z (both_nucs x) ∧
  ms_cons_list st' = ms_cons_list st ++ [cons_char x] ∧
  (bp_ok (ms_bp st) → bp_ok (ms_bp st')).
Proof.
  destruct x as [[refpos P] N_]. unfold merge_position, cons_char, both_nucs.
  cbn [fst snd]. case_bool_decide as Hnuc.
  - intros [= <-]. cbn. rewrite bool_decide_eq_false_2 by tauto.
    cbn. split_and!; [lia|done|done].
  - assert (P ∈ allowed_nucs ∧ N_ ∈ allowed_nucs) as [HP HN].
    { split; apply dec_stable; tauto. }
    rewrite (bool_decide_eq_true_2 (P ∈ allowed_nucs ∧ N_ ∈ allowed_nucs))
      by done.
    intros (R & HR%item_Ok & H)%bind_Ok. revert H.
    case_bool_decide as Hassert; [done|].
    assert (1 ≤ Z.min (refpos - start_pos) (end_pos - refpos) + 1) as Hk by lia.
    set (k := Z.min (refpos - start_pos) (end_pos - refpos) + 1) in *.
    case_bool_decide as HRn.
    { intros [= <-]. cbn. split_and!; [done..|].
      intros Hbp. exact (bp_ok_incr _ k false false Hbp Hk). }
    assert (R ∈ allowed_nucs) as HRa by (apply dec_stable; tauto).
    rewrite !(complement_allowed N_), !(complement_allowed R) by done.
    cbn [mbind result_bind].
    repeat case_bool_decide; intros [= <-]; cbn; (split_and!; [done..|]);
      intros Hbp.
    + exact (bp_ok_incr _ k true false Hbp Hk).
    + exact (bp_ok_incr _ k true true Hbp Hk).
    + exact (bp_ok_incr _ k false true Hbp Hk).
    + exact (bp_ok_incr _ k false true Hbp Hk).
    + exact (bp_ok_incr _ k false false Hbp Hk).
Qed.

Lemma merge_loop_state contig start_pos end_pos l st st' :
  for_each (merge_position contig start_pos end_pos) l st = Ok st' →
  ms_nbases st' = ms_nbases st + count_visits both_nucs l ∧
  ms_cons_list st' = ms_cons_list st ++ (cons_char <$> l) ∧
  (bp_ok (ms_bp st) → bp_ok (ms_bp st')).
Proof.
  revert st. induction l as [|x l IH]; intros st; cbn [for_each].
  - intros [= <-]. unfold count_visits. simpl.
    rewrite (right_id_L [] (++)). split_and!; [lia|done|done].
  - intros (st1 & H1 & H2)%bind_Ok.
    apply merge_position_state in H1 as (Hn & Hc & Hbp).
    apply IH in H2 as (Hn' & Hc' & Hbp').
    rewrite Hn', Hc', Hn, Hc, count_visits_cons, fmap_cons, <-(assoc_L (++)).
    split_and!; [lia|done|tauto].
Qed.

Lemma merge_strands_state refseq bp family_strands dsc bp' :
  merge_strands refseq bp family_strands = Ok (dsc, bp') →
  ∃ l,
    visits family_strands = Ok (dsc_start dsc, dsc_end dsc, l) ∧
    dsc_cons dsc = cons_char <$> l ∧
    dsc_nbases dsc = count_visits both_nucs l ∧
    dsc_variants dsc =
      record_all (variant_at (refseq_contig refseq (dsc_ref_name dsc))) l ∅ ∧
    dsc_adducts dsc =
      record_all (adduct_at (refseq_contig refseq (dsc_ref_name dsc))) l ∅ ∧
    dsc_total_variants dsc =
      count_visits
        (λ x, has (variant_at (refseq_contig refseq (dsc_ref_name dsc)) x)) l ∧
    dsc_total_variants_and_adducts dsc =
      count_visits
        (λ x, has (variant_at (refseq_contig refseq (dsc_ref_name dsc)) x)
              || has (adduct_at (refseq_contig refseq (dsc_ref_name dsc)) x))
        l ∧
    (bp_ok bp → bp_ok bp').
Proof.
  unfold merge_strands, visits.
  intros (start_pos & Hs & H)%bind_Ok.
  apply bind_Ok in H as (end_pos & He & H).
  apply bind_Ok in H as (pos_cons & Hp & H).
  apply bind_Ok in H as (neg_cons & Hn & H).
  apply bind_Ok in H as (st & Hloop & [= <- <-]).
  pose proof (merge_loop_Ok _ _ _ _ _ _ Hloop) as (Hv & Ha & Htv & Htva & _).
  apply merge_loop_state in Hloop as (Hnb & Hc & Hbp).
  exists (merge_positions start_pos end_pos pos_cons neg_cons).
  cbn [dsc_start dsc_end dsc_cons dsc_nbases dsc_variants dsc_adducts
       dsc_total_variants dsc_total_variants_and_adducts dsc_ref_name].
  rewrite Hs, He. cbn [mbind result_bind]. rewrite Hp, Hn.
  cbn [mbind result_bind].
  rewrite Hnb, Hc, Hv, Ha, Htv, Htva. cbn.
  split_and!; try done; lia.
Qed.

Lemma visits_elem_of family_strands start_pos end_pos l x :
  visits family_strands = Ok (start_pos, end_pos, l) →
  x ∈ l → start_pos ≤ refpos_of x ≤ end_pos.
Proof.
  unfold visits. intros (s & _ & H)%bind_Ok.
  apply bind_Ok in H as (e & _ & H).
  apply bind_Ok in H as (pc & _ & H).
  apply bind_Ok in H as (nc & _ & [= <- <- <-]).
  destruct x as [[p P] N_]. intros Hx%merge_positions_elem_of.
  unfold refpos_of. simpl. tauto.
Qed.

Lemma visits_NoDup family_strands start_pos end_pos l :
  visits family_strands = Ok (start_pos, end_pos, l) →
  NoDup (refpos_of <$> l) ∧
  Z.of_nat (length l) ≤ Z.max 0 (end_pos - start_pos + 1).
Proof.
  unfold visits. intros (s & _ & H)%bind_Ok.
  apply bind_Ok in H as (e & _ & H).
  apply bind_Ok in H as (pc & _ & H).
  apply bind_Ok in H as (nc & _ & [= <- <- <-]).
  split; [apply merge_positions_NoDup|].
  unfold merge_positions, zip3, range.
  rewrite !length_zip_with, length_seqZ. lia.
Qed.

Lemma count_visits_le (f g : Visit → bool) l :
  (∀ x, f x = true → g x = true) → count_visits f l ≤ count_visits g l.
Proof.
  intros Hfg. induction l as [|x l IH]; [done|].
  rewrite !count_visits_cons. specialize (Hfg x).
  destruct (f x), (g x); simpl; lia.
Qed.

Lemma count_visits_length (f : Visit → bool) l :
  count_visits f l ≤ Z.of_nat (length l).
Proof.
  induction l as [|x l IH]; [done|].
  rewrite count_visits_cons. destruct (f x); simpl; lia.
Qed.

Lemma called_both_nucs contig x c :
  called contig x = Some c → both_nucs x = true.
Proof.
  unfold called, both_nucs. case_decide; [|done].
  intros _. by apply bool_decide_eq_true.
Qed.

Lemma cons_char_N x : cons_char x = "N" ↔ both_nucs x = false.
Proof.
  unfold cons_char. destruct (both_nucs x) eqn:Hb; [|done].
  apply bool_decide_eq_true in Hb as [? ?]. split; [|done].
  intros HN%iupac_N. tauto.
Qed.

Lemma count_both_nucs l :
  count_visits both_nucs l =
    Z.of_nat (length (filter (λ c, c ≠ "N") (cons_char <$> l))).
Proof.
  induction l as [|x l IH]; [done|].
  rewrite count_visits_cons, fmap_cons, filter_cons, IH.
  pose proof (cons_char_N x) as HN.
  destruct (both_nucs x); case_decide; simpl; try lia;
    destruct HN as [HN1 HN2]; naive_solver.
Qed.

(** X3: The duplex consensus has one character per visited position: "N"
    exactly where one of the two trimmed strand bases is not a nucleotide,
    the ambiguity code of the two bases elsewhere; [nbases] is the number of
    its characters other than "N". *)
Theorem duplex_consensus refseq bp family_strands dsc bp' :
  merge_strands refseq bp family_strands = Ok (dsc, bp') →
  ∃ l,
    visits family_strands = Ok (dsc_start dsc, dsc_end dsc, l) ∧
    length (dsc_cons dsc) = length l ∧
    (∀ i x, l !! i = Some x →
       dsc_cons dsc !! i =
         Some (if both_nucs x then iupac x.1.2 x.2 else "N")) ∧
    (∀ i, dsc_cons dsc !! i = Some "N" ↔
          ∃ x, l !! i = Some x ∧ both_nucs x = false) ∧
    dsc_nbases dsc =
      Z.of_nat (length (filter (λ c, c ≠ "N") (dsc_cons dsc))).
Proof.
  intros (l & Hvis & Hc & Hn & _)%merge_strands_state.
  exists l. rewrite Hc, Hn. split_and!; [done| | | |].
  - by rewrite length_fmap.
  - intros i x Hx. by rewrite list_lookup_fmap, Hx.
  - intros i. rewrite list_lookup_fmap. split.
    + destruct (l !! i) as [x|]; [|done]. simpl. intros [= HN].
      exists x. split; [done|]. by apply cons_char_N.
    + intros (x & -> & Hb). simpl. f_equal. by apply cons_char_N.
  - apply count_both_nucs.
Qed.

Lemma duplex_consensus_witness :
  dsc_nbases dual_dsc =
    Z.of_nat (length (filter (λ c, c ≠ "N") (dsc_cons dual_dsc))).
Proof.
  destruct (duplex_consensus refseq_acgt base_positions_init dual_strands
              dual_dsc (ps_base_positions dual_ps) eq_refl)
    as (l & _ & _ & _ & _ & H).
  exact H.
Defined.

(** X4: The counters of a family are ordered: [0 <= total_variants <=
    total_variants_and_adducts <= nbases <= len(cons)], the composite
    counter is at most [len(variants) + len(adducts)], and the consensus is
    never longer than the span [start, end]. *)
Theorem duplex_counter_bounds refseq bp family_strands dsc bp' :
  merge_strands refseq bp family_strands = Ok (dsc, bp') →
  0 ≤ dsc_total_variants dsc ∧
  dsc_total_variants dsc ≤ dsc_total_variants_and_adducts dsc ∧
  dsc_total_variants_and_adducts dsc ≤ dsc_nbases dsc ∧
  dsc_nbases dsc ≤ Z.of_nat (length (dsc_cons dsc)) ∧
  Z.of_nat (length (dsc_cons dsc)) ≤ Z.max 0 (dsc_end dsc - dsc_start dsc + 1) ∧
  dsc_total_variants_and_adducts dsc ≤
    Z.of_nat (size (dsc_variants dsc)) + Z.of_nat (size (dsc_adducts dsc)).
Proof.
  intros (l & Hvis & Hc & Hn & Hv & Ha & Htv & Htva & _)%merge_strands_state.
  destruct (visits_NoDup _ _ _ _ Hvis) as [Hnd Hlen].
  set (contig := refseq_contig refseq (dsc_ref_name dsc)) in *.
  rewrite Htv, Htva, Hn, Hc, length_fmap. split_and!.
  - apply count_visits_nonneg.
  - apply count_visits_le. intros x ->. done.
  - apply count_visits_le. intros x Hx. unfold variant_at, adduct_at in Hx.
    destruct (called contig x) as [c|] eqn:Hcalled; [|done].
    by eapply called_both_nucs.
  - apply count_visits_length.
  - done.
  - rewrite Hv, Ha.
    rewrite !size_record_all, map_size_empty
      by (done || (intros p _; apply lookup_empty)).
    rewrite (count_visits_ext _
               (λ x, has (variant_at contig x) || strand_only contig x))
      by (intros x; apply strand_only_has).
    rewrite count_visits_orb by (intros x; apply strand_only_has).
    assert (count_visits (strand_only contig) l
            ≤ count_visits (λ x, has (adduct_at contig x)) l); [|lia].
    apply count_visits_le. intros x Hx.
    destruct (strand_only_has contig x) as (_ & _ & Hh).
    unfold strand_only_adduct in Hh. by rewrite Hx in Hh.
Qed.

Lemma duplex_counter_bounds_witness :
  dsc_total_variants dual_dsc ≤ dsc_total_variants_and_adducts dual_dsc ∧
  dsc_total_variants_and_adducts dual_dsc ≤ dsc_nbases dual_dsc.
Proof.
  destruct (duplex_counter_bounds refseq_acgt base_positions_init dual_strands
              dual_dsc (ps_base_positions dual_ps) eq_refl)
    as (_ & H1 & H2 & _).
  exact (conj H1 H2).
Defined.

(** X5: Every position recorded as a variant or as an adduct lies in the
    span [start, end] of the family and within its consensus, where the
    consensus character is not "N". *)
Theorem duplex_keys_in_span refseq bp family_strands dsc bp' p :
  merge_strands refseq bp family_strands = Ok (dsc, bp') →
  is_Some (dsc_variants dsc !! p) ∨ is_Some (dsc_adducts dsc !! p) →
  dsc_start dsc ≤ p ≤ dsc_end dsc ∧
  ∃ c, dsc_cons dsc !! Z.to_nat (p - dsc_start dsc) = Some c ∧ c ≠ "N".
Proof.
  intros (l & Hvis & Hc & _ & Hv & Ha & _)%merge_strands_state Hp.
  destruct (visits_NoDup _ _ _ _ Hvis) as [Hnd _].
  set (contig := refseq_contig refseq (dsc_ref_name dsc)) in *.
  assert (∃ x, x ∈ l ∧ refpos_of x = p ∧ both_nucs x = true)
    as ([[p' P] N_] & Hx & <- & Hb).
  { destruct Hp as [[v Hp]|[a Hp]].
    - rewrite Hv in Hp.
      apply lookup_record_all_Some in Hp as [Hp|(x & Hx & Hpx & Hfx)];
        [by rewrite lookup_empty in Hp| |done].
      exists x. split_and!; [done..|]. unfold variant_at in Hfx.
      destruct (called contig x) eqn:Hcalled; [|done].
      by eapply called_both_nucs.
    - rewrite Ha in Hp.
      apply lookup_record_all_Some in Hp as [Hp|(x & Hx & Hpx & Hfx)];
        [by rewrite lookup_empty in Hp| |done].
      exists x. split_and!; [done..|]. unfold adduct_at in Hfx.
      destruct (called contig x) eqn:Hcalled; [|done].
      by eapply called_both_nucs. }
  unfold refpos_of. cbn [fst snd].
  unfold visits in Hvis. apply bind_Ok in Hvis as (s & Hs & H).
  apply bind_Ok in H as (e & He & H).
  apply bind_Ok in H as (pc & Hpc & H).
  apply bind_Ok in H as (nc & Hnc & [= -> -> <-]).
  apply list_elem_of_lookup in Hx as [i Hi].
  pose proof Hi as (-> & Hle & _)%merge_positions_lookup.
  split; [lia|].
  replace (Z.to_nat (dsc_start dsc + Z.of_nat i - dsc_start dsc)) with i by lia.
  exists (cons_char (dsc_start dsc + Z.of_nat i, P, N_)).
  rewrite Hc, list_lookup_fmap, Hi. split; [done|].
  rewrite cons_char_N, Hb. done.
Qed.

Lemma duplex_keys_in_span_witness :
  dsc_start dual_dsc ≤ 101 ≤ dsc_end dual_dsc.
Proof.
  destruct (duplex_keys_in_span refseq_acgt base_positions_init dual_strands
              dual_dsc (ps_base_positions dual_ps) 101 eq_refl) as [H _].
  - left. by eexists.
  - exact H.
Defined.

(** X6: Every recorded entry is a change between nucleotides: the [var] and
    [ref] fields of a variant and of an adduct are two different bases of
    A/T/C/G. *)
Theorem duplex_entries_are_changes refseq bp family_strands dsc bp' p :
  merge_strands refseq bp family_strands = Ok (dsc, bp') →
  (∀ v, dsc_variants dsc !! p = Some v →
        v_var v ≠ v_ref v ∧ v_var v ∈ allowed_nucs ∧ v_ref v ∈ allowed_nucs) ∧
  (∀ a, dsc_adducts dsc !! p = Some a →
        a_var a ≠ a_ref a ∧ a_var a ∈ allowed_nucs ∧ a_ref a ∈ allowed_nucs).
Proof.
  intros (l & Hvis & _ & _ & Hv & Ha & _)%merge_strands_state.
  destruct (visits_NoDup _ _ _ _ Hvis) as [Hnd _].
  set (contig := refseq_contig refseq (dsc_ref_name dsc)) in *.
  split.
  - intros v Hp. rewrite Hv in Hp.
    apply lookup_record_all_Some in Hp as [Hp|(x & Hx & Hpx & Hfx)];
      [by rewrite lookup_empty in Hp| |done].
    unfold variant_at in Hfx.
    destruct (called contig x) as [[[P N_] R]|] eqn:Hcalled; [|done].
    apply called_inv in Hcalled as (_ & _ & HP & HN & HR).
    simpl in Hfx. unfold table_variant in Hfx.
    case_decide; [|done]. injection Hfx as <-. simpl. tauto.
  - intros a Hp. rewrite Ha in Hp.
    apply lookup_record_all_Some in Hp as [Hp|(x & Hx & Hpx & Hfx)];
      [by rewrite lookup_empty in Hp| |done].
    unfold adduct_at in Hfx.
    destruct (called contig x) as [[[P N_] R]|] eqn:Hcalled; [|done].
    apply called_inv in Hcalled as (_ & _ & HP & HN & HR).
    simpl in Hfx. unfold table_adduct in Hfx.
    assert (N_ ≠ R → complement_base N_ ≠ complement_base R) as Hinj.
    { intros Hne Heq. by apply Hne, complement_base_inj. }
    repeat case_decide; try done; injection Hfx as <-; simpl;
      split_and!; try done; try (by apply complement_base_allowed);
      apply Hinj; tauto.
Qed.

Lemma duplex_entries_are_changes_witness :
  "C" ≠ "G" ∧ "C" ∈ allowed_nucs ∧ "G" ∈ allowed_nucs.
Proof.
  destruct (duplex_entries_are_changes refseq_acgt base_positions_init
              dual_strands dual_dsc (ps_base_positions dual_ps) 101 eq_refl)
    as [_ H].
  exact (H {| a_strand := neg; a_var := "C"; a_ref := "G" |} eq_refl).
Defined.

Lemma bp_ok_init : bp_ok base_positions_init.
Proof.
  intros k. unfold base_positions_init, count_of. simpl.
  rewrite !lookup_empty. simpl.
  split_and!; try lia; by intros [? ?].
Qed.

(** X7: The read-position counters of a completed run are consistent: every
    read position counted is at least 1, and at every read position the
    variants and the adducts counted are at most the bases counted. *)
Theorem read_position_counters refseq pos_reads neg_reads ps :
  parse_ssc refseq pos_reads neg_reads = Ok ps →
  bp_ok (ps_base_positions ps).
Proof.
  unfold parse_ssc. intros (st & _ & H)%bind_Ok.
  apply bind_Ok in H as ([dsc_info bp] & Hm & [= <-]). simpl.
  unfold merge_pos_neg_strands in Hm.
  change (bp_ok (dsc_info, bp).2).
  eapply (for_each_invariant _ (λ s, bp_ok s.2)); [| |exact Hm].
  - intros [fid fs] [d b] [d' b'] _ Hb.
    intros ([dsc1 b1] & Hms & [= <- <-])%bind_Ok. simpl in *.
    apply merge_strands_state in Hms as (l & _ & _ & _ & _ & _ & _ & _ & Hbp).
    by apply Hbp.
  - apply bp_ok_init.
Qed.

Lemma read_position_counters_witness :
  bp_ok (ps_base_positions dual_ps).
Proof.
  exact (read_position_counters refseq_acgt dual_pos_reads dual_neg_reads
           dual_ps eq_refl).
Defined.

(** One iteration inside the span returns unless the cached reference base
    of a position with two nucleotides is missing. *)
Lemma merge_position_outcome contig start_pos end_pos x st :
  start_pos ≤ refpos_of x ≤ end_pos →
  if decide (both_nucs x = true ∧ contig !! refpos_of x = None)
  then merge_position contig start_pos end_pos x st = Raise KeyError_refseq
  else ∃ st', merge_position contig start_pos end_pos x st = Ok st'.
Proof.
  destruct x as [[refpos P] N_]. unfold refpos_of. cbn [fst snd].
  intros Hrange. destruct (both_nucs (refpos, P, N_)) eqn:Hb.
  - apply bool_decide_eq_true in Hb as [HP HN]. cbn [fst snd] in HP, HN.
    unfold merge_position.
    rewrite (bool_decide_eq_false_2 (P ∉ allowed_nucs ∨ N_ ∉ allowed_nucs))
      by tauto.
    destruct (contig !! refpos) as [R|] eqn:HR; cbn.
    + rewrite decide_False by (by intros [_ ?]).
      rewrite bool_decide_eq_false_2 by lia.
      case_bool_decide as HRn; [by eexists|].
      assert (R ∈ allowed_nucs) as HRa by (apply dec_stable; tauto).
      rewrite !(complement_allowed N_), !(complement_allowed R) by done.
      cbn. repeat case_bool_decide; by eexists.
    + by rewrite decide_True.
  - rewrite decide_False by (by intros [? _]).
    apply bool_decide_eq_false in Hb. cbn [fst snd] in Hb.
    unfold merge_position. rewrite bool_decide_eq_true_2; [by eexists|].
    destruct (decide (P ∈ allowed_nucs)); tauto.
Qed.

Lemma merge_loop_outcome contig start_pos end_pos l st :
  (∀ x, x ∈ l → start_pos ≤ refpos_of x ≤ end_pos) →
  ((∀ x, x ∈ l → both_nucs x = true → is_Some (contig !! refpos_of x)) →
   ∃ st', for_each (merge_position contig start_pos end_pos) l st = Ok st') ∧
  ((∃ x, x ∈ l ∧ both_nucs x = true ∧ contig !! refpos_of x = None) →
   for_each (merge_position contig start_pos end_pos) l st
     = Raise KeyError_refseq).
Proof.
  revert st. induction l as [|x l IH]; intros st Hrange.
  - split; [by eexists|]. intros (x & Hx & _). by apply elem_of_nil in Hx.
  - cbn [for_each].
    pose proof (merge_position_outcome contig start_pos end_pos x st) as Hx.
    specialize (Hx (Hrange x ltac:(by left))).
    assert (∀ y, y ∈ l → start_pos ≤ refpos_of y ≤ end_pos) as Hrange'.
    { intros y Hy. apply Hrange. by right. }
    case_decide as Hbad.
    + rewrite Hx. cbn. split; [|done].
      intros Hcov. destruct Hbad as [Hb Hnone].
      destruct (Hcov x ltac:(by left) Hb) as [? ?]. congruence.
    + destruct Hx as [st1 ->]. cbn.
      destruct (IH st1 Hrange') as [IH1 IH2]. split.
      * intros Hcov. apply IH1. intros y Hy. apply Hcov. by right.
      * intros (y & [->|Hy]%elem_of_cons & Hb & Hnone); [tauto|].
        apply IH2. eauto.
Qed.

Lemma merge_strands_raise refseq bp family_strands e :
  visits family_strands = Raise e →
  merge_strands refseq bp family_strands = Raise TypeError.
Proof.
  unfold visits, merge_strands, trim_cons.
  destruct (ssc_start (fs_pos family_strands)),
    (ssc_start (fs_neg family_strands)), (ssc_end (fs_pos family_strands)),
    (ssc_end (fs_neg family_strands)), (ssc_cons (fs_pos family_strands)),
    (ssc_cons (fs_neg family_strands)); try done.
Qed.

Lemma merge_strands_outcome refseq bp family_strands start_pos end_pos l :
  visits family_strands = Ok (start_pos, end_pos, l) →
  ((∀ x, x ∈ l → both_nucs x = true →
      is_Some (refseq_contig refseq (ssc_ref_name (fs_pos family_strands))
                 !! refpos_of x)) →
   ∃ dsc bp', merge_strands refseq bp family_strands = Ok (dsc, bp')) ∧
  ((∃ x, x ∈ l ∧ both_nucs x = true ∧
         refseq_contig refseq (ssc_ref_name (fs_pos family_strands))
           !! refpos_of x = None) →
   merge_strands refseq bp family_strands = Raise KeyError_refseq).
Proof.
  intros Hvis.
  assert (∀ x, x ∈ l → start_pos ≤ refpos_of x ≤ end_pos) as Hrange.
  { intros x. by apply (visits_elem_of family_strands _ _ l). }
  unfold visits in Hvis. apply bind_Ok in Hvis as (s & Hs & H).
  apply bind_Ok in H as (e & He & H).
  apply bind_Ok in H as (pc & Hpc & H).
  apply bind_Ok in H as (nc & Hnc & [= -> -> <-]).
  unfold merge_strands. rewrite Hs, He. cbn [mbind result_bind].
  rewrite Hpc, Hnc. cbn [mbind result_bind].
  destruct (merge_loop_outcome
              (refseq_contig refseq (ssc_ref_name (fs_pos family_strands)))
              start_pos end_pos
              (merge_positions start_pos end_pos pc nc)
              (merge_state_init bp) Hrange) as [H1 H2].
  split.
  - intros Hcov. destruct (H1 Hcov) as [st' ->]. cbn. eauto.
  - intros Hbad. by rewrite (H2 Hbad).
Qed.

(** X8: The exceptions of [merge_strands]: it raises [TypeError] exactly
    when a start, end or consensus of one of the two strands is [None];
    otherwise it raises [KeyError] when the reference cache of the positive
    strand's contig lacks a visited position where both strands have a
    nucleotide, and returns when the cache has all of them. Its assertion on
    the read position never fails. *)
Theorem merge_strands_exceptions refseq bp family_strands :
  ((∃ e, visits family_strands = Raise e) ↔
   ssc_start (fs_pos family_strands) = None ∨
   ssc_start (fs_neg family_strands) = None ∨
   ssc_end (fs_pos family_strands) = None ∨
   ssc_end (fs_neg family_strands) = None ∨
   ssc_cons (fs_pos family_strands) = None ∨
   ssc_cons (fs_neg family_strands) = None) ∧
  (∀ e, visits family_strands = Raise e →
        merge_strands refseq bp family_strands = Raise TypeError) ∧
  (∀ start_pos end_pos l,
     visits family_strands = Ok (start_pos, end_pos, l) →
     let contig :=
       refseq_contig refseq (ssc_ref_name (fs_pos family_strands)) in
     ((∀ x, x ∈ l → both_nucs x = true → is_Some (contig !! refpos_of x)) →
      ∃ dsc bp', merge_strands refseq bp family_strands = Ok (dsc, bp')) ∧
     ((∃ x, x ∈ l ∧ both_nucs x = true ∧ contig !! refpos_of x = None) →
      merge_strands refseq bp family_strands = Raise KeyError_refseq)) ∧
  merge_strands refseq bp family_strands ≠ Raise AssertionError.
Proof.
  split_and!.
  - unfold visits, trim_cons.
    destruct (ssc_start (fs_pos family_strands)),
      (ssc_start (fs_neg family_strands)), (ssc_end (fs_pos family_strands)),
      (ssc_end (fs_neg family_strands)), (ssc_cons (fs_pos family_strands)),
      (ssc_cons (fs_neg family_strands)); cbn;
      (split;
       [ first [by intros [e ?] | intros _; auto 10]
       | first [intros _; by eexists | intros H; decompose [or] H; done] ]).
  - apply merge_strands_raise.
  - intros start_pos end_pos l Hvis. cbv zeta.
    exact (merge_strands_outcome refseq bp _ start_pos end_pos l Hvis).
  - destruct (visits family_strands) as [[[s e] l]|e] eqn:Hvis.
    + destruct (merge_strands_outcome refseq bp _ s e l Hvis) as [H1 H2].
      destruct (decide (Forall (λ x, both_nucs x = true →
        is_Some (refseq_contig refseq
                   (ssc_ref_name (fs_pos family_strands)) !! refpos_of x)) l))
        as [Hall|Hnot].
      * rewrite Forall_forall in Hall.
        destruct (H1 Hall) as (dsc & bp' & ->). done.
      * apply not_Forall_Exists in Hnot; [|apply _].
        apply Exists_exists in Hnot as (x & Hx & Hbad).
        rewrite H2; [done|]. exists x. split; [done|].
        simpl in Hbad. destruct (both_nucs x).
        -- split; [done|].
           destruct (refseq_contig refseq
                       (ssc_ref_name (fs_pos family_strands)) !! refpos_of x)
             eqn:Hc; [|done].
           exfalso. apply Hbad. eauto.
        -- exfalso. apply Hbad. done.
    + by rewrite (merge_strands_raise _ _ _ e).
Qed.

(** ** StrandMerger: the strand consensus *)

Lemma elem_of_range_set (lo hi p : Z) :
  p ∈ (list_to_set (range lo hi) : gset Z) ↔ lo ≤ p < hi.
Proof.
  rewrite elem_of_list_to_set. unfold range. rewrite elem_of_seqZ. lia.
Qed.

Lemma range_lookup (lo hi p : Z) :
  lo ≤ p < hi → range lo hi !! Z.to_nat (p - lo) = Some p.
Proof.
  intros Hp. unfold range. rewrite lookup_seqZ. lia.
Qed.

(** A merging call of [merge_read_pair] writes the strand consensus of the
    two reads and logs nothing. *)
Lemma merge_read_pair_built refseq family_id strand f r st st' :
  r_ref_name f = r_ref_name r → r_start f < r_end r →
  merge_read_pair refseq family_id strand [(fwd, Some f); (rev, Some r)] st
    = Ok st' →
  log st' = log st ∧
  ∃ family',
    ssc_info st' !! family_id = Some family' ∧
    (∀ other, other ≠ strand →
       fs_get other family' =
         fs_get other (default ssc_info_default (ssc_info st !! family_id))) ∧
    strand_built (refseq_contig refseq (Some (r_ref_name f))) f r
      (fs_get strand family').
Proof.
  intros Heq Hlt. unfold merge_read_pair. simpl.
  rewrite bool_decide_eq_false_2 by (rewrite Heq; tauto).
  rewrite bool_decide_eq_false_2 by lia.
  intros ([cov variants] & Hloop & H)%bind_Ok.
  apply bind_Ok in Hloop as ([cov1 vs1] & H1 & H2).
  apply bind_Ok in H1 as (vs1' & Hf & [= <- <-]).
  apply bind_Ok in H2 as ([cov2 vs2] & H2 & [= <- <-]).
  apply bind_Ok in H2 as (vs2' & Hr & [= <- <-]).
  simpl in H. injection H as <-. simpl. split; [done|].
  eexists. rewrite lookup_insert_eq. split; [done|]. split.
  { intros other Hne. by destruct strand, other. }
  assert (∀ ssc fam, fs_get strand (fs_set strand ssc fam) = ssc) as ->
    by (intros; by destruct strand).
  unfold strand_built. simpl. split_and!; [done..|].
  eexists. split; [done|]. split.
  - unfold range. rewrite length_fmap, length_seqZ. lia.
  - intros p Hp. rewrite list_lookup_fmap, range_lookup by lia. simpl.
    f_equal. unfold cons_base, covered.
    rewrite (bool_decide_ext _
      (r_start f ≤ p ≤ r_end f ∨ r_start r ≤ p ≤ r_end r)); [done|].
    rewrite elem_of_union, !elem_of_range_set. lia.
Qed.

(** In [merge_fwd_rev_per_strand], a strand with a start was written by a
    merging call of [merge_read_pair] on the family's two reads, which found
    no earlier variants of that strand. *)
Lemma family_outcome_call refseq family_id family_reads family strand :
  well_shaped family_reads →
  family_outcome refseq family_id family_reads (Some family) →
  ssc_start (fs_get strand family) ≠ None →
  ∃ f r st0 st1 family1,
    fr_get strand family_reads = [(fwd, Some f); (rev, Some r)] ∧
    r_ref_name f = r_ref_name r ∧ r_start f < r_end r ∧
    merge_read_pair refseq family_id strand [(fwd, Some f); (rev, Some r)] st0
      = Ok st1 ∧
    ssc_info st1 !! family_id = Some family1 ∧
    fs_get strand family1 = fs_get strand family.
Proof.
  intros [(a & b & Hp) (a' & b' & Hn)] (st0 & st1 & st2 & H0 & H1 & H2 & H3).
  rewrite Hp in H1. rewrite Hn in H2.
  pose proof (merge_read_pair_shaped _ _ _ _ _ _ _ H1)
    as [E1|(f & r & ssc & -> & -> & Hc & Hlt & E1 & Hs & _)];
  pose proof (merge_read_pair_shaped _ _ _ _ _ _ _ H2)
    as [E2|(f' & r' & ssc' & -> & -> & Hc' & Hlt' & E2 & Hs' & _)].
  - rewrite E2, E1 in H3. congruence.
  - rewrite E2, lookup_insert_eq in H3. injection H3 as <-.
    rewrite E1, H0. destruct strand; simpl; [done|]. intros _.
    exists f', r', st1, st2. eexists. rewrite Hn.
    split_and!; [done|done|done|done|by rewrite E2, lookup_insert_eq|done].
  - rewrite E2, E1, lookup_insert_eq in H3. injection H3 as <-.
    rewrite H0. destruct strand; simpl; [|done]. intros _.
    exists f, r, st0, st1. eexists. rewrite Hp.
    split_and!; [done|done|done|done|by rewrite E1, lookup_insert_eq|].
    by rewrite H0.
  - rewrite E2, lookup_insert_eq in H3. injection H3 as <-.
    rewrite E1, lookup_insert_eq, H0. destruct strand; simpl; intros _.
    + exists f, r, st0, st1. eexists. rewrite Hp.
      split_and!; [done|done|done|done|by rewrite E1, lookup_insert_eq|].
      by rewrite H0.
    + exists f', r', st1, st2. eexists. rewrite Hn.
      split_and!; [done|done|done|done|by rewrite E2, lookup_insert_eq|done].
Qed.

Lemma strand_built_of_run refseq pos_reads neg_reads st family_id family
    strand :
  merge_fwd_rev_per_strand refseq
    (parse_bam neg neg_reads (parse_bam pos pos_reads ∅)) = Ok st →
  ssc_info st !! family_id = Some family →
  ssc_start (fs_get strand family) ≠ None →
  ∃ family_reads f r,
    parse_bam neg neg_reads (parse_bam pos pos_reads ∅) !! family_id
      = Some family_reads ∧
    fr_get strand family_reads = [(fwd, Some f); (rev, Some r)] ∧
    r_ref_name f = r_ref_name r ∧ r_start f < r_end r ∧
    strand_built (refseq_contig refseq (Some (r_ref_name f))) f r
      (fs_get strand family).
Proof.
  intros Hrun Hfam Hmerged.
  pose proof (merge_fwd_rev_per_strand_outcome _ _ _ family_id Hrun) as Hout.
  destruct (parse_bam neg neg_reads (parse_bam pos pos_reads ∅) !! family_id)
    as [fr|] eqn:Hfr; [|congruence].
  rewrite Hfam in Hout.
  pose proof (read_info_well_shaped pos_reads neg_reads family_id fr Hfr)
    as Hshape. simpl in Hshape.
  destruct (family_outcome_call _ _ _ _ strand Hshape Hout Hmerged)
    as (f & r & st0 & st1 & fam1 & Hsr & Hc & Hlt & Hcall & Hfam1 & Heq).
  exists fr, f, r. split_and!; [done..|].
  destruct (merge_read_pair_built _ _ _ _ _ _ _ Hc Hlt Hcall)
    as (_ & fam' & Hfam' & _ & Hbuilt).
  rewrite Hfam1 in Hfam'. injection Hfam' as <-. by rewrite <-Heq.
Qed.

(** X9: Every strand consensus built by [merge_fwd_rev_per_strand] spans
    from the start of the forward read to the end of the reverse read, with
    [start < end] and a consensus string of [end - start + 1] characters;
    the character of a position is "N" when neither read covers it, and
    otherwise the variant base recorded there, or else the cached reference
    base, or else "N". *)
Theorem strand_consensus_built refseq pos_reads neg_reads st family_id family
    strand :
  merge_fwd_rev_per_strand refseq
    (parse_bam neg neg_reads (parse_bam pos pos_reads ∅)) = Ok st →
  ssc_info st !! family_id = Some family →
  ssc_start (fs_get strand family) ≠ None →
  ∃ family_reads f r,
    parse_bam neg neg_reads (parse_bam pos pos_reads ∅) !! family_id
      = Some family_reads ∧
    fr_get strand family_reads = [(fwd, Some f); (rev, Some r)] ∧
    r_ref_name f = r_ref_name r ∧ r_start f < r_end r ∧
    strand_built (refseq_contig refseq (Some (r_ref_name f))) f r
      (fs_get strand family).
Proof. apply strand_built_of_run. Qed.

Lemma strand_consensus_built_witness :
  ssc_start (fs_pos overlap_family) = Some 100 ∧
  ssc_end (fs_pos overlap_family) = Some 103.
Proof.
  destruct (strand_consensus_built refseq_acgt overlap_pos_reads
              overlap_neg_reads overlap_st F1 overlap_family pos
              eq_refl eq_refl)
    as (fr & f & r & Hfr & Hsr & _ & _ & _ & Hs & He & _); [discriminate|].
  vm_compute in Hfr. injection Hfr as <-.
  vm_compute in Hsr. injection Hsr as <- <-.
  exact (conj Hs He).
Defined.

(** ** A completed run *)

Lemma parse_ssc_inv refseq pos_reads neg_reads ps :
  parse_ssc refseq pos_reads neg_reads = Ok ps →
  ∃ st,
    merge_fwd_rev_per_strand refseq
      (parse_bam neg neg_reads (parse_bam pos pos_reads ∅)) = Ok st ∧
    ps_ssc_info ps = ssc_info st ∧ ps_log ps = log st ∧
    merge_pos_neg_strands refseq base_positions_init (ssc_info st)
      = Ok (ps_dsc_info ps, ps_base_positions ps).
Proof.
  unfold parse_ssc. intros (st & Hst & H)%bind_Ok.
  apply bind_Ok in H as ([dsc_info bp] & Hm & [= <-]). by exists st.
Qed.

(** A [merge_strands] that returns has found every field of both strands. *)
Lemma merge_strands_fields refseq bp family_strands dsc bp' :
  merge_strands refseq bp family_strands = Ok (dsc, bp') →
  ∃ ps ns pe ne pc nc,
    ssc_start (fs_pos family_strands) = Some ps ∧
    ssc_start (fs_neg family_strands) = Some ns ∧
    ssc_end (fs_pos family_strands) = Some pe ∧
    ssc_end (fs_neg family_strands) = Some ne ∧
    ssc_cons (fs_pos family_strands) = Some pc ∧
    ssc_cons (fs_neg family_strands) = Some nc ∧
    dsc_start dsc = Z.max ps ns ∧ dsc_end dsc = Z.min pe ne.
Proof.
  intros (pos_cons & neg_cons & Hs & He & _ & Hp & Hn & _)%merge_strands_Ok.
  unfold py_max, py_min, trim_cons in *.
  destruct (ssc_start (fs_pos family_strands)) as [ps|]; [|done].
  destruct (ssc_start (fs_neg family_strands)) as [ns|]; [|done].
  destruct (ssc_end (fs_pos family_strands)) as [pe|]; [|done].
  destruct (ssc_end (fs_neg family_strands)) as [ne|]; [|done].
  destruct (ssc_cons (fs_pos family_strands)) as [pc|]; [|done].
  destruct (ssc_cons (fs_neg family_strands)) as [nc|]; [|done].
  injection Hs as Hs. injection He as He.
  exists ps, ns, pe, ne, pc, nc. by split_and!.
Qed.

(** The final DSC map has a record for every family of [ssc_info]. *)
Lemma merge_pos_neg_strands_dom refseq bp ssc dsc_info bp' :
  merge_pos_neg_strands refseq bp ssc = Ok (dsc_info, bp') →
  dom dsc_info = dom ssc.
Proof.
  unfold merge_pos_neg_strands. intros Hrun.
  assert (∀ l (d : gmap string Dsc) b (d' : gmap string Dsc) b',
    for_each
      (λ '(family_id, family_strands) '(dsc_info, bp),
         '(dsc, bp') ← merge_strands refseq bp family_strands;
         Ok (<[family_id := dsc]> dsc_info, bp'))
      l (d, b) = Ok (d', b') →
    dom d' = dom d ∪ (list_to_set l.*1 : gset string)) as Hloop.
  { clear. intros l.
    induction l as [|[fid fs] l IH]; intros d b d' b'; cbn [for_each].
    - intros [= <- <-]. simpl. by rewrite (right_id_L ∅ (∪)).
    - intros ([d1 b1] & Hbody & Hrest)%bind_Ok.
      apply bind_Ok in Hbody as ([dsc1 b2] & _ & [= <- <-]).
      apply IH in Hrest. rewrite Hrest, dom_insert_L, fmap_cons. simpl.
      by rewrite (comm_L (∪) {[fid]} (dom d)), (assoc_L (∪)). }
  apply Hloop in Hrun. rewrite Hrun, dom_empty_L, (left_id_L ∅ (∪)).
  apply set_eq. intros fid.
  rewrite elem_of_list_to_set, elem_of_dom, list_elem_of_fmap. split.
  - intros ([fid' fs] & -> & Hin%elem_of_map_to_list). by exists fs.
  - intros [fs Hfs]. exists (fid, fs). split; [done|].
    by apply elem_of_map_to_list.
Qed.

(** X10: A run that completes has lost no strand: the final DSC map and
    [ssc_info] hold the same families, and both strands of each of them were
    built from a forward and a reverse read of one contig that point
    inwards. A family with exactly one merged strand ends the run. *)
Theorem completed_run_families refseq pos_reads neg_reads ps :
  parse_ssc refseq pos_reads neg_reads = Ok ps →
  dom (ps_dsc_info ps) = dom (ps_ssc_info ps) ∧
  ∀ family_id family strand,
    ps_ssc_info ps !! family_id = Some family →
    ∃ family_reads f r,
      parse_bam neg neg_reads (parse_bam pos pos_reads ∅) !! family_id
        = Some family_reads ∧
      fr_get strand family_reads = [(fwd, Some f); (rev, Some r)] ∧
      r_ref_name f = r_ref_name r ∧ r_start f < r_end r ∧
      ssc_ref_name (fs_get strand family) = Some (r_ref_name f) ∧
      ssc_start (fs_get strand family) = Some (r_start f) ∧
      ssc_end (fs_get strand family) = Some (r_end r).
Proof.
  intros Hrun.
  destruct (parse_ssc_inv _ _ _ _ Hrun) as (st & Hst & Hinfo & _ & Hmerge).
  pose proof (merge_pos_neg_strands_dom _ _ _ _ _ Hmerge) as Hdom.
  rewrite <-Hinfo in Hdom. split; [done|].
  intros fid family strand Hfam.
  assert (is_Some (ps_dsc_info ps !! fid)) as [dsc Hdsc].
  { apply elem_of_dom. rewrite Hdom. apply elem_of_dom. eauto. }
  destruct (parse_ssc_entry _ _ _ _ _ _ Hrun Hdsc)
    as (family' & bp0 & bp1 & Hfam' & Hms).
  rewrite Hfam in Hfam'. injection Hfam' as <-.
  destruct (merge_strands_fields _ _ _ _ _ Hms)
    as (s1 & s2 & e1 & e2 & c1 & c2 & Hs1 & Hs2 & _).
  rewrite Hinfo in Hfam.
  destruct (strand_built_of_run _ _ _ _ _ _ strand Hst Hfam)
    as (fr & f & r & Hfr & Hsr & Hc & Hlt & Hn & Hs & He & _).
  { destruct strand; simpl; congruence. }
  exists fr, f, r. by split_and!.
Qed.

Lemma completed_run_families_witness :
  dom (ps_dsc_info dual_ps) = dom (ps_ssc_info dual_ps).
Proof.
  exact (proj1 (completed_run_families refseq_acgt dual_pos_reads
                  dual_neg_reads dual_ps eq_refl)).
Defined.

(** X11: In a completed run, when the two strands of a family start at the
    same position, the duplex is the intended one: [start < end], the
    consensus has [end - start + 1] characters, and every position of
    [start, end] is visited with the upper-cased characters that the two
    strand consensus strings hold for that very position. *)
Theorem duplex_aligned refseq pos_reads neg_reads ps family_id dsc
    family_strands :
  parse_ssc refseq pos_reads neg_reads = Ok ps →
  ps_dsc_info ps !! family_id = Some dsc →
  ps_ssc_info ps !! family_id = Some family_strands →
  ssc_start (fs_pos family_strands) = ssc_start (fs_neg family_strands) →
  dsc_start dsc < dsc_end dsc ∧
  Z.of_nat (length (dsc_cons dsc)) = dsc_end dsc - dsc_start dsc + 1 ∧
  ∃ l pos_cons neg_cons,
    visits family_strands = Ok (dsc_start dsc, dsc_end dsc, l) ∧
    ssc_cons (fs_pos family_strands) = Some pos_cons ∧
    ssc_cons (fs_neg family_strands) = Some neg_cons ∧
    ∀ p, dsc_start dsc ≤ p ≤ dsc_end dsc →
      ∃ P N_,
        pos_cons !! Z.to_nat (p - dsc_start dsc) = Some P ∧
        neg_cons !! Z.to_nat (p - dsc_start dsc) = Some N_ ∧
        (p, upper_char P, upper_char N_) ∈ l.
Proof.
  intros Hrun Hdsc Hfam Heq.
  destruct (parse_ssc_entry _ _ _ _ _ _ Hrun Hdsc)
    as (family' & bp0 & bp1 & Hfam' & Hms).
  rewrite Hfam in Hfam'. injection Hfam' as <-.
  destruct (merge_strands_fields _ _ _ _ _ Hms)
    as (s1 & s2 & e1 & e2 & c1 & c2
        & Hs1 & Hs2 & He1 & He2 & Hc1 & Hc2 & Hstart & Hend).
  rewrite Hs1, Hs2 in Heq. injection Heq as <-.
  destruct (parse_ssc_inv _ _ _ _ Hrun) as (st & Hst & Hinfo & _ & _).
  rewrite Hinfo in Hfam.
  destruct (strand_built_of_run _ _ _ _ _ _ pos Hst Hfam)
    as (fr & f & r & _ & _ & _ & Hlt & _ & Hsf & Her & (c & Hc & Hlen & _));
    [simpl; congruence|].
  destruct (strand_built_of_run _ _ _ _ _ _ neg Hst Hfam)
    as (fr' & f' & r' & _ & _ & _ & Hlt' & _ & Hsf' & Her' &
        (c' & Hc' & Hlen' & _));
    [simpl; congruence|].
  simpl in Hsf, Her, Hc, Hsf', Her', Hc'.
  rewrite Hs1 in Hsf. rewrite Hs2 in Hsf'. rewrite He1 in Her.
  rewrite He2 in Her'. rewrite Hc1 in Hc. rewrite Hc2 in Hc'.
  injection Hsf as Hsf. injection Hsf' as Hsf'. injection Her as Her.
  injection Her' as Her'. injection Hc as <-. injection Hc' as <-.
  rewrite <-Hsf, <-Her in Hlen, Hlt. rewrite <-Hsf', <-Her' in Hlen', Hlt'.
  clear Hsf Hsf' Her Her' fr fr' f f' r r' Hfam Hst Hinfo.
  apply merge_strands_state in Hms as (l & Hvis & Hcons & _).
  rewrite Hcons, length_fmap.
  assert (dsc_start dsc = s1) as Hs by lia. rewrite Hs in *. clear Hs Hstart.
  remember (dsc_end dsc) as e eqn:He.
  pose proof Hvis as Hvis'. unfold visits in Hvis'.
  rewrite Hs1, Hs2, He1, He2 in Hvis'. cbn [py_max py_min] in Hvis'.
  replace (Z.max s1 s1) with s1 in Hvis' by lia.
  rewrite <-Hend in Hvis'. cbn [mbind result_bind] in Hvis'.
  rewrite (trim_cons_aligned s1 e (fs_pos family_strands) c1 e1) in Hvis'
    by (done || lia).
  cbn [mbind result_bind] in Hvis'.
  rewrite (trim_cons_aligned s1 e (fs_neg family_strands) c2 e2) in Hvis'
    by (done || lia).
  cbn [mbind result_bind] in Hvis'. injection Hvis' as Hl.
  split; [lia|]. split.
  - rewrite <-Hl. unfold merge_positions, zip3, range, upper.
    rewrite !length_zip_with, length_seqZ, !length_fmap, !length_take. lia.
  - exists l, c1, c2. split_and!; [done..|].
    intros p Hp.
    destruct (lookup_lt_is_Some_2 c1 (Z.to_nat (p - s1))) as [P HP]; [lia|].
    destruct (lookup_lt_is_Some_2 c2 (Z.to_nat (p - s1))) as [N_ HN]; [lia|].
    exists P, N_. split_and!; [done..|].
    rewrite <-Hl. apply merge_positions_elem_of. unfold upper.
    rewrite !list_lookup_fmap, !lookup_take_lt by lia.
    rewrite HP, HN. done.
Qed.

Lemma duplex_aligned_witness :
  Z.of_nat (length (dsc_cons dual_dsc))
    = dsc_end dual_dsc - dsc_start dual_dsc + 1.
Proof.
  destruct (duplex_aligned refseq_acgt dual_pos_reads dual_neg_reads dual_ps
              F1 dual_dsc dual_strands eq_refl eq_refl eq_refl eq_refl)
    as (_ & H & _).
  exact H.
Defined.

(** With equal starts neither strand has a left overhang, and both slices
    are the strands cut at [end]. *)
Lemma aligned_trims refseq pos_reads neg_reads ps family_id dsc
    family_strands :
  parse_ssc refseq pos_reads neg_reads = Ok ps →
  ps_dsc_info ps !! family_id = Some dsc →
  ps_ssc_info ps !! family_id = Some family_strands →
  ssc_start (fs_pos family_strands) = ssc_start (fs_neg family_strands) →
  ∃ pos_cons neg_cons,
    ssc_cons (fs_pos family_strands) = Some pos_cons ∧
    ssc_cons (fs_neg family_strands) = Some neg_cons ∧
    ssc_start (fs_pos family_strands) = Some (dsc_start dsc) ∧
    ssc_start (fs_neg family_strands) = Some (dsc_start dsc) ∧
    dsc_end dsc - dsc_start dsc + 1 ≤ Z.of_nat (length pos_cons) ∧
    dsc_end dsc - dsc_start dsc + 1 ≤ Z.of_nat (length neg_cons) ∧
    trim_cons (dsc_start dsc) (dsc_end dsc) (fs_pos family_strands) =
      Ok (upper (take (Z.to_nat (dsc_end dsc - dsc_start dsc + 1)) pos_cons)) ∧
    trim_cons (dsc_start dsc) (dsc_end dsc) (fs_neg family_strands) =
      Ok (upper (take (Z.to_nat (dsc_end dsc - dsc_start dsc + 1)) neg_cons)).
Proof.
  intros Hrun Hdsc Hfam Heq.
  destruct (parse_ssc_entry _ _ _ _ _ _ Hrun Hdsc)
    as (family' & bp0 & bp1 & Hfam' & Hms).
  rewrite Hfam in Hfam'. injection Hfam' as <-.
  destruct (merge_strands_fields _ _ _ _ _ Hms)
    as (s1 & s2 & e1 & e2 & c1 & c2
        & Hs1 & Hs2 & He1 & He2 & Hc1 & Hc2 & Hstart & Hend).
  rewrite Hs1, Hs2 in Heq. injection Heq as <-.
  destruct (parse_ssc_inv _ _ _ _ Hrun) as (st & Hst & Hinfo & _ & _).
  rewrite Hinfo in Hfam.
  destruct (strand_built_of_run _ _ _ _ _ _ pos Hst Hfam)
    as (fr & f & r & _ & _ & _ & Hlt & _ & Hsf & Her & (c & Hc & Hlen & _));
    [simpl; congruence|].
  destruct (strand_built_of_run _ _ _ _ _ _ neg Hst Hfam)
    as (fr' & f' & r' & _ & _ & _ & Hlt' & _ & Hsf' & Her' &
        (c' & Hc' & Hlen' & _));
    [simpl; congruence|].
  simpl in Hsf, Her, Hc, Hsf', Her', Hc'.
  rewrite Hs1 in Hsf. rewrite Hs2 in Hsf'. rewrite He1 in Her.
  rewrite He2 in Her'. rewrite Hc1 in Hc. rewrite Hc2 in Hc'.
  injection Hsf as Hsf. injection Hsf' as Hsf'. injection Her as Her.
  injection Her' as Her'. injection Hc as <-. injection Hc' as <-.
  rewrite <-Hsf, <-Her in Hlen, Hlt. rewrite <-Hsf', <-Her' in Hlen', Hlt'.
  assert (dsc_start dsc = s1) as Hs by lia. rewrite Hs.
  exists c1, c2. split_and!; [done|done|done|done|lia|lia|..].
  - apply (trim_cons_aligned s1 (dsc_end dsc) (fs_pos family_strands) c1 e1);
      (done || lia).
  - apply (trim_cons_aligned s1 (dsc_end dsc) (fs_neg family_strands) c2 e2);
      (done || lia).
Qed.

(** X28: In a completed run, for a family whose two strands start at the
    same position, the maps hold what the table of the spec states at every
    position of [start, end] where the base [P] of the positive strand, the
    base [N_] of the negative strand and the cached reference base [R] are
    all nucleotides: a variant [{var=P, ref=R}] when both strands mismatch
    with the same base; that variant and an adduct
    [{strand=neg, var=complement(N_), ref=complement(R)}] when both mismatch
    with different bases; an adduct [{strand=pos, var=P, ref=R}] when only
    the positive strand mismatches; an adduct
    [{strand=neg, var=complement(N_), ref=complement(R)}] when only the
    negative strand mismatches; nothing when both match.  The base of a
    strand at a position is the upper-cased character of the strand's
    consensus string for that position. *)
Theorem aligned_classification refseq pos_reads neg_reads ps family_id dsc
    family_strands refpos P N_ R :
  parse_ssc refseq pos_reads neg_reads = Ok ps →
  ps_dsc_info ps !! family_id = Some dsc →
  ps_ssc_info ps !! family_id = Some family_strands →
  ssc_start (fs_pos family_strands) = ssc_start (fs_neg family_strands) →
  dsc_start dsc ≤ refpos ≤ dsc_end dsc →
  strand_base (fs_pos family_strands) refpos = Some P →
  strand_base (fs_neg family_strands) refpos = Some N_ →
  refseq_contig refseq (dsc_ref_name dsc) !! refpos = Some R →
  P ∈ allowed_nucs → N_ ∈ allowed_nucs → R ∈ allowed_nucs →
  (P ≠ R → N_ ≠ R → P = N_ →
     dsc_variants dsc !! refpos = Some {| v_var := P; v_ref := R |} ∧
     dsc_adducts dsc !! refpos = None) ∧
  (P ≠ R → N_ ≠ R → P ≠ N_ →
     dsc_variants dsc !! refpos = Some {| v_var := P; v_ref := R |} ∧
     ∃ var ref, complement N_ = Ok var ∧ complement R = Ok ref ∧
       dsc_adducts dsc !! refpos =
         Some {| a_strand := neg; a_var := var; a_ref := ref |}) ∧
  (P ≠ R → N_ = R →
     dsc_variants dsc !! refpos = None ∧
     dsc_adducts dsc !! refpos =
       Some {| a_strand := pos; a_var := P; a_ref := R |}) ∧
  (P = R → N_ ≠ R →
     dsc_variants dsc !! refpos = None ∧
     ∃ var ref, complement N_ = Ok var ∧ complement R = Ok ref ∧
       dsc_adducts dsc !! refpos =
         Some {| a_strand := neg; a_var := var; a_ref := ref |}) ∧
  (P = R → N_ = R →
     dsc_variants dsc !! refpos = None ∧ dsc_adducts dsc !! refpos = None).
Proof.
  intros Hrun Hdsc Hfam Heq Hrange HP HN HR HPa HNa HRa.
  destruct (aligned_trims _ _ _ _ _ _ _ Hrun Hdsc Hfam Heq)
    as (c1 & c2 & Hc1 & Hc2 & Hs1 & Hs2 & Hl1 & Hl2 & Ht1 & Ht2).
  unfold strand_base in HP, HN.
  rewrite Hc1, Hs1 in HP. rewrite Hc2, Hs2 in HN. simpl in HP, HN.
  rewrite bool_decide_eq_true_2 in HP, HN by lia.
  destruct (final_dsc_table _ _ _ _ Hrun _ _ _ Hdsc Hfam _ _ Ht1 Ht2
              refpos P N_ R) as [Hv Ha]; try done.
  { unfold upper. rewrite list_lookup_fmap, lookup_take_lt by lia. done. }
  { unfold upper. rewrite list_lookup_fmap, lookup_take_lt by lia. done. }
  rewrite Hv, Ha. unfold table_variant, table_adduct.
  rewrite (complement_allowed N_), (complement_allowed R) by done.
  split_and!; intros; repeat case_decide; try tauto; try done;
    (split; [done|]); eauto.
Qed.

Lemma aligned_classification_witness :
  dsc_variants dual_dsc !! 101 = Some {| v_var := "T"; v_ref := "C" |} ∧
  dsc_adducts dual_dsc !! 101 =
    Some {| a_strand := neg; a_var := "C"; a_ref := "G" |}.
Proof.
  assert ("T" ∈ allowed_nucs ∧ "G" ∈ allowed_nucs ∧ "C" ∈ allowed_nucs)
    as (HT & HG & HC).
  { rewrite !allowed_nucs_cases. tauto. }
  pose proof (aligned_classification refseq_acgt dual_pos_reads dual_neg_reads
                dual_ps F1 dual_dsc dual_strands 101 "T" "G" "C"
                eq_refl eq_refl eq_refl eq_refl) as H.
  destruct H as (_ & H5 & _);
    [simpl; lia|reflexivity|reflexivity|reflexivity|assumption..|].
  destruct H5 as (Hv & var & ref & Hvar & Href & Ha); [discriminate..|].
  injection Hvar as <-. injection Href as <-. exact (conj Hv Ha).
Defined.

(** ** ReadParser: the variants of a read and the reference cache *)

Lemma cache_base_lookup name rpos rbase refseq c p :
  refseq_contig (cache_base name rpos rbase refseq) (Some c) !! p =
    if decide (c = name ∧ p = rpos) then Some rbase
    else refseq_contig refseq (Some c) !! p.
Proof.
  unfold cache_base, refseq_contig.
  destruct (decide (c = name)) as [->|Hc].
  - rewrite lookup_insert_eq. simpl.
    destruct (decide (p = rpos)) as [->|Hp].
    + rewrite lookup_insert_eq. by rewrite decide_True.
    + rewrite lookup_insert_ne by done. rewrite decide_False by tauto. done.
  - rewrite lookup_insert_ne by done. rewrite decide_False by tauto. done.
Qed.

Lemma parse_pair_step read qpos rpos refseq vs refseq' vs' :
  parse_pair read (Some qpos, Some rpos) (refseq, vs) = Some (refseq', vs') →
  ∃ qbase rbase,
    query_base read qpos = Some qbase ∧ ref_base read rpos = Some rbase ∧
    refseq' = cache_base (reference_name read) rpos rbase refseq ∧
    ((qbase ∈ allowed_nucs ∧ rbase ∈ allowed_nucs ∧ qbase ≠ rbase ∧
      vs' = <[rpos := qbase]> vs) ∨
     (¬ (qbase ∈ allowed_nucs ∧ rbase ∈ allowed_nucs ∧ qbase ≠ rbase) ∧
      vs' = vs)).
Proof.
  unfold parse_pair. fold (query_base read qpos). fold (ref_base read rpos).
  intros (qbase & Hq & H)%bind_Some.
  apply bind_Some in H as (rbase & Hr & H).
  exists qbase, rbase. split; [done|]. split; [done|]. revert H.
  case_bool_decide as Hnuc.
  - intros [= <- <-]. split; [done|]. right. split; [|done]. tauto.
  - case_bool_decide as Heq.
    + intros [= <- <-]. split; [done|]. right. split; [|done]. tauto.
    + intros [= <- <-]. split; [done|]. left.
      split_and!; try done; apply dec_stable; tauto.
Qed.

Lemma parse_pair_skip read pair st :
  pair.1 = None ∨ pair.2 = None → parse_pair read pair st = Some st.
Proof.
  destruct pair as [[qpos|] [rpos|]], st as [refseq vs]; simpl;
    by intros [?|?].
Qed.

(** What the loop over the aligned pairs has done to the variants and to
    the cache. *)
Lemma parse_pairs_inv read l refseq vs refseq' vs' :
  for_each_opt (parse_pair read) l (refseq, vs) = Some (refseq', vs') →
  (∀ rpos qbase, vs' !! rpos = Some qbase →
     vs !! rpos = Some qbase ∨ ∃ rbase, mismatch read l rpos qbase rbase) ∧
  (∀ rpos, is_Some (vs !! rpos) → is_Some (vs' !! rpos)) ∧
  (∀ rpos qbase rbase, mismatch read l rpos qbase rbase →
     is_Some (vs' !! rpos)) ∧
  (∀ c p, is_Some (refseq_contig refseq (Some c) !! p) →
          is_Some (refseq_contig refseq' (Some c) !! p)) ∧
  (∀ c p v, refseq_contig refseq' (Some c) !! p = Some v →
     refseq_contig refseq (Some c) !! p = Some v ∨
     (c = reference_name read ∧ ref_base read p = Some v ∧
      ∃ qpos, (Some qpos, Some p) ∈ l)) ∧
  (∀ qpos rpos, (Some qpos, Some rpos) ∈ l →
     is_Some (query_base read qpos) ∧
     ∃ rbase, ref_base read rpos = Some rbase ∧
       refseq_contig refseq' (Some (reference_name read)) !! rpos
         = Some rbase).
Proof.
  revert refseq vs. induction l as [|pair l IH]; intros refseq vs.
  - intros [= <- <-]. split_and!; try (by eauto).
    + intros rpos qbase rbase (qpos & Hin & _). by apply elem_of_nil in Hin.
    + intros qpos rpos Hin. by apply elem_of_nil in Hin.
  - cbn [for_each_opt]. intros ([refseq1 vs1] & Hstep & Hrest)%bind_Some.
    destruct (IH _ _ Hrest) as (IA & IB & IC & IE & IG & ID). clear IH Hrest.
    destruct (decide (is_Some pair.1 ∧ is_Some pair.2))
      as [[[qpos Hq1] [rpos Hr1]]|Hskip]; last first.
    { assert (∀ q p, (Some q, Some p) ∈ pair :: l → (Some q, Some p) ∈ l)
        as Htail.
      { intros q p [<-|?]%elem_of_cons; [|done].
        exfalso. apply Hskip. simpl. split; by eexists. }
      rewrite parse_pair_skip in Hstep.
      2:{ destruct pair as [[?|] [?|]]; simpl; auto.
          exfalso. apply Hskip. simpl. split; by eexists. }
      injection Hstep as <- <-. split_and!.
      - intros p b [?|(rb & q & Hin & Hm)]%IA; [by left|right].
        exists rb, q. split; [by right|done].
      - done.
      - intros p b rb (q & Hin%Htail & Hm). apply (IC p b rb). by exists q.
      - done.
      - intros c p v [?|(-> & Hv & q & Hin)]%IG; [by left|right].
        split_and!; [done..|]. exists q. by right.
      - intros q p Hin%Htail. by apply ID. }
    destruct pair as [a b]. simpl in Hq1, Hr1. subst a b.
    apply parse_pair_step in Hstep
      as (qbase & rbase & Hq & Hr & -> & Hvs).
    assert (∀ p, is_Some (vs !! p) → is_Some (vs1 !! p)) as Hgrow.
    { intros p Hp. destruct Hvs as [(_ & _ & _ & ->)|(_ & ->)]; [|done].
      rewrite lookup_insert. case_decide; [by eexists|done]. }
    split_and!.
    + intros p b [Hb|(rb & q & Hin & Hm)]%IA.
      * destruct Hvs as [(Hqa & Hra & Hne & ->)|(_ & ->)]; [|by left].
        rewrite lookup_insert in Hb. case_decide as Hp; [|by left].
        subst p. injection Hb as <-. right. exists rbase, qpos.
        split; [by left|done].
      * right. exists rb, q. split; [by right|done].
    + intros p Hp. by apply IB, Hgrow.
    + intros p b rb (q & [[= <- <-]|Hin]%elem_of_cons & Hqb & Hrb & Hm).
      * rewrite Hq in Hqb. rewrite Hr in Hrb.
        injection Hqb as <-. injection Hrb as <-.
        apply IB. destruct Hvs as [(_ & _ & _ & ->)|(Hno & _)]; [|tauto].
        rewrite lookup_insert_eq. by eexists.
      * apply (IC p b rb). by exists q.
    + intros c p Hp. apply IE. rewrite cache_base_lookup.
      case_decide; [by eexists|done].
    + intros c p v [Hv|(-> & Hv & q & Hin)]%IG.
      * rewrite cache_base_lookup in Hv. case_decide as Hcp; [|by left].
        destruct Hcp as [-> ->]. injection Hv as <-. right.
        split_and!; [done..|]. exists qpos. by left.
      * right. split_and!; [done..|]. exists q. by right.
    + intros q p [[= -> ->]|Hin]%elem_of_cons; [|by apply ID].
      split; [by rewrite Hq|]. exists rbase. split; [done|].
      destruct (IE (reference_name read) rpos) as [v Hv].
      { rewrite cache_base_lookup, decide_True by done. by eexists. }
      rewrite Hv. f_equal.
      apply IG in Hv as [Hv|(_ & Hv & _)]; [|congruence].
      rewrite cache_base_lookup, decide_True in Hv by done. congruence.
Qed.

(** X12: [parse_variants] records exactly the aligned reference positions
    where the read and the reference hold two different nucleotides, each
    with the upper-cased base of the read. It caches the upper-cased
    reference base of every aligned position, keeps every position that was
    cached, and leaves the other contigs and the positions that the read
    does not align as they were. *)
Theorem parse_variants_sound read refseq refseq' variants :
  parse_variants read refseq = Some (refseq', variants) →
  (∀ rpos, is_Some (variants !! rpos) ↔
     ∃ qbase rbase, mismatch read (get_aligned_pairs read) rpos qbase rbase) ∧
  (∀ rpos qbase, variants !! rpos = Some qbase →
     ∃ rbase,
       mismatch read (get_aligned_pairs read) rpos qbase rbase ∧
       refseq_contig refseq' (Some (reference_name read)) !! rpos
         = Some rbase) ∧
  (∀ qpos rpos, (Some qpos, Some rpos) ∈ get_aligned_pairs read →
     ∃ rbase,
       ref_base read rpos = Some rbase ∧
       refseq_contig refseq' (Some (reference_name read)) !! rpos
         = Some rbase) ∧
  (∀ c p, is_Some (refseq_contig refseq (Some c) !! p) →
          is_Some (refseq_contig refseq' (Some c) !! p)) ∧
  (∀ c p,
     c ≠ reference_name read ∨
       (∀ qpos, (Some qpos, Some p) ∉ get_aligned_pairs read) →
     refseq_contig refseq' (Some c) !! p = refseq_contig refseq (Some c) !! p).
Proof.
  unfold parse_variants.
  intros (IA & IB & IC & IE & IG & ID)%parse_pairs_inv.
  assert (∀ rpos qbase, variants !! rpos = Some qbase →
    ∃ rbase,
      mismatch read (get_aligned_pairs read) rpos qbase rbase ∧
      refseq_contig refseq' (Some (reference_name read)) !! rpos = Some rbase)
    as Hsound.
  { intros rpos qbase [Hv|[rbase Hm]]%IA; [by rewrite lookup_empty in Hv|].
    exists rbase. split; [done|].
    destruct Hm as (qpos & Hin & _ & Hr & _).
    destruct (ID qpos rpos Hin) as (_ & rb & Hrb & Hc). congruence. }
  split_and!.
  - intros rpos. split.
    + intros [qbase Hv]. destruct (Hsound _ _ Hv) as (rbase & Hm & _). eauto.
    + intros (qbase & rbase & Hm). by eapply IC.
  - done.
  - intros qpos rpos Hin. by destruct (ID qpos rpos Hin) as [_ ?].
  - done.
  - intros c p Hout.
    destruct (refseq_contig refseq' (Some c) !! p) as [v|] eqn:Hv.
    + apply IG in Hv as [Hv|(-> & _ & q & Hin)]; [done|].
      destruct Hout as [?|Hout]; [done|]. by destruct (Hout q).
    + destruct (refseq_contig refseq (Some c) !! p) as [v|] eqn:Hv0; [|done].
      destruct (IE c p) as [v' Hv']; [by rewrite Hv0|]. congruence.
Qed.

Lemma parse_variants_sound_witness :
  ∃ rbase,
    mismatch one_read (get_aligned_pairs one_read) 101 "T" rbase ∧
    refseq_contig one_cache (Some chr1) !! 101 = Some rbase.
Proof.
  assert (parse_variants one_read ∅ = Some (one_cache, one_variants)) as Hrun
    by (vm_compute; reflexivity).
  destruct (parse_variants_sound one_read ∅ one_cache one_variants Hrun)
    as (_ & H & _).
  apply (H 101 "T"). vm_compute. reflexivity.
Defined.

Lemma py_index_is_Some {A : Type} (l : list A) (i : Z) :
  is_Some (py_index l i) ↔
  - Z.of_nat (length l) ≤ i < Z.of_nat (length l).
Proof.
  unfold py_index. cbv zeta.
  case_bool_decide as H1; [|case_bool_decide as H2].
  - rewrite lookup_lt_is_Some. lia.
  - rewrite lookup_lt_is_Some. lia.
  - split; [by intros [? ?]|lia].
Qed.

Lemma parse_pair_None read pair st :
  parse_pair read pair st = None ↔
  ∃ qpos rpos,
    pair = (Some qpos, Some rpos) ∧
    (query_base read qpos = None ∨ ref_base read rpos = None).
Proof.
  destruct st as [refseq vs]. destruct pair as [[qpos|] [rpos|]];
    try (split; [done|by intros (? & ? & [=] & _)]).
  unfold parse_pair. fold (query_base read qpos). fold (ref_base read rpos).
  destruct (query_base read qpos) as [qbase|] eqn:Hq; simpl.
  - destruct (ref_base read rpos) as [rbase|] eqn:Hr; simpl.
    + split.
      * repeat case_bool_decide; done.
      * intros (q & p & [= <- <-] & [?|?]); congruence.
    + split; [|done]. intros _. exists qpos, rpos. split; [done|].
      right. done.
  - split; [|done]. intros _. exists qpos, rpos. split; [done|]. by left.
Qed.

Lemma parse_pairs_None read l st :
  for_each_opt (parse_pair read) l st = None ↔
  ∃ qpos rpos,
    (Some qpos, Some rpos) ∈ l ∧
    (query_base read qpos = None ∨ ref_base read rpos = None).
Proof.
  revert st. induction l as [|pair l IH]; intros st; cbn [for_each_opt].
  - split; [done|]. intros (q & p & Hin & _). by apply elem_of_nil in Hin.
  - destruct (parse_pair read pair st) as [st1|] eqn:Hstep; simpl.
    + rewrite IH. split.
      * intros (q & p & Hin & Hbad). exists q, p. split; [by right|done].
      * intros (q & p & [<-|Hin]%elem_of_cons & Hbad); [|by eauto].
        assert (parse_pair read (Some q, Some p) st = None) as Hnone
          by (apply parse_pair_None; eauto).
        congruence.
    + split; [|done]. intros _.
      apply parse_pair_None in Hstep as (q & p & -> & Hbad).
      exists q, p. split; [by left|done].
Qed.

(** What [l[i]] reads: the element at [i] for an index that is not negative,
    the element at [len(l) + i] for a negative one. *)
Lemma py_index_Some {A : Type} (l : list A) (i : Z) (x : A) :
  py_index l i = Some x →
  (0 ≤ i → l !! Z.to_nat i = Some x) ∧
  (i < 0 → l !! Z.to_nat (i + Z.of_nat (length l)) = Some x).
Proof.
  unfold py_index. cbv zeta.
  case_bool_decide as H1; [|case_bool_decide as H2; [|done]].
  - intros Hx. split; [done|lia].
  - intros Hx. split; [lia|done].
Qed.

(** X13: [parse_variants] stops with [IndexError] exactly when an aligned
    pair indexes the query sequence or the reference sequence of the read
    out of range, an index [i] being in range of a string of length [n] when
    [-n <= i < n].  When it returns, an index that is not negative has read
    the character at that index and a negative index [i] the character at
    [n + i], counted from the end of the string: the base cached at every
    aligned reference position [rpos] is the upper-cased character that the
    reference sequence of the read holds at index [rpos - reference_start]
    read that way, and every recorded variant base is the upper-cased
    character that the query sequence holds at the query position of an
    aligned pair of that reference position, read that way. *)
Theorem parse_variants_index_error read refseq :
  (parse_variants read refseq = None ↔
   ∃ qpos rpos,
     (Some qpos, Some rpos) ∈ get_aligned_pairs read ∧
     ¬ (- Z.of_nat (length (query_sequence read)) ≤ qpos
          < Z.of_nat (length (query_sequence read)) ∧
        - Z.of_nat (length (get_reference_sequence read))
          ≤ rpos - reference_start read
          < Z.of_nat (length (get_reference_sequence read)))) ∧
  ∀ refseq' variants,
    parse_variants read refseq = Some (refseq', variants) →
    (∀ qpos rpos,
       (Some qpos, Some rpos) ∈ get_aligned_pairs read →
       ∃ r,
         refseq_contig refseq' (Some (reference_name read)) !! rpos
           = Some (upper_char r) ∧
         (0 ≤ rpos - reference_start read →
          get_reference_sequence read
            !! Z.to_nat (rpos - reference_start read) = Some r) ∧
         (rpos - reference_start read < 0 →
          get_reference_sequence read
            !! Z.to_nat (rpos - reference_start read
                         + Z.of_nat (length (get_reference_sequence read)))
            = Some r)) ∧
    (∀ rpos qbase,
       variants !! rpos = Some qbase →
       ∃ qpos q,
         (Some qpos, Some rpos) ∈ get_aligned_pairs read ∧
         qbase = upper_char q ∧
         (0 ≤ qpos → query_sequence read !! Z.to_nat qpos = Some q) ∧
         (qpos < 0 →
          query_sequence read
            !! Z.to_nat (qpos + Z.of_nat (length (query_sequence read)))
            = Some q)).
Proof.
  split; last first.
  { unfold parse_variants. intros refseq' variants.
    intros (IA & _ & _ & _ & _ & ID)%parse_pairs_inv. split.
    - intros qpos rpos Hin.
      destruct (ID qpos rpos Hin) as (_ & rbase & Hr & Hc).
      unfold ref_base in Hr. apply fmap_Some in Hr as (r & Hr & ->).
      exists r. split; [done|]. by apply py_index_Some.
    - intros rpos qbase [Hv|(rbase & qpos & Hin & Hq & _)]%IA;
        [by rewrite lookup_empty in Hv|].
      unfold query_base in Hq. apply fmap_Some in Hq as (q & Hq & ->).
      exists qpos, q. split; [done|]. split; [done|].
      by apply py_index_Some. }
  unfold parse_variants. rewrite parse_pairs_None.
  assert (∀ qpos rpos,
    (query_base read qpos = None ∨ ref_base read rpos = None) ↔
    ¬ (- Z.of_nat (length (query_sequence read)) ≤ qpos
         < Z.of_nat (length (query_sequence read)) ∧
       - Z.of_nat (length (get_reference_sequence read))
         ≤ rpos - reference_start read
         < Z.of_nat (length (get_reference_sequence read)))) as Hbad.
  { intros qpos rpos. unfold query_base, ref_base.
    rewrite !fmap_None, <-!(py_index_is_Some _ _).
    destruct (py_index (query_sequence read) qpos),
      (py_index (get_reference_sequence read) (rpos - reference_start read));
      (split;
       [ intros [?|?] [[? ?] [? ?]]; congruence
       | intros H;
         first [by left | by right | exfalso; apply H; split; by eexists] ]). }
  split; intros (q & p & Hin & H); exists q, p; (split; [done|]);
    by apply Hbad.
Qed.

(** The reference position 99 of [early_read] is one place before its start:
    the base cached there is the last one of its reference sequence. *)
Lemma parse_variants_index_error_witness :
  get_reference_sequence early_read !! 3%nat = Some "T" ∧
  refseq_contig early_cache (Some chr1) !! 99 = Some "T".
Proof.
  assert (parse_variants early_read ∅ = Some (early_cache, early_variants))
    as Hrun by (vm_compute; reflexivity).
  assert (99 - reference_start early_read < 0) as Hlt by (simpl; lia).
  destruct (parse_variants_index_error early_read ∅) as [_ Hreads].
  destruct (Hreads early_cache early_variants Hrun) as [Hcache _].
  destruct (Hcache 0 99) as (r & Hc & _ & Hr); [by left|].
  specialize (Hr Hlt). vm_compute in Hr. injection Hr as <-.
  split; [reflexivity|exact Hc].
Defined.

(** ** ReadParser: what [parse_bam] loads *)

Lemma parse_read_Some read refseq refseq' x :
  parse_read read refseq = Some (refseq', x) →
  ∃ variants,
    parse_variants read refseq = Some (refseq', variants) ∧
    x = (query_name read, if is_reverse read then rev else fwd,
         {| r_ref_name := reference_name read;
            r_start := reference_start read;
            r_end := reference_end read;
            r_variants := variants |}).
Proof.
  unfold parse_read. intros ([r v] & Hpv & [= <- <-])%bind_Some. eauto.
Qed.

Lemma cached_variants_grow refseq refseq' rd :
  (∀ c p, is_Some (refseq_contig refseq (Some c) !! p) →
          is_Some (refseq_contig refseq' (Some c) !! p)) →
  cached_variants refseq rd → cached_variants refseq' rd.
Proof. intros Hgrow Hrd p Hp. by apply Hgrow, Hrd. Qed.

Lemma reads_cached_grow refseq refseq' read_info :
  (∀ c p, is_Some (refseq_contig refseq (Some c) !! p) →
          is_Some (refseq_contig refseq' (Some c) !! p)) →
  reads_cached refseq read_info → reads_cached refseq' read_info.
Proof.
  intros Hgrow Hri fid fr strand o rd Hfr Hin.
  eapply cached_variants_grow; [done|]. by eapply Hri.
Qed.

(** A parsed read finds all its variant positions in the cache that
    [parse_read] leaves, and the cache has lost no position. *)
Lemma parse_read_cached read refseq refseq' x :
  parse_read read refseq = Some (refseq', x) →
  cached_variants refseq' x.2 ∧
  (∀ c p, is_Some (refseq_contig refseq (Some c) !! p) →
          is_Some (refseq_contig refseq' (Some c) !! p)).
Proof.
  intros (variants & Hpv & ->)%parse_read_Some. unfold parse_variants in Hpv.
  apply parse_pairs_inv in Hpv as (IA & _ & _ & IE & _ & ID).
  split; [|done]. intros p [b Hb]. simpl in *.
  apply IA in Hb as [Hb|(rbase & qpos & Hin & _)];
    [by rewrite lookup_empty in Hb|].
  destruct (ID qpos p Hin) as (_ & rb & _ & ->). by eexists.
Qed.

Lemma Dict_set_elem_of {K V : Type} `{EqDecision K} (k : K) (v : V) d x :
  x ∈ Dict.set k v d → x = (k, v) ∨ x ∈ d.
Proof.
  induction d as [|[k' v'] d IH]; simpl.
  - intros ->%list_elem_of_singleton. by left.
  - case_decide.
    + intros [->|?]%elem_of_cons; [by left|]. right. by right.
    + intros [->|Hin]%elem_of_cons; [right; by left|].
      destruct (IH Hin) as [?|?]; [by left|]. right. by right.
Qed.

Lemma store_read_cached refseq strand read_info x :
  reads_cached refseq read_info → cached_variants refseq x.2 →
  reads_cached refseq (store_read strand read_info x).
Proof.
  destruct x as [[fid o] rd]. simpl. intros Hri Hrd fid' fr' strand' o' rd'.
  destruct (decide (fid = fid')) as [<-|Hne].
  - rewrite lookup_insert_eq. intros [= <-]. 
    assert (∀ s, (o', Some rd') ∈
              fr_get s (default read_info_default (read_info !! fid)) →
            cached_variants refseq rd') as Hold.
    { intros s. destruct (read_info !! fid) as [fr|] eqn:Hfr; simpl.
      - by apply (Hri fid fr s o' rd').
      - destruct s; simpl; rewrite !elem_of_cons, elem_of_nil;
          intros [[=]|[[=]|[]]]. }
    destruct strand, strand'; simpl; try apply (Hold pos); try apply (Hold neg).
    + intros [[= -> ->]|Hin]%Dict_set_elem_of; [done|]. by apply (Hold pos).
    + intros [[= -> ->]|Hin]%Dict_set_elem_of; [done|]. by apply (Hold neg).
  - rewrite lookup_insert_ne by done. apply Hri.
Qed.

Lemma parse_bam_cached refseq strand reads read_info :
  reads_cached refseq read_info →
  Forall (λ x : ParsedRead, cached_variants refseq x.2) reads →
  reads_cached refseq (parse_bam strand reads read_info).
Proof.
  unfold parse_bam. revert read_info.
  induction reads as [|[[fid o] rd] reads IH]; intros ri Hri Hreads; [done|].
  apply Forall_cons in Hreads as [Hrd Hreads].
  cbn [foldl]. apply IH; [|done].
  by apply (store_read_cached refseq strand ri (fid, o, rd)).
Qed.

(** The loop of [parse_bam] over a BAM file stores what [parse_read]
    returns for each record, and leaves a cache that holds every variant
    position of every read. *)
Lemma parse_bam_file_inv strand bam refseq read_info refseq' read_info' :
  parse_bam_file strand bam (refseq, read_info) = Some (refseq', read_info') →
  ∃ reads,
    read_info' = parse_bam strand reads read_info ∧
    Forall2 parsed_from bam reads ∧
    (∀ c p, is_Some (refseq_contig refseq (Some c) !! p) →
            is_Some (refseq_contig refseq' (Some c) !! p)) ∧
    Forall (λ x : ParsedRead, cached_variants refseq' x.2) reads.
Proof.
  unfold parse_bam_file. revert refseq read_info.
  induction bam as [|read bam IH]; intros refseq ri; cbn [for_each_opt].
  - intros [= <- <-]. exists []. by split_and!.
  - intros ([refseq1 ri1] & Hbody & Hrest)%bind_Some.
    apply bind_Some in Hbody as ([refseq1' x] & Hread & [= -> <-]).
    destruct (IH _ _ Hrest) as (reads & -> & Hshape & Hgrow & Hcached).
    destruct (parse_read_cached _ _ _ _ Hread) as [Hx Hgrow1].
    exists (x :: reads). split_and!.
    + by destruct x as [[fid o] rd].
    + apply Forall2_cons. split; [|done].
      apply parse_read_Some in Hread as (vs & _ & ->). done.
    + intros c p Hp. by apply Hgrow, Hgrow1.
    + apply Forall_cons. split; [|done].
      by eapply cached_variants_grow.
Qed.

(** ** StrandMerger: the exceptions on loaded reads *)

Lemma add_variant_total contig o rd x vs :
  is_Some (contig !! x.1) →
  ∃ vs', add_variant contig o (Some rd) x vs = Ok vs'.
Proof.
  destruct x as [p b]. intros [ref Href]. simpl in Href.
  unfold add_variant. rewrite Href.
  destruct (decide (o = fwd)); simpl; by eexists.
Qed.

Lemma add_variants_total contig o rd l vs :
  (∀ x, x ∈ l → is_Some (contig !! x.1)) →
  ∃ vs', for_each (add_variant contig o (Some rd)) l vs = Ok vs'.
Proof.
  revert vs. induction l as [|x l IH]; intros vs Hl; cbn [for_each].
  - by eexists.
  - destruct (add_variant_total contig o rd x vs) as [vs1 ->];
      [apply Hl; by left|].
    cbn [mbind result_bind]. apply IH. intros y Hy. apply Hl. by right.
Qed.

Lemma merge_read_pair_total refseq family_id strand f b st :
  cached_variants refseq f → (∀ r, b = Some r → cached_variants refseq r) →
  ∃ st',
    merge_read_pair refseq family_id strand [(fwd, Some f); (rev, b)] st
      = Ok st'.
Proof.
  intros Hf Hb. destruct b as [r|]; [|rewrite merge_read_pair_no_rev; by eexists].
  destruct (decide (r_ref_name f = r_ref_name r)) as [Heq|Hne];
    [|rewrite merge_read_pair_other_contig by done; by eexists].
  destruct (decide (r_start f < r_end r)) as [Hlt|Hge];
    [|rewrite merge_read_pair_not_inwards by (done || lia); by eexists].
  specialize (Hb r eq_refl).
  unfold merge_read_pair. simpl.
  rewrite bool_decide_eq_false_2 by (rewrite Heq; tauto).
  rewrite bool_decide_eq_false_2 by lia.
  destruct (add_variants_total (default ∅ (refseq !! r_ref_name f)) fwd f
              (map_to_list (r_variants f))
              (ssc_variants
                 (fs_get strand
                    (default ssc_info_default (ssc_info st !! family_id)))))
    as [vs1 ->].
  { intros [p b] Hin%elem_of_map_to_list. apply Hf. by eexists. }
  cbn [mbind result_bind].
  destruct (add_variants_total (default ∅ (refseq !! r_ref_name f)) rev r
              (map_to_list (r_variants r)) vs1) as [vs2 ->].
  { intros [p b] Hin%elem_of_map_to_list. simpl.
    specialize (Hb p). unfold refseq_contig in Hb. rewrite <-Heq in Hb.
    apply Hb. by eexists. }
  simpl. by eexists.
Qed.

Lemma for_each_outcome {A S : Type} (body : A → S → result S)
    (bad : A → Prop) (e : exn) (l : list A) :
  (∀ x st, x ∈ l → bad x → body x st = Raise e) →
  (∀ x st, x ∈ l → ¬ bad x → ∃ st', body x st = Ok st') →
  (∀ x, x ∈ l → bad x ∨ ¬ bad x) →
  ∀ st,
    (Exists bad l → for_each body l st = Raise e) ∧
    (Forall (λ x, ¬ bad x) l → ∃ st', for_each body l st = Ok st').
Proof.
  induction l as [|x l IH]; intros Hbad Hgood Hdec st.
  - split; [by intros ?%Exists_nil|]. intros _. by eexists.
  - cbn [for_each].
    assert (∀ st1,
      (Exists bad l → for_each body l st1 = Raise e) ∧
      (Forall (λ x, ¬ bad x) l → ∃ st', for_each body l st1 = Ok st'))
      as IH'.
    { apply IH.
      - intros y s Hy. apply Hbad. by right.
      - intros y s Hy. apply Hgood. by right.
      - intros y Hy. apply Hdec. by right. }
    destruct (Hdec x) as [Hx|Hx]; [by left|..].
    + rewrite (Hbad x st) by (done || by left). split; [done|].
      intros [? _]%Forall_cons. done.
    + destruct (Hgood x st) as [st1 ->]; [by left|done|].
      cbn [mbind result_bind]. destruct (IH' st1) as [IH1 IH2]. split.
      * intros [?|?]%Exists_cons; [done|by apply IH1].
      * intros [_ ?]%Forall_cons. by apply IH2.
Qed.

Lemma load_bams_inv pos_bam neg_bam refseq read_info :
  load_bams pos_bam neg_bam = Some (refseq, read_info) →
  ∃ pos_reads neg_reads,
    read_info = parse_bam neg neg_reads (parse_bam pos pos_reads ∅) ∧
    Forall2 parsed_from pos_bam pos_reads ∧
    Forall2 parsed_from neg_bam neg_reads ∧
    reads_cached refseq read_info.
Proof.
  unfold load_bams. intros ([refseq1 ri1] & Hpos & Hneg)%bind_Some.
  apply parse_bam_file_inv in Hpos as (pos_reads & -> & Hp & _ & Hcp).
  apply parse_bam_file_inv in Hneg as (neg_reads & -> & Hn & Hgrow & Hcn).
  exists pos_reads, neg_reads. split_and!; [done..|].
  apply parse_bam_cached; [|done].
  apply (reads_cached_grow refseq1); [done|].
  apply parse_bam_cached; [|done].
  intros fid fr strand o rd Hfr. by rewrite lookup_empty in Hfr.
Qed.

(** X14: The two calls of [parse_bam] store, for every record of the two
    files, what [parse_read] returns for it, under the record's family,
    strand and orientation.  Afterwards every family of [read_info] has
    the keys [fwd] and [rev] on both strands, and the reference cache holds
    a base for every variant position of every stored read. *)
Theorem load_bams_reads pos_bam neg_bam refseq read_info :
  load_bams pos_bam neg_bam = Some (refseq, read_info) →
  (∃ pos_reads neg_reads,
     read_info = parse_bam neg neg_reads (parse_bam pos pos_reads ∅) ∧
     Forall2 parsed_from pos_bam pos_reads ∧
     Forall2 parsed_from neg_bam neg_reads) ∧
  map_Forall (λ _, well_shaped) read_info ∧
  reads_cached refseq read_info.
Proof.
  intros (pos_reads & neg_reads & -> & Hp & Hn & Hcached)%load_bams_inv.
  split_and!.
  - by exists pos_reads, neg_reads.
  - apply read_info_well_shaped.
  - done.
Qed.

Lemma load_bams_reads_witness :
  map_Forall (λ _, well_shaped) loaded_info ∧
  reads_cached loaded_cache loaded_info.
Proof.
  assert (load_bams [one_read; other_read] [one_read; other_read]
          = Some (loaded_cache, loaded_info)) as Hrun
    by (vm_compute; reflexivity).
  exact (proj2 (load_bams_reads _ _ _ _ Hrun)).
Defined.

(** The two calls of [merge_read_pair] for one family of [read_info]. *)
Lemma merge_family_outcome refseq family_id family_reads st :
  well_shaped family_reads →
  (∀ strand o rd, (o, Some rd) ∈ fr_get strand family_reads →
                  cached_variants refseq rd) →
  (Dict.get fwd (fr_pos family_reads) = Some None ∨
   Dict.get fwd (fr_neg family_reads) = Some None →
   merge_read_pair refseq family_id pos (fr_pos family_reads) st
     ≫= merge_read_pair refseq family_id neg (fr_neg family_reads)
   = Raise KeyError_read_field) ∧
  (¬ (Dict.get fwd (fr_pos family_reads) = Some None ∨
      Dict.get fwd (fr_neg family_reads) = Some None) →
   ∃ st',
     merge_read_pair refseq family_id pos (fr_pos family_reads) st
       ≫= merge_read_pair refseq family_id neg (fr_neg family_reads)
     = Ok st').
Proof.
  intros [(a & b & Hp) (a' & b' & Hn)] Hcached.
  rewrite Hp, Hn. simpl Dict.get. 
  assert (∀ f, a = Some f → ∀ st0, ∃ st1,
    merge_read_pair refseq family_id pos [(fwd, Some f); (rev, b)] st0
      = Ok st1) as Hpos.
  { intros f -> st0. apply merge_read_pair_total.
    - apply (Hcached pos fwd). simpl. rewrite Hp. by left.
    - intros r ->. apply (Hcached pos rev). simpl. rewrite Hp. right. by left. }
  assert (∀ f, a' = Some f → ∀ st0, ∃ st1,
    merge_read_pair refseq family_id neg [(fwd, Some f); (rev, b')] st0
      = Ok st1) as Hneg.
  { intros f -> st0. apply merge_read_pair_total.
    - apply (Hcached neg fwd). simpl. rewrite Hn. by left.
    - intros r ->. apply (Hcached neg rev). simpl. rewrite Hn. right. by left. }
  destruct a as [f|].
  - destruct (Hpos f eq_refl st) as [st1 ->]. cbn [mbind result_bind].
    destruct a' as [f'|].
    + split; [by intros [[=]|[=]]|]. intros _. apply (Hneg f' eq_refl).
    + rewrite merge_read_pair_no_fwd. split; [done|]. intros H.
      exfalso. apply H. by right.
  - rewrite merge_read_pair_no_fwd. cbn [mbind result_bind].
    split; [done|]. intros H. exfalso. apply H. by left.
Qed.

Lemma merge_loaded_outcome refseq read_info :
  map_Forall (λ _, well_shaped) read_info →
  reads_cached refseq read_info →
  (lacks_forward read_info →
   merge_fwd_rev_per_strand refseq read_info = Raise KeyError_read_field) ∧
  (¬ lacks_forward read_info →
   ∃ st, merge_fwd_rev_per_strand refseq read_info = Ok st).
Proof.
  intros Hshape Hcached. unfold merge_fwd_rev_per_strand.
  pose (bad := λ x : string * FamilyReads,
          Dict.get fwd (fr_pos x.2) = Some None ∨
          Dict.get fwd (fr_neg x.2) = Some None).
  assert (∀ x st, x ∈ map_to_list read_info →
    (bad x →
     (let '(family_id, family_reads) := x in
      λ st, st1 ← merge_read_pair refseq family_id pos (fr_pos family_reads) st;
            merge_read_pair refseq family_id neg (fr_neg family_reads) st1) st
     = Raise KeyError_read_field) ∧
    (¬ bad x →
     ∃ st',
       (let '(family_id, family_reads) := x in
        λ st, st1 ← merge_read_pair refseq family_id pos (fr_pos family_reads) st;
              merge_read_pair refseq family_id neg (fr_neg family_reads) st1) st
       = Ok st')) as Hbody.
  { intros [fid fr] st Hin%elem_of_map_to_list. unfold bad. simpl.
    apply merge_family_outcome.
    - by apply (Hshape fid).
    - intros strand o rd. by apply (Hcached fid fr strand o rd). }
  assert (∀ x, x ∈ map_to_list read_info → bad x ∨ ¬ bad x) as Hdec.
  { intros [fid fr] Hin%elem_of_map_to_list. unfold bad. simpl.
    destruct (Hshape fid fr Hin) as [(a & b & ->) (a' & b' & ->)]. simpl.
    destruct a, a'; auto; right; by intros [[=]|[=]]. }
  destruct (for_each_outcome
              (λ '(family_id, family_reads) st,
                 st1 ← merge_read_pair refseq family_id pos
                         (fr_pos family_reads) st;
                 merge_read_pair refseq family_id neg (fr_neg family_reads) st1)
              bad KeyError_read_field (map_to_list read_info))
    with (st := {| ssc_info := ∅; log := [] |}) as [Hraise Hok].
  { intros [fid fr] st Hin Hx. by apply (Hbody (fid, fr) st Hin). }
  { intros [fid fr] st Hin Hx. by apply (Hbody (fid, fr) st Hin). }
  { done. }
  split.
  - intros (fid & fr & strand & Hfr & Hget). apply Hraise.
    apply Exists_exists. exists (fid, fr).
    split; [by apply elem_of_map_to_list|]. unfold bad. simpl.
    destruct strand; [by left|by right].
  - intros Hno. apply Hok. apply Forall_forall.
    intros [fid fr] Hin%elem_of_map_to_list Hx. apply Hno.
    destruct Hx as [Hx|Hx]; [exists fid, fr, pos|exists fid, fr, neg]; done.
Qed.

(** X15: On the reads and the cache that the two calls of [parse_bam] leave,
    [merge_fwd_rev_per_strand] never fails on the reference cache: it raises
    [KeyError] on the empty forward dictionary when some strand of some
    family has no forward read, and returns otherwise. *)
Theorem loaded_reads_merge pos_bam neg_bam refseq read_info :
  load_bams pos_bam neg_bam = Some (refseq, read_info) →
  (lacks_forward read_info →
   merge_fwd_rev_per_strand refseq read_info = Raise KeyError_read_field) ∧
  (¬ lacks_forward read_info →
   ∃ st, merge_fwd_rev_per_strand refseq read_info = Ok st).
Proof.
  intros (pos_reads & neg_reads & Hri & _ & _ & Hcached)%load_bams_inv.
  apply merge_loaded_outcome; [|done].
  rewrite Hri. apply read_info_well_shaped.
Qed.

Lemma loaded_reads_merge_witness :
  ∃ st, merge_fwd_rev_per_strand loaded_cache loaded_info = Ok st.
Proof.
  assert (load_bams [one_read; other_read] [one_read; other_read]
          = Some (loaded_cache, loaded_info)) as Hrun
    by (vm_compute; reflexivity).
  apply (loaded_reads_merge _ _ _ _ Hrun).
  intros (fid & fr & strand & Hfr%elem_of_map_to_list & Hget).
  vm_compute in Hfr. inversion Hfr as [|? ? ? Hnil]; [subst|inversion Hnil].
  destruct strand; vm_compute in Hget; discriminate.
Defined.

(** ** ThresholdEmitter: the thresholds of the constructor *)

Lemma elem_of_thresholds filter_on filter_max dsc_info T :
  T ∈ thresholds filter_on filter_max dsc_info ↔
  T ≤ filter_max ∧
  ∃ family_id dsc,
    dsc_info !! family_id = Some dsc ∧ dsc_metric filter_on dsc = T.
Proof.
  unfold thresholds.
  rewrite list_elem_of_filter, elem_of_elements, elem_of_list_to_set,
    list_elem_of_fmap.
  split.
  - intros [Hle ([fid dsc] & -> & Hin%elem_of_map_to_list)].
    split; [simpl in *; lia|]. by exists fid, dsc.
  - intros [Hle (fid & dsc & Hdsc & <-)]. split; [lia|].
    exists (fid, dsc). split; [done|]. by apply elem_of_map_to_list.
Qed.

(** X16: The constructor writes one filtered folder for each value of the
    chosen metric that some family has and that is at most [filter_max],
    each value once. The family that has the value is kept in that folder,
    so no filtered folder is empty; and a family is kept in some filtered
    folder exactly when its metric is at most [filter_max]. *)
Theorem thresholds_spec filter_on filter_max dsc_info :
  NoDup (thresholds filter_on filter_max dsc_info) ∧
  (∀ T, T ∈ thresholds filter_on filter_max dsc_info ↔
     T ≤ filter_max ∧
     ∃ family_id dsc,
       dsc_info !! family_id = Some dsc ∧ dsc_metric filter_on dsc = T) ∧
  (∀ T, T ∈ thresholds filter_on filter_max dsc_info →
     ∃ family_id dsc,
       family_id ∈ keep_families filter_on dsc_info (Some T) ∧
       dsc_info !! family_id = Some dsc ∧ dsc_metric filter_on dsc = T) ∧
  (∀ family_id,
     (∃ T, T ∈ thresholds filter_on filter_max dsc_info ∧
           family_id ∈ keep_families filter_on dsc_info (Some T)) ↔
     ∃ dsc, dsc_info !! family_id = Some dsc ∧
            dsc_metric filter_on dsc ≤ filter_max).
Proof.
  split_and!.
  - unfold thresholds. apply NoDup_filter, NoDup_elements.
  - apply elem_of_thresholds.
  - intros T (Hle & fid & dsc & Hdsc & HT)%elem_of_thresholds.
    exists fid, dsc. split_and!; [|done..].
    apply elem_of_keep_families. exists dsc. split; [done|].
    simpl. apply bool_decide_eq_true. lia.
  - intros fid. split.
    + intros (T & (Hle & _)%elem_of_thresholds
                & (dsc & Hdsc & Hkeep)%elem_of_keep_families).
      exists dsc. split; [done|].
      simpl in Hkeep. apply bool_decide_eq_true in Hkeep. lia.
    + intros (dsc & Hdsc & Hle). exists (dsc_metric filter_on dsc). split.
      * apply elem_of_thresholds. split; [done|]. by exists fid, dsc.
      * apply elem_of_keep_families. exists dsc. split; [done|].
        simpl. by apply bool_decide_eq_true.
Qed.

(** ** SummaryFormatter: the other counters and the base-change tables *)

Lemma count_variants_counts c s l k c' :
  total_of k (foldl (count_variant c) s l) =
    total_of k s
    + (if decide (k = "variants"%string) then Z.of_nat (length l) else 0) ∧
  chr_of c' k (foldl (count_variant c) s l) =
    chr_of c' k s
    + (if decide (c = c' ∧ k = "variants"%string)
       then Z.of_nat (length l) else 0) ∧
  (∀ var ref, adduct_cell var ref (foldl (count_variant c) s l)
              = adduct_cell var ref s) ∧
  (∀ var ref, variant_cell var ref (foldl (count_variant c) s l) =
     variant_cell var ref s
     + Z.of_nat (length (filter (λ v, v_var v = var ∧ v_ref v = ref) l))).
Proof.
  revert s. induction l as [|v l IH]; intros s.
  - simpl. split_and!; intros; repeat case_decide; lia.
  - cbn [foldl]. destruct (IH (count_variant c s v)) as (-> & -> & Ha & Hv).
    split_and!.
    + unfold total_of, count_variant. cbn [total_counts length].
      rewrite count_of_add_to. repeat case_decide; subst; try done; lia.
    + unfold chr_of, count_variant. cbn [chr_counts length].
      rewrite count_of_add_to2.
      repeat case_decide; destruct_and?; subst; try done; try lia; tauto.
    + intros var ref. by rewrite Ha.
    + intros var ref. rewrite Hv, filter_cons.
      unfold variant_cell, count_variant. cbn [variant_base_changes].
      rewrite count_of_add_to2.
      repeat case_decide; destruct_and?; subst; simpl; try done; try lia;
        tauto.
Qed.

Lemma count_adducts_counts c s l k c' :
  total_of k (foldl (count_adduct c) s l) =
    total_of k s
    + (if decide (k = "adducts"%string) then Z.of_nat (length l) else 0) ∧
  chr_of c' k (foldl (count_adduct c) s l) =
    chr_of c' k s
    + (if decide (c = c' ∧ k = "adducts"%string)
       then Z.of_nat (length l) else 0) ∧
  (∀ var ref, variant_cell var ref (foldl (count_adduct c) s l)
              = variant_cell var ref s) ∧
  (∀ var ref, adduct_cell var ref (foldl (count_adduct c) s l) =
     adduct_cell var ref s
     + Z.of_nat (length (filter (λ a, a_var a = var ∧ a_ref a = ref) l))).
Proof.
  revert s. induction l as [|a l IH]; intros s.
  - simpl. split_and!; intros; repeat case_decide; lia.
  - cbn [foldl]. destruct (IH (count_adduct c s a)) as (-> & -> & Hv & Ha).
    split_and!.
    + unfold total_of, count_adduct. cbn [total_counts length].
      rewrite count_of_add_to. repeat case_decide; subst; try done; lia.
    + unfold chr_of, count_adduct. cbn [chr_counts length].
      rewrite count_of_add_to2.
      repeat case_decide; destruct_and?; subst; try done; try lia; tauto.
    + intros var ref. by rewrite Hv.
    + intros var ref. rewrite Ha, filter_cons.
      unfold adduct_cell, count_adduct. cbn [adduct_base_changes].
      rewrite count_of_add_to2.
      repeat case_decide; destruct_and?; subst; simpl; try done; try lia;
        tauto.
Qed.

Lemma count_family_counts keep s family_id dsc k c' :
  total_of k (count_family keep s (family_id, dsc)) =
    total_of k s
    + (if decide (family_id ∈ keep) then total_weight k dsc else 0) ∧
  chr_of c' k (count_family keep s (family_id, dsc)) =
    chr_of c' k s
    + (if decide (family_id ∈ keep ∧ dsc_ref_name dsc = c')
       then chr_weight k dsc else 0) ∧
  (∀ var ref, variant_cell var ref (count_family keep s (family_id, dsc)) =
     variant_cell var ref s
     + (if decide (family_id ∈ keep) then variants_like var ref dsc else 0)) ∧
  (∀ var ref, adduct_cell var ref (count_family keep s (family_id, dsc)) =
     adduct_cell var ref s
     + (if decide (family_id ∈ keep) then adducts_like var ref dsc else 0)).
Proof.
  unfold count_family. case_bool_decide as Hkeep.
  - split_and!; intros; repeat case_decide; destruct_and?; try lia; tauto.
  - assert (family_id ∈ keep) as Hin by (apply dec_stable; tauto).
    rewrite (decide_True (P := family_id ∈ keep)) by done.
    match goal with |- context [foldl (count_adduct ?c) ?s ?l] =>
      destruct (count_adducts_counts c s l k c') as (-> & -> & Hv & Ha) end.
    match goal with |- context [foldl (count_variant ?c) ?s ?l] =>
      destruct (count_variants_counts c s l k c') as (-> & -> & Ha' & Hv')
    end.
    rewrite !length_fmap, !length_map_to_list.
    split_and!.
    + unfold total_of, total_weight. cbn [total_counts].
      rewrite !count_of_add_to.
      repeat case_decide; subst; try done; lia.
    + clear Hv Ha Hv' Ha'. unfold chr_of, chr_weight. cbn [chr_counts].
      rewrite !count_of_add_to2.
      repeat case_decide; destruct_and?; subst; try done; try lia;
        exfalso; intuition congruence.
    + intros var ref. rewrite Hv, Hv', decide_True by done. done.
    + intros var ref. rewrite Ha, Ha', decide_True by done. done.
Qed.

Lemma kept_sum_cons (g : Dsc → Z) (P : Dsc → Prop) `{∀ d, Decision (P d)}
    keep x l :
  kept_sum g P keep (x :: l) =
    (if decide (x.1 ∈ keep ∧ P x.2) then g x.2 else 0) + kept_sum g P keep l.
Proof.
  unfold kept_sum, kept. rewrite filter_cons.
  case_decide; [rewrite fmap_cons; cbn [foldr]|]; lia.
Qed.

Lemma format_summary_counts keep l s k c :
  total_of k (foldl (count_family keep) s l) =
    total_of k s + kept_sum (total_weight k) (λ _, True) keep l ∧
  chr_of c k (foldl (count_family keep) s l) =
    chr_of c k s + kept_sum (chr_weight k) (λ d, dsc_ref_name d = c) keep l ∧
  (∀ var ref, variant_cell var ref (foldl (count_family keep) s l) =
     variant_cell var ref s
     + kept_sum (variants_like var ref) (λ _, True) keep l) ∧
  (∀ var ref, adduct_cell var ref (foldl (count_family keep) s l) =
     adduct_cell var ref s
     + kept_sum (adducts_like var ref) (λ _, True) keep l).
Proof.
  revert s. induction l as [|[fid dsc] l IH]; intros s.
  - unfold kept_sum. simpl. split_and!; intros; lia.
  - cbn [foldl].
    destruct (IH (count_family keep s (fid, dsc))) as (-> & -> & Hv & Ha).
    destruct (count_family_counts keep s fid dsc k c) as (-> & -> & Hv' & Ha').
    rewrite !kept_sum_cons. simpl. split_and!.
    + repeat case_decide; destruct_and?; try done; try lia; tauto.
    + repeat case_decide; destruct_and?; try done; try lia; tauto.
    + intros var ref. rewrite Hv, Hv', kept_sum_cons. simpl.
      repeat case_decide; destruct_and?; try done; try lia; tauto.
    + intros var ref. rewrite Ha, Ha', kept_sum_cons. simpl.
      repeat case_decide; destruct_and?; try done; try lia; tauto.
Qed.


Lemma format_summary_init keep dsc_info k c :
  total_of k (format_summary dsc_info keep) =
    kept_sum (total_weight k) (λ _, True) keep (map_to_list dsc_info) ∧
  chr_of c k (format_summary dsc_info keep) =
    kept_sum (chr_weight k) (λ d, dsc_ref_name d = c) keep
      (map_to_list dsc_info) ∧
  (∀ var ref, variant_cell var ref (format_summary dsc_info keep) =
     kept_sum (variants_like var ref) (λ _, True) keep
       (map_to_list dsc_info)) ∧
  (∀ var ref, adduct_cell var ref (format_summary dsc_info keep) =
     kept_sum (adducts_like var ref) (λ _, True) keep (map_to_list dsc_info)).
Proof.
  unfold format_summary.
  destruct (format_summary_counts keep (map_to_list dsc_info) summary_init k c)
    as (-> & -> & Hv & Ha).
  split_and!.
  - unfold total_of, count_of. simpl. rewrite lookup_empty. simpl. lia.
  - unfold chr_of, count_of. simpl. rewrite lookup_empty. simpl.
    rewrite lookup_empty. simpl. lia.
  - intros var ref. rewrite Hv. unfold variant_cell, count_of. simpl.
    rewrite lookup_empty. simpl. rewrite lookup_empty. simpl. lia.
  - intros var ref. rewrite Ha. unfold adduct_cell, count_of. simpl.
    rewrite lookup_empty. simpl. rewrite lookup_empty. simpl. lia.
Qed.


(** X18: A cell of the table of variant base changes counts, over the kept
    families, the entries of the variants map with that [var] and [ref]; a
    cell of the table of adduct base changes counts the entries of the
    adducts map, each once. *)
Theorem summary_base_changes dsc_info keep var ref :
  variant_cell var ref (format_summary dsc_info keep) =
    kept_sum (variants_like var ref) (λ _, True) keep (map_to_list dsc_info) ∧
  adduct_cell var ref (format_summary dsc_info keep) =
    kept_sum (adducts_like var ref) (λ _, True) keep (map_to_list dsc_info).
Proof.
  destruct (format_summary_init keep dsc_info "ssc" None) as (_ & _ & Hv & Ha).
  by rewrite Hv, Ha.
Qed.

(** ** The adduct list of [write_adducts_gtf] and [write_total_json] *)

Lemma elem_of_adduct_rows dsc_info keep row :
  row ∈ adduct_rows dsc_info keep ↔
  ∃ family_id dsc adduct_pos adduct_info,
    family_id ∈ keep ∧ dsc_info !! family_id = Some dsc ∧
    dsc_adducts dsc !! adduct_pos = Some adduct_info ∧
    row = adduct_row dsc (adduct_pos, adduct_info).
Proof.
  unfold adduct_rows. rewrite list_elem_of_bind. split.
  - intros ([fid dsc] & Hrow & [Hkeep Hin%elem_of_map_to_list]%list_elem_of_filter).
    simpl in *.
    apply list_elem_of_fmap in Hrow as ([p a] & -> & Hpa%elem_of_map_to_list).
    by exists fid, dsc, p, a.
  - intros (fid & dsc & p & a & Hkeep & Hdsc & Ha & ->).
    exists (fid, dsc). split.
    + simpl. apply list_elem_of_fmap. exists (p, a).
      split; [done|]. by apply elem_of_map_to_list.
    + apply list_elem_of_filter. split; [done|]. by apply elem_of_map_to_list.
Qed.

Lemma length_adduct_rows keep (l : list (string * Dsc)) :
  Z.of_nat (length (x ← filter (λ x, x.1 ∈ keep) l;
                    adduct_row x.2 <$> map_to_list (dsc_adducts x.2))) =
    kept_sum (λ d, Z.of_nat (size (dsc_adducts d))) (λ _, True) keep l.
Proof.
  induction l as [|x l IH]; [done|].
  rewrite kept_sum_cons, filter_cons, <-IH.
  destruct (decide (x.1 ∈ keep)) as [Hx|Hx].
  - rewrite decide_True by done. rewrite bind_cons, length_app, length_fmap,
      length_map_to_list. lia.
  - rewrite decide_False by tauto. lia.
Qed.

(** X19: The list that [write_adducts_gtf] collects has one row for every
    entry of the adducts map of every kept family, at the 1-based position
    of the adduct; the 'adducts' counter of the summary of the same families
    is twice the number of these rows; and the method returns without
    writing exactly when no kept family has an adduct. *)
Theorem gtf_adduct_rows dsc_info keep :
  (∀ row, row ∈ adduct_rows dsc_info keep ↔
     ∃ family_id dsc adduct_pos adduct_info,
       family_id ∈ keep ∧ dsc_info !! family_id = Some dsc ∧
       dsc_adducts dsc !! adduct_pos = Some adduct_info ∧
       row = adduct_row dsc (adduct_pos, adduct_info)) ∧
  Z.of_nat (length (adduct_rows dsc_info keep)) =
    kept_sum (λ d, Z.of_nat (size (dsc_adducts d))) (λ _, True) keep
      (map_to_list dsc_info) ∧
  total_of "adducts" (format_summary dsc_info keep) =
    2 * Z.of_nat (length (adduct_rows dsc_info keep)) ∧
  (gtf_adducts dsc_info keep = None ↔
   ∀ family_id dsc, family_id ∈ keep → dsc_info !! family_id = Some dsc →
                    dsc_adducts dsc = ∅) ∧
  (∀ rows, gtf_adducts dsc_info keep = Some rows →
           rows = adduct_rows dsc_info keep ∧ rows ≠ []).
Proof.
  split_and!.
  - apply elem_of_adduct_rows.
  - apply length_adduct_rows.
  - destruct (format_summary_init keep dsc_info "adducts" None) as (-> & _).
    unfold adduct_rows. rewrite length_adduct_rows.
    generalize (map_to_list dsc_info). intros l.
    induction l as [|x l IH]; [done|].
    rewrite !kept_sum_cons, IH. unfold total_weight. simpl.
    case_decide; lia.
  - unfold gtf_adducts. cbv zeta. case_bool_decide as Hlen.
    + split; [|done]. intros _ fid dsc Hkeep Hdsc.
      apply map_empty. intros p.
      destruct (dsc_adducts dsc !! p) as [a|] eqn:Ha; [|done].
      apply length_zero_iff_nil in Hlen.
      assert (adduct_row dsc (p, a) ∈ adduct_rows dsc_info keep) as Hin.
      { apply elem_of_adduct_rows. by exists fid, dsc, p, a. }
      rewrite Hlen in Hin. by apply elem_of_nil in Hin.
    + split; [done|]. intros Hnone. exfalso. apply Hlen.
      apply length_zero_iff_nil. apply elem_of_nil_inv. intros row.
      intros (fid & dsc & p & a & Hkeep & Hdsc & Ha & _)%elem_of_adduct_rows.
      rewrite (Hnone fid dsc Hkeep Hdsc) in Ha. by rewrite lookup_empty in Ha.
  - intros rows. unfold gtf_adducts. cbv zeta. case_bool_decide as Hlen; [done|].
    intros [= <-]. split; [done|]. intros Hnil. apply Hlen. by rewrite Hnil.
Qed.

Lemma lookup_total_json dsc_info keep family_id :
  total_json dsc_info keep !! family_id =
    if decide (family_id ∈ keep) then dsc_info !! family_id else None.
Proof.
  unfold total_json.
  assert (NoDup (filter (λ x : string * Dsc, x.1 ∈ keep)
                   (map_to_list dsc_info)).*1) as Hnd.
  { apply (NoDup_fmap_fst _). 
    - intros k d d' [_ Hd%elem_of_map_to_list]%list_elem_of_filter
        [_ Hd'%elem_of_map_to_list]%list_elem_of_filter. congruence.
    - apply NoDup_filter, NoDup_map_to_list. }
  destruct (list_to_map _ !! family_id) as [dsc|] eqn:Hl.
  - apply elem_of_list_to_map in Hl; [|done].
    apply list_elem_of_filter in Hl as [Hkeep Hin%elem_of_map_to_list].
    simpl in Hkeep. by rewrite decide_True.
  - case_decide as Hkeep; [|done].
    destruct (dsc_info !! family_id) as [dsc|] eqn:Hdsc; [|done].
    apply not_elem_of_list_to_map in Hl. exfalso. apply Hl.
    apply list_elem_of_fmap. exists (family_id, dsc). split; [done|].
    apply list_elem_of_filter. split; [done|]. by apply elem_of_map_to_list.
Qed.

(** X20: The dictionary that [write_total_json] dumps holds the records of
    the kept families and no other; for the folder of all families it is the
    whole DSC map, and for a threshold [T] it holds exactly the families
    whose metric is at most [T], so that the dictionary of a smaller
    threshold is contained in that of a larger one. *)
Theorem total_json_families filter_on dsc_info :
  (∀ keep family_id,
     total_json dsc_info keep !! family_id =
       if decide (family_id ∈ keep) then dsc_info !! family_id else None) ∧
  total_json dsc_info (keep_families filter_on dsc_info None) = dsc_info ∧
  (∀ T family_id dsc,
     total_json dsc_info (keep_families filter_on dsc_info (Some T))
       !! family_id = Some dsc ↔
     dsc_info !! family_id = Some dsc ∧ dsc_metric filter_on dsc ≤ T) ∧
  (∀ T1 T2, T1 ≤ T2 →
     total_json dsc_info (keep_families filter_on dsc_info (Some T1)) ⊆
     total_json dsc_info (keep_families filter_on dsc_info (Some T2))).
Proof.
  assert (∀ T family_id dsc,
     total_json dsc_info (keep_families filter_on dsc_info (Some T))
       !! family_id = Some dsc ↔
     dsc_info !! family_id = Some dsc ∧ dsc_metric filter_on dsc ≤ T) as HT.
  { intros T fid dsc. rewrite lookup_total_json. case_decide as Hkeep.
    - apply elem_of_keep_families in Hkeep as (dsc' & Hdsc' & Hm).
      simpl in Hm. apply bool_decide_eq_true in Hm. rewrite Hdsc'.
      split; [intros [= <-]; by split|by intros [[= <-] _]].
    - split; [done|]. intros [Hdsc Hm]. exfalso. apply Hkeep.
      apply elem_of_keep_families. exists dsc. split; [done|].
      simpl. by apply bool_decide_eq_true. }
  split_and!.
  - intros keep fid. apply lookup_total_json.
  - apply map_eq. intros fid. rewrite lookup_total_json.
    case_decide as Hkeep; [done|].
    destruct (dsc_info !! fid) as [dsc|] eqn:Hdsc; [|done].
    exfalso. apply Hkeep. apply elem_of_keep_families. by exists dsc.
  - done.
  - intros T1 T2 Hle. apply map_subseteq_spec. intros fid dsc.
    rewrite !HT. intros [? ?]. split; [done|lia].
Qed.

(** ** StrandMerger: the log *)

Lemma merge_read_pair_log refseq family_id strand a b st st' :
  merge_read_pair refseq family_id strand [(fwd, a); (rev, b)] st = Ok st' →
  log st' = log st ++ strand_log family_id strand [(fwd, a); (rev, b)].
Proof.
  intros H. destruct a as [f|]; [|by rewrite merge_read_pair_no_fwd in H].
  unfold strand_log, drop_reason. simpl.
  destruct b as [r|];
    [|rewrite merge_read_pair_no_rev in H; by injection H as <-].
  destruct (decide (r_ref_name f = r_ref_name r)) as [Heq|Hne].
  - rewrite decide_False by tauto.
    destruct (decide (r_start f < r_end r)) as [Hlt|Hge].
    + rewrite decide_False by lia.
      destruct (merge_read_pair_merged _ _ _ _ _ _ _ Heq Hlt H)
        as (ssc & _ & -> & _).
      by rewrite (right_id_L [] (++)).
    + rewrite decide_True by lia.
      rewrite merge_read_pair_not_inwards in H by (done || lia).
      by injection H as <-.
  - rewrite decide_True by done.
    rewrite merge_read_pair_other_contig in H by done. by injection H as <-.
Qed.

Lemma merge_families_log refseq l st st' :
  Forall (λ x : string * FamilyReads, well_shaped x.2) l →
  for_each
    (λ '(family_id, family_reads) st,
       st1 ← merge_read_pair refseq family_id pos (fr_pos family_reads) st;
       merge_read_pair refseq family_id neg (fr_neg family_reads) st1)
    l st = Ok st' →
  log st' = log st ++ (l ≫= family_log).
Proof.
  revert st. induction l as [|[fid fr] l IH]; intros st Hshape;
    cbn [for_each].
  - intros [= <-]. simpl. by rewrite (right_id_L [] (++)).
  - apply Forall_cons in Hshape as [[(a & b & Hp) (a' & b' & Hn)] Hshape].
    simpl in Hp, Hn.
    intros (st2 & Hbody & Hrest)%bind_Ok.
    apply bind_Ok in Hbody as (st1 & Hpos & Hneg).
    rewrite (IH _ Hshape Hrest), bind_cons.
    change (family_log (fid, fr))
      with (strand_log fid pos (fr_pos fr) ++ strand_log fid neg (fr_neg fr)).
    rewrite Hp in Hpos |- *. rewrite Hn in Hneg |- *.
    rewrite (merge_read_pair_log _ _ _ _ _ _ _ Hneg),
      (merge_read_pair_log _ _ _ _ _ _ _ Hpos).
    by rewrite <-!(assoc_L (++)).
Qed.

Lemma strand_log_entries family_id strand strand_reads e :
  e ∈ strand_log family_id strand strand_reads →
  e = Log_different_references family_id strand ∨
  e = Log_not_inwards family_id strand ∨
  e = Log_dump strand_reads.
Proof.
  unfold strand_log.
  destruct (Dict.get fwd strand_reads) as [[f|]|];
    try (by intros ?%elem_of_nil).
  destruct (Dict.get rev strand_reads) as [b|];
    try (by intros ?%elem_of_nil).
  destruct (drop_reason family_id strand f b) as [msg|] eqn:Hm;
    try (by intros ?%elem_of_nil).
  intros [->|Hin]%elem_of_cons.
  - unfold drop_reason in Hm.
    destruct b; repeat case_decide; try done; injection Hm as <-; auto.
  - apply list_elem_of_singleton in Hin as ->. auto.
Qed.

(** X21: The log of a [merge_fwd_rev_per_strand] that returns holds, for
    every dropped strand, the reason followed by the dump of the strand's
    reads, and nothing else: the reason is "different references" when the
    reverse read is missing or on another contig, and "not oriented inwards"
    when the forward read does not start before the end of the reverse read.
    The message of the first guard of [merge_read_pair] is never logged. *)
Theorem strand_merger_log refseq pos_reads neg_reads st :
  merge_fwd_rev_per_strand refseq
    (parse_bam neg neg_reads (parse_bam pos pos_reads ∅)) = Ok st →
  log st ≡ₚ
    map_to_list (parse_bam neg neg_reads (parse_bam pos pos_reads ∅))
      ≫= family_log ∧
  Log_no_fwd_rev ∉ log st.
Proof.
  unfold merge_fwd_rev_per_strand. intros Hrun.
  apply merge_families_log in Hrun.
  2:{ apply Forall_forall. intros [fid fr] Hin%elem_of_map_to_list.
      by apply (read_info_well_shaped pos_reads neg_reads fid fr). }
  simpl in Hrun. rewrite Hrun. split; [done|].
  intros ([fid fr] & Hin & _)%list_elem_of_bind.
  unfold family_log in Hin.
  apply elem_of_app in Hin as [Hin|Hin];
    apply strand_log_entries in Hin as [?|[?|?]]; done.
Qed.

Lemma strand_merger_log_witness :
  Log_no_fwd_rev ∉ log outward_st.
Proof.
  exact (proj2 (strand_merger_log refseq_long outward_pos_reads
                  outward_neg_reads outward_st eq_refl)).
Defined.

(** ** DuplexMerger: the totals of the read-position counters *)

Lemma map_sum_empty `{Countable K} {A : Type} (g : A → Z) :
  map_sum g (∅ : gmap K A) = 0.
Proof. unfold map_sum. by rewrite map_fold_empty. Qed.

Lemma map_sum_insert `{Countable K} {A : Type} (g : A → Z) (m : gmap K A)
    k a :
  m !! k = None → map_sum g (<[k := a]> m) = g a + map_sum g m.
Proof.
  intros Hk. unfold map_sum. rewrite map_fold_insert_L; [done| |done].
  intros. lia.
Qed.

Lemma map_sum_insert_Some `{Countable K} {A : Type} (g : A → Z)
    (m : gmap K A) k a v :
  m !! k = Some v → map_sum g (<[k := a]> m) = g a - g v + map_sum g m.
Proof.
  intros Hk. rewrite <-(insert_delete_eq m).
  rewrite <-(insert_delete_id m k v) at 2 by done.
  rewrite !map_sum_insert by apply lookup_delete_eq. lia.
Qed.

Lemma counter_total_add_to k n (d : gmap Z Z) :
  counter_total (add_to k n d) = counter_total d + n.
Proof.
  unfold counter_total, add_to. destruct (d !! k) as [v|] eqn:Hk; simpl.
  - rewrite (map_sum_insert_Some _ _ _ _ v) by done. unfold id. lia.
  - rewrite map_sum_insert by done. unfold id. lia.
Qed.

Lemma merge_position_totals contig start_pos end_pos x st st' :
  merge_position contig start_pos end_pos x st = Ok st' →
  counter_total (bp_nreads (ms_bp st')) =
    counter_total (bp_nreads (ms_bp st)) + (ms_nbases st' - ms_nbases st) ∧
  counter_total (bp_variants (ms_bp st')) =
    counter_total (bp_variants (ms_bp st)) + (ms_tv st' - ms_tv st) ∧
  counter_total (bp_adducts (ms_bp st')) =
    counter_total (bp_adducts (ms_bp st)) + Z.b2z (has (adduct_at contig x)).
Proof.
  destruct x as [[refpos P] N_].
  unfold merge_position, adduct_at, called.
  simpl. case_bool_decide as Hnuc.
  - intros [= <-]. simpl. rewrite decide_False by tauto. simpl.
    repeat split; lia.
  - assert (P ∈ allowed_nucs ∧ N_ ∈ allowed_nucs) as [HP HN].
    { split; apply dec_stable; tauto. }
    rewrite decide_True by done.
    intros (R & HR%item_Ok & H)%bind_Ok. rewrite HR. simpl.
    case_bool_decide as Hassert; [done|].
    case_bool_decide as HRn.
    { injection H as <-. simpl. rewrite decide_False by done.
      unfold incr. rewrite counter_total_add_to. simpl. repeat split; lia. }
    assert (R ∈ allowed_nucs) as HRa by (apply dec_stable; tauto).
    rewrite decide_True by done. simpl.
    unfold table_adduct.
    rewrite !(complement_allowed N_), !(complement_allowed R) in H by done.
    simpl in H.
    repeat case_bool_decide; repeat case_decide; try tauto;
      injection H as <-; simpl; unfold incr;
      rewrite ?counter_total_add_to; simpl; repeat split; lia.
Qed.

Lemma merge_loop_totals contig start_pos end_pos l st st' :
  for_each (merge_position contig start_pos end_pos) l st = Ok st' →
  counter_total (bp_nreads (ms_bp st')) =
    counter_total (bp_nreads (ms_bp st)) + (ms_nbases st' - ms_nbases st) ∧
  counter_total (bp_variants (ms_bp st')) =
    counter_total (bp_variants (ms_bp st)) + (ms_tv st' - ms_tv st) ∧
  counter_total (bp_adducts (ms_bp st')) =
    counter_total (bp_adducts (ms_bp st))
    + count_visits (λ x, has (adduct_at contig x)) l.
Proof.
  revert st. induction l as [|x l IH]; intros st; cbn [for_each].
  - intros [= <-]. unfold count_visits. simpl. repeat split; lia.
  - intros (st1 & H1 & H2)%bind_Ok.
    apply merge_position_totals in H1 as (Hn & Hv & Ha).
    apply IH in H2 as (Hn' & Hv' & Ha').
    rewrite Hn', Hv', Ha', Hn, Hv, Ha, count_visits_cons.
    repeat split; lia.
Qed.

(** One family adds its [nbases], its [total_variants] and the size of its
    adducts map to the totals of the three read-position counters. *)
Lemma merge_strands_totals refseq bp family_strands dsc bp' :
  merge_strands refseq bp family_strands = Ok (dsc, bp') →
  counter_total (bp_nreads bp') = counter_total (bp_nreads bp) + dsc_nbases dsc ∧
  counter_total (bp_variants bp') =
    counter_total (bp_variants bp) + dsc_total_variants dsc ∧
  counter_total (bp_adducts bp') =
    counter_total (bp_adducts bp) + Z.of_nat (size (dsc_adducts dsc)).
Proof.
  intros Hms.
  pose proof (merge_strands_state _ _ _ _ _ Hms)
    as (l & Hvis & _ & _ & _ & Ha & _).
  destruct (visits_NoDup _ _ _ _ Hvis) as [Hnd _].
  rewrite Ha, size_record_all, map_size_empty
    by (done || (intros p _; apply lookup_empty)).
  revert Hms Hvis. unfold merge_strands, visits.
  intros (start_pos & Hs & H)%bind_Ok.
  apply bind_Ok in H as (end_pos & He & H).
  apply bind_Ok in H as (pos_cons & Hp & H).
  apply bind_Ok in H as (neg_cons & Hn & H).
  apply bind_Ok in H as (st & Hloop & [= <- <-]).
  rewrite Hs, He. cbn [mbind result_bind]. rewrite Hp, Hn.
  cbn [mbind result_bind]. intros [= <-].
  apply merge_loop_totals in Hloop as (Hnr & Hv & Hadd).
  cbn [dsc_nbases dsc_total_variants dsc_ref_name dsc_start dsc_end] in *.
  rewrite Hnr, Hv, Hadd. simpl. repeat split; lia.
Qed.

Lemma merge_families_totals refseq l (d : gmap string Dsc) b d' b' :
  NoDup l.*1 → (∀ fid, fid ∈ l.*1 → d !! fid = None) →
  for_each
    (λ '(family_id, family_strands) '(dsc_info, bp),
       '(dsc, bp') ← merge_strands refseq bp family_strands;
       Ok (<[family_id := dsc]> dsc_info, bp'))
    l (d, b) = Ok (d', b') →
  counter_total (bp_nreads b') - counter_total (bp_nreads b) =
    map_sum dsc_nbases d' - map_sum dsc_nbases d ∧
  counter_total (bp_variants b') - counter_total (bp_variants b) =
    map_sum dsc_total_variants d' - map_sum dsc_total_variants d ∧
  counter_total (bp_adducts b') - counter_total (bp_adducts b) =
    map_sum (λ dsc, Z.of_nat (size (dsc_adducts dsc))) d'
    - map_sum (λ dsc, Z.of_nat (size (dsc_adducts dsc))) d.
Proof.
  revert d b. induction l as [|[fid fs] l IH]; intros d b Hnd Hfresh;
    cbn [for_each].
  - intros [= <- <-]. repeat split; lia.
  - rewrite fmap_cons in Hnd. apply NoDup_cons in Hnd as [Hfid Hnd].
    intros ([d1 b1] & Hbody & Hrest)%bind_Ok.
    apply bind_Ok in Hbody as ([dsc b2] & Hms & [= <- <-]).
    apply merge_strands_totals in Hms as (Hn & Hv & Ha).
    apply IH in Hrest as (Hn' & Hv' & Ha'); [|done|].
    2:{ intros fid' Hin. rewrite lookup_insert_ne by (by intros ->).
        apply Hfresh. rewrite fmap_cons. by right. }
    rewrite !map_sum_insert in Hn', Hv', Ha'
      by (apply Hfresh; rewrite fmap_cons; by left).
    repeat split; lia.
Qed.

(** X22: The totals of the three read-position counters of a completed run
    are sums over all families of the final DSC map, whatever the filter of
    the folder that the table is written to: 'nreads' totals their [nbases],
    'variants' their [total_variants] and 'adducts' the sizes of their
    adducts maps. *)
Theorem read_position_totals refseq pos_reads neg_reads ps :
  parse_ssc refseq pos_reads neg_reads = Ok ps →
  counter_total (bp_nreads (ps_base_positions ps)) =
    map_sum dsc_nbases (ps_dsc_info ps) ∧
  counter_total (bp_variants (ps_base_positions ps)) =
    map_sum dsc_total_variants (ps_dsc_info ps) ∧
  counter_total (bp_adducts (ps_base_positions ps)) =
    map_sum (λ dsc, Z.of_nat (size (dsc_adducts dsc))) (ps_dsc_info ps).
Proof.
  intros (st & _ & _ & _ & Hm)%parse_ssc_inv.
  unfold merge_pos_neg_strands in Hm.
  apply merge_families_totals in Hm as (Hn & Hv & Ha);
    [|apply NoDup_fst_map_to_list|intros; apply lookup_empty].
  rewrite !map_sum_empty in Hn, Hv, Ha.
  unfold base_positions_init, counter_total in *. simpl in *.
  rewrite !map_sum_empty in Hn, Hv, Ha. repeat split; lia.
Qed.

Lemma read_position_totals_witness :
  counter_total (bp_adducts (ps_base_positions dual_ps)) =
    map_sum (λ dsc, Z.of_nat (size (dsc_adducts dsc))) (ps_dsc_info dual_ps).
Proof.
  destruct (read_position_totals refseq_acgt dual_pos_reads dual_neg_reads
              dual_ps eq_refl) as (_ & _ & H).
  exact H.
Defined.

(** ** ReadParser: what [parse_bam] keeps of a file *)

Lemma Dict_get_set {K V : Type} `{EqDecision K} (k k' : K) (v : V) d :
  Dict.get k' (Dict.set k v d) = if decide (k' = k) then Some v
                                 else Dict.get k' d.
Proof.
  induction d as [|[k0 v0] d IH]; simpl.
  - by repeat case_decide.
  - destruct (decide (k = k0)) as [->|Hne]; simpl.
    + repeat case_decide; congruence.
    + rewrite IH. repeat case_decide; congruence.
Qed.

Lemma stored_read_store strand read_info x family_id s o :
  stored_read (store_read strand read_info x) family_id s o =
    if decide (x.1 = (family_id, o) ∧ s = strand) then Some (Some x.2)
    else stored_read read_info family_id s o.
Proof.
  destruct x as [[fid o'] rd]. unfold stored_read, store_read. simpl.
  destruct (decide (fid = family_id)) as [->|Hfid].
  - rewrite lookup_insert_eq. simpl.
    destruct strand, s; simpl; rewrite ?Dict_get_set;
      repeat case_decide; destruct_and?; simplify_eq; try done;
      exfalso; intuition congruence.
  - rewrite lookup_insert_ne by done.
    rewrite decide_False; [done|]. intros [[= ? ?] _]. done.
Qed.

Lemma parse_bam_cons strand x reads read_info :
  parse_bam strand (x :: reads) read_info =
    parse_bam strand reads (store_read strand read_info x).
Proof. by destruct x as [[fid o] rd]. Qed.

Lemma stored_read_parse_bam strand reads read_info family_id s o :
  stored_read (parse_bam strand reads read_info) family_id s o =
    if decide (s = strand) then
      match last (reads_of family_id o reads) with
      | Some x => Some (Some x.2)
      | None => stored_read read_info family_id s o
      end
    else stored_read read_info family_id s o.
Proof.
  revert read_info. induction reads as [|x reads IH]; intros ri.
  - simpl. by case_decide.
  - rewrite parse_bam_cons, IH. unfold reads_of. rewrite filter_cons.
    fold (reads_of family_id o reads). rewrite stored_read_store.
    destruct (decide (s = strand)) as [->|Hs].
    + destruct (decide (x.1 = (family_id, o))) as [Hx|Hx].
      * rewrite decide_True by done. rewrite last_cons.
        by destruct (last (reads_of family_id o reads)).
      * rewrite decide_False by tauto. done.
    + rewrite decide_False by tauto. done.
Qed.

(** X23: [parse_bam] keeps one read per family, strand and orientation: the
    last record of the file with that family and orientation. Earlier
    records of the same kind are overwritten, the other strand is left as it
    was, and the families of [read_info] are those it had and those of the
    file. *)
Theorem parse_bam_last_read strand reads read_info :
  (∀ family_id o,
     stored_read (parse_bam strand reads read_info) family_id strand o =
       match last (reads_of family_id o reads) with
       | Some x => Some (Some x.2)
       | None => stored_read read_info family_id strand o
       end) ∧
  (∀ family_id s o, s ≠ strand →
     stored_read (parse_bam strand reads read_info) family_id s o =
       stored_read read_info family_id s o) ∧
  dom (parse_bam strand reads read_info) =
    dom read_info ∪ list_to_set ((λ x : ParsedRead, x.1.1) <$> reads).
Proof.
  split_and!.
  - intros fid o. by rewrite stored_read_parse_bam, decide_True.
  - intros fid s o Hs. by rewrite stored_read_parse_bam, decide_False.
  - revert read_info. induction reads as [|x reads IH]; intros ri.
    + simpl. by rewrite (right_id_L ∅ (∪)).
    + rewrite parse_bam_cons, IH, fmap_cons. destruct x as [[fid o] rd].
      simpl. rewrite dom_insert_L.
      rewrite (comm_L (∪) {[fid]} (dom ri)). by rewrite (assoc_L (∪)).
Qed.

(** ** StrandMerger: every strand is built or logged *)

Lemma merge_read_pair_cases refseq family_id strand f b st st' :
  merge_read_pair refseq family_id strand [(fwd, Some f); (rev, b)] st
    = Ok st' →
  match drop_reason family_id strand f b with
  | Some msg => ssc_info st' = ssc_info st
  | None =>
      ∃ r family',
        b = Some r ∧ r_ref_name f = r_ref_name r ∧ r_start f < r_end r ∧
        ssc_info st' !! family_id = Some family' ∧
        (∀ other, other ≠ strand →
           fs_get other family' =
             fs_get other
               (default ssc_info_default (ssc_info st !! family_id))) ∧
        strand_built (refseq_contig refseq (Some (r_ref_name f))) f r
          (fs_get strand family')
  end.
Proof.
  intros H. unfold drop_reason. destruct b as [r|];
    [|rewrite merge_read_pair_no_rev in H; by injection H as <-].
  destruct (decide (r_ref_name f = r_ref_name r)) as [Heq|Hne].
  - rewrite decide_False by tauto.
    destruct (decide (r_start f < r_end r)) as [Hlt|Hge].
    + rewrite decide_False by lia.
      destruct (merge_read_pair_built _ _ _ _ _ _ _ Heq Hlt H)
        as (_ & fam' & Hfam' & Hother & Hbuilt).
      by exists r, fam'.
    + rewrite decide_True by lia.
      rewrite merge_read_pair_not_inwards in H by (done || lia).
      by injection H as <-.
  - rewrite decide_True by done.
    rewrite merge_read_pair_other_contig in H by done. by injection H as <-.
Qed.

Lemma strand_log_two_keys family_id strand f b :
  strand_log family_id strand [(fwd, Some f); (rev, b)] =
    match drop_reason family_id strand f b with
    | Some msg => [msg; Log_dump [(fwd, Some f); (rev, b)]]
    | None => []
    end.
Proof. reflexivity. Qed.

Lemma drop_reason_tag family_id strand f b msg :
  drop_reason family_id strand f b = Some msg →
  msg = Log_different_references family_id strand ∨
  msg = Log_not_inwards family_id strand.
Proof.
  unfold drop_reason. destruct b; repeat case_decide; try done;
    intros [= <-]; auto.
Qed.

(** The entry of [ssc_info] for one strand of a family of [read_info], after
    a [merge_fwd_rev_per_strand] that returns. *)
Lemma family_strand_state refseq read_info st family_id family_reads strand :
  map_Forall (λ _, well_shaped) read_info →
  merge_fwd_rev_per_strand refseq read_info = Ok st →
  read_info !! family_id = Some family_reads →
  ∃ f b,
    fr_get strand family_reads = [(fwd, Some f); (rev, b)] ∧
    match drop_reason family_id strand f b with
    | Some msg =>
        fs_get strand (default ssc_info_default (ssc_info st !! family_id))
          = ssc_default
    | None =>
        ∃ r, b = Some r ∧ r_ref_name f = r_ref_name r ∧
             r_start f < r_end r ∧
             is_Some (ssc_info st !! family_id) ∧
             strand_built (refseq_contig refseq (Some (r_ref_name f))) f r
               (fs_get strand
                  (default ssc_info_default (ssc_info st !! family_id)))
    end.
Proof.
  intros Hshape Hrun Hfr.
  pose proof (merge_fwd_rev_per_strand_outcome _ _ _ family_id Hrun) as Hout.
  rewrite Hfr in Hout.
  destruct Hout as (st0 & st1 & st2 & H0 & Hpos & Hneg & Hst).
  destruct (Hshape family_id _ Hfr) as [(a & b & Hp) (a' & b' & Hn)].
  simpl in Hp, Hn. rewrite Hp in Hpos. rewrite Hn in Hneg.
  destruct a as [f|]; [|by rewrite merge_read_pair_no_fwd in Hpos].
  destruct a' as [f'|]; [|by rewrite merge_read_pair_no_fwd in Hneg].
  apply merge_read_pair_cases in Hpos. apply merge_read_pair_cases in Hneg.
  rewrite <-Hst. destruct strand; simpl fr_get.
  - exists f, b. split; [done|].
    destruct (drop_reason family_id pos f b) as [msg|].
    + destruct (drop_reason family_id neg f' b') as [msg'|].
      * by rewrite Hneg, Hpos, H0.
      * destruct Hneg as (r' & fam' & _ & _ & _ & -> & Hother & _).
        change (default ssc_info_default (Some fam')) with fam'.
        rewrite (Hother pos) by done. by rewrite Hpos, H0.
    + destruct Hpos as (r & fam & -> & Hc & Hlt & Hfam & _ & Hbuilt).
      exists r. split_and!; [done..| |].
      * destruct (drop_reason family_id neg f' b') as [msg'|].
        -- rewrite Hneg, Hfam. by eexists.
        -- destruct Hneg as (r' & fam' & _ & _ & _ & -> & _). by eexists.
      * destruct (drop_reason family_id neg f' b') as [msg'|].
        -- by rewrite Hneg, Hfam.
        -- destruct Hneg as (r' & fam' & _ & _ & _ & -> & Hother & _).
           change (default ssc_info_default (Some fam')) with fam'.
           rewrite (Hother pos) by done. by rewrite Hfam.
  - exists f', b'. split; [done|].
    destruct (drop_reason family_id neg f' b') as [msg'|].
    + rewrite Hneg.
      destruct (drop_reason family_id pos f b) as [msg|].
      * by rewrite Hpos, H0.
      * destruct Hpos as (r & fam & _ & _ & _ & -> & Hother & _).
        change (default ssc_info_default (Some fam)) with fam.
        rewrite (Hother neg) by done. by rewrite H0.
    + destruct Hneg as (r' & fam' & -> & Hc & Hlt & -> & _ & Hbuilt').
      exists r'. split_and!; [done..|by eexists|done].
Qed.

(** X24: After a [merge_fwd_rev_per_strand] that returns, every strand of
    every family of [read_info] has a forward read and is in one of two
    states. Either it was dropped: its reason and the dump of its reads are
    in the log and its entry of [ssc_info] is as the default factory makes
    it. Or it was built from its forward and reverse read, and the log holds
    no reason for it. *)
Theorem strand_built_or_logged refseq pos_reads neg_reads st family_id
    family_reads strand :
  merge_fwd_rev_per_strand refseq
    (parse_bam neg neg_reads (parse_bam pos pos_reads ∅)) = Ok st →
  parse_bam neg neg_reads (parse_bam pos pos_reads ∅) !! family_id
    = Some family_reads →
  ∃ f b,
    fr_get strand family_reads = [(fwd, Some f); (rev, b)] ∧
    let ssc :=
      fs_get strand (default ssc_info_default (ssc_info st !! family_id)) in
    match drop_reason family_id strand f b with
    | Some msg =>
        (msg ∈ log st ∧ Log_dump (fr_get strand family_reads) ∈ log st ∧
         ssc = ssc_default)
    | None =>
        ((∃ r, b = Some r ∧
               strand_built (refseq_contig refseq (Some (r_ref_name f))) f r
                 ssc) ∧
         (Log_different_references family_id strand ∉ log st) ∧
         (Log_not_inwards family_id strand ∉ log st))
    end.
Proof.
  intros Hrun Hfr.
  destruct (family_strand_state _ _ _ _ _ strand
              (read_info_well_shaped pos_reads neg_reads) Hrun Hfr)
    as (f & b & Hsr & Hstate).
  exists f, b. split; [done|]. cbv zeta.
  assert (log st = log {| ssc_info := ∅; log := [] |} ++
            (map_to_list (parse_bam neg neg_reads (parse_bam pos pos_reads ∅))
               ≫= family_log)) as Hlog.
  { apply (merge_families_log refseq); [|exact Hrun].
    apply Forall_forall. intros [fid fr] Hin%elem_of_map_to_list.
    by apply (read_info_well_shaped pos_reads neg_reads fid fr). }
  simpl in Hlog.
  assert (∀ e, e ∈ strand_log family_id strand (fr_get strand family_reads) →
               e ∈ log st) as Hlogged.
  { intros e He. rewrite Hlog. apply list_elem_of_bind.
    exists (family_id, family_reads).
    split; [|by apply elem_of_map_to_list].
    unfold family_log. simpl. apply elem_of_app.
    destruct strand; [by left|by right]. }
  assert (∀ e,
    e = Log_different_references family_id strand ∨
    e = Log_not_inwards family_id strand →
    e ∈ log st →
    e ∈ strand_log family_id strand (fr_get strand family_reads)) as Hreason.
  { intros e He. rewrite Hlog.
    intros ([fid fr] & Hin & Hfr'%elem_of_map_to_list)%list_elem_of_bind.
    unfold family_log in Hin. simpl in Hin.
    assert (fid = family_id ∧
            e ∈ strand_log fid strand (fr_get strand fr)) as [-> Hin'].
    { apply elem_of_app in Hin as [Hin|Hin];
        pose proof (strand_log_entries _ _ _ _ Hin) as Hcases;
        destruct He as [-> | ->]; destruct Hcases as [Hc|[Hc|Hc]];
        try done; injection Hc as -> ->; done. }
    rewrite Hfr in Hfr'. by injection Hfr' as <-. }
  rewrite Hsr, strand_log_two_keys in Hlogged, Hreason. rewrite Hsr.
  destruct (drop_reason family_id strand f b) as [msg|].
  - split_and!; [apply Hlogged; by left|apply Hlogged; right; by left|done].
  - destruct Hstate as (r & -> & _ & _ & _ & Hbuilt). split_and!.
    + by exists r.
    + intros Hin. apply Hreason in Hin; [|by left]. by apply elem_of_nil in Hin.
    + intros Hin. apply Hreason in Hin; [|by right]. by apply elem_of_nil in Hin.
Qed.

Lemma strand_built_or_logged_witness :
  Log_not_inwards F1 neg ∈ log outward_st.
Proof.
  assert (parse_bam neg outward_neg_reads (parse_bam pos outward_pos_reads ∅)
            !! F1 =
          Some {| fr_pos := [(fwd, Some (read_on 100 103 []));
                             (rev, Some (read_on 100 103 []))];
                  fr_neg := [(fwd, Some (read_on 106 112 []));
                             (rev, Some (read_on 102 106 []))] |}) as Hfr
    by (vm_compute; reflexivity).
  destruct (strand_built_or_logged refseq_long outward_pos_reads
              outward_neg_reads outward_st F1 _ neg eq_refl Hfr)
    as (f & b & Hsr & H).
  simpl in Hsr. injection Hsr as <- <-.
  exact (proj1 H).
Defined.

(** ** [make_plots.py]: complementary base changes *)

(** X25: Every change between two different nucleotides has a label, which
    it shares with the change between the complementary bases and with no
    other change; the label names the base pair of one of the two. A row
    whose base did not change has no label. *)
Theorem complementary_labels base variable :
  base ∈ allowed_nucs → variable ∈ allowed_nucs → base ≠ variable →
  ∃ label,
    base_pair_change [base_change base variable] = [Some label] ∧
    base_pair_change
      [base_change (complement_base base) (complement_base variable)]
      = [Some label] ∧
    (label = pair_label base variable ∨
     label = pair_label (complement_base base) (complement_base variable)) ∧
    (∀ base' variable',
       base' ∈ allowed_nucs → variable' ∈ allowed_nucs →
       base_pair_change [base_change base' variable'] = [Some label] →
       (base' = base ∧ variable' = variable) ∨
       (base' = complement_base base ∧
        variable' = complement_base variable)) ∧
    base_pair_change [base_change base base] = [None].
Proof.
  intros Hb%allowed_nucs_cases Hv%allowed_nucs_cases Hne.
  destruct Hb as [-> | [-> | [-> | ->]]];
    destruct Hv as [-> | [-> | [-> | ->]]]; try done;
    (eexists; split; [vm_compute; reflexivity|];
     split; [vm_compute; reflexivity|];
     split; [vm_compute; auto|];
     split; [|vm_compute; reflexivity];
     intros b' v' Hb'%allowed_nucs_cases Hv'%allowed_nucs_cases;
     destruct Hb' as [-> | [-> | [-> | ->]]];
     destruct Hv' as [-> | [-> | [-> | ->]]];
     vm_compute; intros [=]; auto).
Qed.

Lemma complementary_labels_witness :
  ∃ label,
    base_pair_change [base_change "A" "C"] = [Some label] ∧
    base_pair_change [base_change "T" "G"] = [Some label].
Proof.
  destruct (complementary_labels "A" "C") as (label & H1 & H2 & _).
  - apply allowed_nucs_cases. auto.
  - apply allowed_nucs_cases. auto.
  - discriminate.
  - exists label. exact (conj H1 H2).
Defined.

(** ** A run on complete families *)

Lemma strand_variants_cached contig f r p v :
  strand_variants_union contig f r !! p = Some v → is_Some (contig !! p).
Proof.
  unfold strand_variants_union, rev_entry, fwd_entry.
  rewrite lookup_union, !map_lookup_imap.
  destruct (contig !! p) as [ref|]; [by eexists|].
  destruct (r_variants r !! p), (r_variants f !! p); done.
Qed.

(** A nucleotide in the consensus of a built strand stands at a position
    that the reference cache holds. *)
Lemma built_nucleotide_cached contig f r ssc cons p ch :
  strand_built contig f r ssc →
  (∀ q, is_Some (ssc_variants ssc !! q) → is_Some (contig !! q)) →
  ssc_cons ssc = Some cons →
  r_start f ≤ p ≤ r_end r →
  cons !! Z.to_nat (p - r_start f) = Some ch →
  upper_char ch ∈ allowed_nucs →
  is_Some (contig !! p).
Proof.
  intros (_ & _ & _ & cons' & Hc' & _ & Hchar) Hvs Hc Hp Hch Hnuc.
  rewrite Hc in Hc'. injection Hc' as <-.
  rewrite (Hchar p Hp) in Hch. injection Hch as <-.
  assert (upper_char "N" ∉ allowed_nucs) as HN.
  { rewrite allowed_nucs_cases. vm_compute. intros [?|[?|[?|?]]]; done. }
  destruct (covered f r p); [|done].
  destruct (ssc_variants ssc !! p) as [v|] eqn:Hv.
  - apply Hvs. by eexists.
  - destruct (contig !! p); [by eexists|done].
Qed.

Lemma complete_strands_merge refseq bp family_strands c fp rp fn rn :
  ssc_ref_name (fs_pos family_strands) = Some c →
  strand_built (refseq_contig refseq (Some c)) fp rp (fs_pos family_strands) →
  strand_built (refseq_contig refseq (Some c)) fn rn (fs_neg family_strands) →
  (∀ s q, is_Some (ssc_variants (fs_get s family_strands) !! q) →
          is_Some (refseq_contig refseq (Some c) !! q)) →
  ∃ dsc bp', merge_strands refseq bp family_strands = Ok (dsc, bp').
Proof.
  intros Hname Hpos Hneg Hvs.
  pose proof Hpos as (_ & Hps & Hpe & pc & Hpc & Hplen & _).
  pose proof Hneg as (_ & Hns & Hne & nc & Hnc & Hnlen & _).
  destruct (visits family_strands) as [[[s e] l]|err] eqn:Hvis; last first.
  { unfold visits, trim_cons in Hvis.
    rewrite Hps, Hns, Hpe, Hne, Hpc, Hnc in Hvis. done. }
  apply (merge_strands_outcome refseq bp _ s e l Hvis).
  rewrite Hname. intros [[p P] N_] Hx [HP HN]%bool_decide_eq_true.
  unfold refpos_of. cbn [fst snd] in *.
  unfold visits in Hvis. rewrite Hps, Hns, Hpe, Hne in Hvis.
  cbn [py_max py_min mbind result_bind] in Hvis.
  apply bind_Ok in Hvis as (pos_cons & Hptrim & H).
  apply bind_Ok in H as (neg_cons & Hntrim & [= <- <- <-]).
  apply merge_positions_elem_of in Hx as (Hp & HPl & HNl).
  destruct (decide (r_start fn ≤ r_start fp)) as [Hle|Hgt].
  - replace (Z.max (r_start fp) (r_start fn)) with (r_start fp) in * by lia.
    rewrite (trim_cons_aligned _ _ _ pc (r_end rp)) in Hptrim
      by (done || lia).
    injection Hptrim as <-. unfold upper in HPl.
    apply list_lookup_fmap_Some in HPl as (ch & -> & Hch).
    apply lookup_take_Some in Hch as [Hch _].
    apply (built_nucleotide_cached _ fp rp (fs_pos family_strands) pc p ch);
      try done; [|lia].
    intros q. apply (Hvs pos).
  - replace (Z.max (r_start fp) (r_start fn)) with (r_start fn) in * by lia.
    rewrite (trim_cons_aligned _ _ _ nc (r_end rn)) in Hntrim
      by (done || lia).
    injection Hntrim as <-. unfold upper in HNl.
    apply list_lookup_fmap_Some in HNl as (ch & -> & Hch).
    apply lookup_take_Some in Hch as [Hch _].
    apply (built_nucleotide_cached _ fn rn (fs_neg family_strands) nc p ch);
      try done; [|lia].
    intros q. apply (Hvs neg).
Qed.

Lemma complete_pair_kept family_id strand c f r :
  r_ref_name f = c → r_ref_name r = c → r_start f < r_end r →
  drop_reason family_id strand f (Some r) = None.
Proof.
  intros Hf Hr Hlt. unfold drop_reason.
  rewrite decide_False by (rewrite Hf, Hr; tauto).
  rewrite decide_False by lia. done.
Qed.

Lemma for_each_total {A S : Type} (body : A → S → result S) (l : list A) :
  (∀ x st, x ∈ l → ∃ st', body x st = Ok st') →
  ∀ st, ∃ st', for_each body l st = Ok st'.
Proof.
  induction l as [|x l IH]; intros Hbody st; cbn [for_each]; [by eexists|].
  destruct (Hbody x st) as [st1 ->]; [by left|]. cbn [mbind result_bind].
  apply IH. intros y s Hy. apply Hbody. by right.
Qed.

(** X26: When every family of [read_info] has, on both strands, a forward
    and a reverse read of one contig that point inwards, and the reference
    cache holds every variant position of the reads, the run completes: no
    exception is raised, nothing is logged, and the final DSC map has a
    record for every family. *)
Theorem complete_run refseq pos_reads neg_reads :
  reads_cached refseq (parse_bam neg neg_reads (parse_bam pos pos_reads ∅)) →
  map_Forall (λ _, complete_family)
    (parse_bam neg neg_reads (parse_bam pos pos_reads ∅)) →
  ∃ ps,
    parse_ssc refseq pos_reads neg_reads = Ok ps ∧
    dom (ps_dsc_info ps) =
      dom (parse_bam neg neg_reads (parse_bam pos pos_reads ∅)) ∧
    ps_log ps = [].
Proof.
  intros Hcached Hcomplete.
  set (read_info := parse_bam neg neg_reads (parse_bam pos pos_reads ∅)) in *.
  pose proof (read_info_well_shaped pos_reads neg_reads) as Hshape.
  fold read_info in Hshape.
  destruct (merge_loaded_outcome refseq read_info Hshape Hcached)
    as [_ Hok].
  destruct Hok as [st Hst].
  { intros (fid & fr & strand & Hfr & Hget).
    destruct (Hcomplete fid fr Hfr)
      as (c & (f & r & Hp & _) & (f' & r' & Hn & _)).
    destruct strand; simpl in Hget; [rewrite Hp in Hget|rewrite Hn in Hget];
      done. }
  assert (∀ fid fr, read_info !! fid = Some fr →
    ∃ c fam fp rp fn rn,
      ssc_info st !! fid = Some fam ∧
      ssc_ref_name (fs_pos fam) = Some c ∧
      strand_built (refseq_contig refseq (Some c)) fp rp (fs_pos fam) ∧
      strand_built (refseq_contig refseq (Some c)) fn rn (fs_neg fam) ∧
      (∀ s q, is_Some (ssc_variants (fs_get s fam) !! q) →
              is_Some (refseq_contig refseq (Some c) !! q)) ∧
      family_log (fid, fr) = []) as Hfam.
  { intros fid fr Hfr.
    destruct (Hcomplete fid fr Hfr)
      as (c & (fp & rp & Hp & Hfp & Hrp & Hltp)
            & (fn & rn & Hn & Hfn & Hrn & Hltn)).
    destruct (family_strand_state refseq read_info st fid fr pos Hshape Hst Hfr)
      as (f & b & Hsr & Hstate).
    simpl in Hsr. rewrite Hp in Hsr. injection Hsr as <- <-.
    rewrite (complete_pair_kept fid pos c) in Hstate by done.
    destruct Hstate as (r & [= <-] & _ & _ & [fam Hfam] & Hbp).
    destruct (family_strand_state refseq read_info st fid fr neg Hshape Hst Hfr)
      as (f' & b' & Hsr' & Hstate').
    simpl in Hsr'. rewrite Hn in Hsr'. injection Hsr' as <- <-.
    rewrite (complete_pair_kept fid neg c) in Hstate' by done.
    destruct Hstate' as (r' & [= <-] & _ & _ & _ & Hbn).
    rewrite Hfam in Hbp, Hbn. simpl in Hbp, Hbn. rewrite Hfp in Hbp.
    rewrite Hfn in Hbn.
    exists c, fam, fp, rp, fn, rn. split_and!; [done| |done|done| |].
    - destruct Hbp as (Hname & _). by rewrite Hname, Hfp.
    - pose proof (merge_fwd_rev_per_strand_outcome _ _ _ fid Hst) as Hout.
      rewrite Hfr, Hfam in Hout.
      intros s q [v Hv].
      destruct (family_outcome_strand refseq fid fr fam s (Hshape fid fr Hfr)
                  Hout) as (f0 & r0 & Hsr0 & _ & _ & Hunion & _).
      { destruct s; simpl; [destruct Hbp as (_ & -> & _)
                           |destruct Hbn as (_ & -> & _)]; done. }
      rewrite Hunion in Hv. apply strand_variants_cached in Hv.
      destruct s; simpl in Hsr0;
        [rewrite Hp in Hsr0|rewrite Hn in Hsr0]; injection Hsr0 as <- <-;
        by rewrite ?Hfp, ?Hfn in Hv.
    - unfold family_log. cbn [fst snd]. rewrite Hp, Hn, !strand_log_two_keys.
      by rewrite (complete_pair_kept fid pos c),
        (complete_pair_kept fid neg c). }
  assert (dom (ssc_info st) = dom read_info) as Hdom.
  { apply set_eq. intros fid. rewrite !elem_of_dom.
    pose proof (merge_fwd_rev_per_strand_outcome _ _ _ fid Hst) as Hout.
    split.
    - intros [fam Hfam']. destruct (read_info !! fid); [by eexists|].
      congruence.
    - intros [fr Hfr].
      destruct (Hfam fid fr Hfr) as (c & fam & _ & _ & _ & _ & -> & _).
      by eexists. }
  assert (∃ res, merge_pos_neg_strands refseq base_positions_init (ssc_info st)
                   = Ok res) as [[dsc_info bp] Hmerge].
  { unfold merge_pos_neg_strands. apply for_each_total.
    intros [fid fam] [d b] Hin%elem_of_map_to_list.
    assert (is_Some (read_info !! fid)) as [fr Hfr].
    { apply elem_of_dom. rewrite <-Hdom. apply elem_of_dom. by eexists. }
    destruct (Hfam fid fr Hfr)
      as (c & fam' & fp & rp & fn & rn & Hfam' & Hname & Hbp & Hbn & Hvs & _).
    rewrite Hin in Hfam'. injection Hfam' as <-.
    destruct (complete_strands_merge refseq b fam c fp rp fn rn Hname Hbp Hbn
                Hvs) as (dsc & b' & ->).
    by eexists. }
  exists {| ps_ssc_info := ssc_info st; ps_log := log st;
            ps_dsc_info := dsc_info; ps_base_positions := bp |}.
  split_and!.
  - unfold parse_ssc. fold read_info. rewrite Hst. cbn [mbind result_bind].
    rewrite Hmerge. done.
  - simpl. rewrite <-Hdom.
    by apply (merge_pos_neg_strands_dom refseq base_positions_init _ _ bp).
  - simpl. unfold merge_fwd_rev_per_strand in Hst.
    apply merge_families_log in Hst.
    2:{ apply Forall_forall. intros [fid fr] Hin%elem_of_map_to_list.
        by apply (Hshape fid fr). }
    rewrite Hst. simpl.
    assert (∀ l : list (string * FamilyReads),
      (∀ x, x ∈ l → x ∈ map_to_list read_info) → l ≫= family_log = [])
      as Hnil; [|by apply Hnil].
    intros l. induction l as [|[fid fr] l IH]; intros Hl; [done|].
    rewrite bind_cons, IH by (intros y Hy; apply Hl; by right).
    destruct (Hfam fid fr)
      as (c & fam & _ & _ & _ & _ & _ & _ & _ & _ & _ & ->); [|done].
    apply elem_of_map_to_list, Hl. by left.
Qed.

Lemma complete_run_witness :
  ∃ ps,
    parse_ssc refseq_long slip_pos_reads slip_neg_reads = Ok ps ∧
    dom (ps_dsc_info ps) =
      dom (parse_bam neg slip_neg_reads (parse_bam pos slip_pos_reads ∅)) ∧
    ps_log ps = [].
Proof.
  apply complete_run.
  - intros fid fr strand o rd Hfr%elem_of_map_to_list Hin p [b Hb].
    vm_compute in Hfr. inversion Hfr as [|? ? ? Hnil]; [subst|inversion Hnil].
    destruct strand; vm_compute in Hin;
      (inversion Hin as [|? ? ? Hin2]; subst;
       [vm_compute in Hb; discriminate|];
       inversion Hin2 as [|? ? ? Hin3]; subst;
       [vm_compute in Hb; discriminate|inversion Hin3]).
  - intros fid fr Hfr%elem_of_map_to_list.
    vm_compute in Hfr. inversion Hfr as [|? ? ? Hnil]; [subst|inversion Hnil].
    exists chr1. split; eexists _, _;
      (split_and!; [reflexivity|reflexivity|reflexivity|simpl; lia]).
Defined.

(** ** The summary and the read-position table *)

Lemma map_sum_foldr `{Countable K} {A : Type} (g : A → Z) (m : gmap K A) :
  map_sum g m = foldr Z.add 0 ((λ x, g x.2) <$> map_to_list m).
Proof.
  unfold map_sum. rewrite map_fold_foldr.
  induction (map_to_list m) as [|[k a] l IH]; [done|].
  rewrite fmap_cons. cbn [foldr]. by rewrite IH.
Qed.

Lemma kept_sum_all (g : Dsc → Z) keep (l : list (string * Dsc)) :
  (∀ x, x ∈ l → x.1 ∈ keep) →
  kept_sum g (λ _, True) keep l = foldr Z.add 0 ((λ x, g x.2) <$> l).
Proof.
  induction l as [|x l IH]; intros Hl; [done|].
  rewrite kept_sum_cons, IH by (intros y Hy; apply Hl; by right).
  rewrite decide_True by (split; [apply Hl; by left|done]).
  by rewrite fmap_cons.
Qed.

Lemma kept_sum_le (g : Dsc → Z) keep (l : list (string * Dsc)) :
  (∀ x, x ∈ l → 0 ≤ g x.2) →
  kept_sum g (λ _, True) keep l ≤ foldr Z.add 0 ((λ x, g x.2) <$> l).
Proof.
  induction l as [|x l IH]; intros Hl; [done|].
  rewrite kept_sum_cons, fmap_cons. cbn [foldr].
  assert (0 ≤ g x.2) by (apply Hl; by left).
  assert (kept_sum g (λ _, True) keep l
          ≤ foldr Z.add 0 ((λ x, g x.2) <$> l))
    by (apply IH; intros y Hy; apply Hl; by right).
  case_decide; lia.
Qed.

Lemma kept_sum_ext (g g' : Dsc → Z) (P : Dsc → Prop) `{∀ d, Decision (P d)}
    keep (l : list (string * Dsc)) :
  (∀ x, x ∈ l → g x.2 = g' x.2) → kept_sum g P keep l = kept_sum g' P keep l.
Proof.
  induction l as [|x l IH]; intros Hl; [done|].
  rewrite !kept_sum_cons, IH by (intros y Hy; apply Hl; by right).
  by rewrite (Hl x) by (by left).
Qed.

(** The sizes that the summary adds up are the counters of the records. *)
Lemma final_dsc_sizes refseq bp family_strands dsc bp' :
  merge_strands refseq bp family_strands = Ok (dsc, bp') →
  dsc_total_variants dsc = Z.of_nat (size (dsc_variants dsc)) ∧
  0 ≤ dsc_nbases dsc.
Proof.
  intros (l & Hvis & _ & Hn & Hv & _ & Htv & _)%merge_strands_state.
  destruct (visits_NoDup _ _ _ _ Hvis) as [Hnd _].
  rewrite Htv, Hv, Hn, size_record_all, map_size_empty
    by (done || (intros p _; apply lookup_empty)).
  split; [lia|apply count_visits_nonneg].
Qed.

(** X27: For a completed run, the summary of the folder of all families
    agrees with the read-position table: its 'bases' and 'variants' are the
    totals of the 'nreads' and 'variants' columns and its 'adducts' is twice
    the total of the 'adducts' column. The table is the same in every
    folder, so the summary of a filtered folder has at most these totals. *)
Theorem summary_and_read_positions refseq pos_reads neg_reads ps filter_on :
  parse_ssc refseq pos_reads neg_reads = Ok ps →
  let bp := ps_base_positions ps in
  let all := keep_families filter_on (ps_dsc_info ps) None in
  total_of "bases" (format_summary (ps_dsc_info ps) all)
    = counter_total (bp_nreads bp) ∧
  total_of "variants" (format_summary (ps_dsc_info ps) all)
    = counter_total (bp_variants bp) ∧
  total_of "adducts" (format_summary (ps_dsc_info ps) all)
    = 2 * counter_total (bp_adducts bp) ∧
  ∀ keep,
    total_of "bases" (format_summary (ps_dsc_info ps) keep)
      ≤ counter_total (bp_nreads bp) ∧
    total_of "variants" (format_summary (ps_dsc_info ps) keep)
      ≤ counter_total (bp_variants bp) ∧
    total_of "adducts" (format_summary (ps_dsc_info ps) keep)
      ≤ 2 * counter_total (bp_adducts bp).
Proof.
  intros Hrun. cbv zeta.
  destruct (parse_ssc_inv _ _ _ _ Hrun) as (st & _ & _ & _ & Hm).
  unfold merge_pos_neg_strands in Hm.
  apply merge_families_totals in Hm as (Hn & Hv & Ha);
    [|apply NoDup_fst_map_to_list|intros; apply lookup_empty].
  assert (counter_total (bp_nreads (ps_base_positions ps))
            = map_sum dsc_nbases (ps_dsc_info ps) ∧
          counter_total (bp_variants (ps_base_positions ps))
            = map_sum dsc_total_variants (ps_dsc_info ps) ∧
          counter_total (bp_adducts (ps_base_positions ps))
            = map_sum (λ dsc, Z.of_nat (size (dsc_adducts dsc)))
                (ps_dsc_info ps)) as (Hn' & Hv' & Ha').
  { rewrite !map_sum_empty in Hn, Hv, Ha.
    unfold base_positions_init, counter_total in *. simpl in *.
    rewrite !map_sum_empty in Hn, Hv, Ha. repeat split; lia. }
  clear Hn Hv Ha. rewrite Hn', Hv', Ha', !map_sum_foldr. clear Hn' Hv' Ha'.
  set (l := map_to_list (ps_dsc_info ps)) in *.
  assert (∀ x, x ∈ l →
            dsc_total_variants x.2 = Z.of_nat (size (dsc_variants x.2)) ∧
            0 ≤ dsc_nbases x.2) as Hsizes.
  { intros [fid dsc] Hin%elem_of_map_to_list.
    destruct (parse_ssc_entry _ _ _ _ _ _ Hrun Hin)
      as (fam & bp0 & bp1 & _ & Hms).
    by apply final_dsc_sizes in Hms. }
  assert (foldr Z.add 0 ((λ x, dsc_total_variants x.2) <$> l) =
          foldr Z.add 0 ((λ x, Z.of_nat (size (dsc_variants x.2))) <$> l))
    as Hvs.
  { clear -Hsizes. induction l as [|x l IH]; [done|].
    rewrite !fmap_cons. cbn [foldr].
    rewrite IH by (intros y Hy; apply Hsizes; by right).
    by destruct (Hsizes x) as [-> _]; [by left|]. }
  assert (∀ keep,
    total_of "bases" (format_summary (ps_dsc_info ps) keep)
      = kept_sum dsc_nbases (λ _, True) keep l ∧
    total_of "variants" (format_summary (ps_dsc_info ps) keep)
      = kept_sum (λ d, Z.of_nat (size (dsc_variants d))) (λ _, True) keep l ∧
    total_of "adducts" (format_summary (ps_dsc_info ps) keep)
      = 2 * kept_sum (λ d, Z.of_nat (size (dsc_adducts d))) (λ _, True) keep l)
    as Hsum.
  { intros keep. split_and!.
    - destruct (format_summary_init keep (ps_dsc_info ps) "bases" None)
        as (-> & _).
      apply kept_sum_ext. intros x _. unfold total_weight. simpl. lia.
    - destruct (format_summary_init keep (ps_dsc_info ps) "variants" None)
        as (-> & _).
      apply kept_sum_ext. intros x _. unfold total_weight. simpl. lia.
    - destruct (format_summary_init keep (ps_dsc_info ps) "adducts" None)
        as (-> & _).
      fold l. generalize l. intros l'.
      induction l' as [|x l' IH]; [done|].
      rewrite !kept_sum_cons, IH. unfold total_weight. simpl.
      case_decide; lia. }
  split_and!.
  - destruct (Hsum (keep_families filter_on (ps_dsc_info ps) None))
      as (-> & _).
    rewrite kept_sum_all; [lia|].
    intros [fid dsc] Hin%elem_of_map_to_list.
    apply elem_of_keep_families. by exists dsc.
  - destruct (Hsum (keep_families filter_on (ps_dsc_info ps) None))
      as (_ & -> & _).
    rewrite kept_sum_all; [lia|].
    intros [fid dsc] Hin%elem_of_map_to_list.
    apply elem_of_keep_families. by exists dsc.
  - destruct (Hsum (keep_families filter_on (ps_dsc_info ps) None))
      as (_ & _ & ->).
    rewrite kept_sum_all; [lia|].
    intros [fid dsc] Hin%elem_of_map_to_list.
    apply elem_of_keep_families. by exists dsc.
  - intros keep. destruct (Hsum keep) as (-> & -> & ->).
    pose proof (kept_sum_le dsc_nbases keep l) as H1.
    pose proof (kept_sum_le (λ d, Z.of_nat (size (dsc_variants d))) keep l)
      as H2.
    pose proof (kept_sum_le (λ d, Z.of_nat (size (dsc_adducts d))) keep l)
      as H3.
    split_and!.
    + apply H1. intros x Hx. by apply Hsizes.
    + rewrite Hvs. apply H2. intros x _. lia.
    + assert (∀ a b, a ≤ b → 2 * a ≤ 2 * b) as Hdouble by lia.
      apply Hdouble, H3. intros x _. lia.
Qed.

Lemma summary_and_read_positions_witness :
  total_of "adducts"
    (format_summary (ps_dsc_info dual_ps)
       (keep_families total_variants (ps_dsc_info dual_ps) None))
  = 2 * counter_total (bp_adducts (ps_base_positions dual_ps)).
Proof.
  destruct (summary_and_read_positions refseq_acgt dual_pos_reads
              dual_neg_reads dual_ps total_variants eq_refl)
    as (_ & _ & H & _).
  exact H.
Defined.
